(** * The rate-limited job queue of the music agency application

    A shallow embedding of [lib/queue] (the queue engine on Vercel KV with an
    Upstash rate limiter), of the two enqueue routes, of the job status route
    and of the cron worker route, followed by the properties the
    specification states about them.

    Conventions of the embedding.
    - Time is in milliseconds, as [Date.now()] returns it.  A queue operation
      is instantaneous; the clock advances while a job handler runs.
    - The KV commands are assumed to succeed (an unavailable store is not
      modelled).
    - A value written with [JSON.stringify] and read back through the
      client's automatic deserialisation is represented by the value itself.
    - Strings are sequences of UTF-8 bytes.
    - The console holds the lines [lib/queue] writes; the progress lines of
      the routes and of the handlers are left out. *)

From Stdlib Require Import ZArith.
From stdpp Require Import base gmap strings list pretty.

Set Warnings "-register-all".
Local Open Scope Z_scope.

(** ** JavaScript values *)

(** A JSON value, as [request.json()] and [JSON.parse] produce it.  Numbers
    are the integers; the routes only test a number for being zero. *)
Inductive json : Type :=
  | JNull
  | JBool (b : bool)
  | JNum (z : Z)
  | JStr (s : string)
  | JArr (items : list json)
  | JObj (fields : list (string * json)).

(** A JavaScript value read from a property: [None] is [undefined]. *)
Abbreviation jsval := (option json).

(** [!!v] in JavaScript. *)
Definition truthy (v : jsval) : bool :=
  match v with
  | None => false
  | Some JNull => false
  | Some (JBool b) => b
  | Some (JNum z) => negb (z =? 0)
  | Some (JStr s) => negb (bool_decide (s = ""))
  | Some (JArr _) => true
  | Some (JObj _) => true
  end.

(** The last binding of [k]: a repeated key of a JSON object keeps its last
    value. *)
Fixpoint assoc_last (k : string) (fields : list (string * json)) : jsval :=
  match fields with
  | [] => None
  | (k', v) :: rest =>
      match assoc_last k rest with
      | Some w => Some w
      | None => if bool_decide (k' = k) then Some v else None
      end
  end.

(** [v.k] for the property names the routes destructure: only an object
    carries them. *)
Definition prop (k : string) (v : json) : jsval :=
  match v with
  | JObj fields => assoc_last k fields
  | _ => None
  end.

(** [a || b] on values. *)
Definition js_or (a : jsval) (b : json) : json :=
  match a with
  | Some v => if truthy a then v else b
  | None => b
  end.

(** White space as [String.prototype.trim] sees it, on the UTF-8 encoding:
    the number of bytes of the white-space character the string starts with,
    [0] when it starts with none. *)
Definition ws_prefix (s : string) : nat :=
  match s with
  | String a rest =>
      let n := Ascii.nat_of_ascii a in
      if bool_decide (n = 9 ∨ n = 10 ∨ n = 11 ∨ n = 12 ∨ n = 13 ∨ n = 32)%nat
      then 1%nat
      else
        match rest with
        | String b rest' =>
            let m := Ascii.nat_of_ascii b in
            if bool_decide (n = 194 ∧ m = 160)%nat then 2%nat (* U+00A0 *)
            else
              match rest' with
              | String c _ =>
                  let p := Ascii.nat_of_ascii c in
                  if bool_decide
                       ((n = 225 ∧ m = 154 ∧ p = 128)            (* U+1680 *)
                        ∨ (n = 226 ∧ m = 128 ∧ 128 ≤ p ≤ 138)    (* U+2000..U+200A *)
                        ∨ (n = 226 ∧ m = 128 ∧ (p = 168 ∨ p = 169)) (* U+2028, U+2029 *)
                        ∨ (n = 226 ∧ m = 128 ∧ p = 175)          (* U+202F *)
                        ∨ (n = 226 ∧ m = 129 ∧ p = 159)          (* U+205F *)
                        ∨ (n = 227 ∧ m = 128 ∧ p = 128)          (* U+3000 *)
                        ∨ (n = 239 ∧ m = 187 ∧ p = 191))%nat     (* U+FEFF *)
                  then 3%nat else 0%nat
              | EmptyString => 0%nat
              end
        | EmptyString => 0%nat
        end
  | EmptyString => 0%nat
  end.

Fixpoint drop_bytes (n : nat) (s : string) : string :=
  match n, s with
  | S n', String _ rest => drop_bytes n' rest
  | _, _ => s
  end.

(** [!s.trim()]: the string holds white space only.  The fuel is the length
    of the string, which bounds the number of characters. *)
Fixpoint blank_fuel (fuel : nat) (s : string) : bool :=
  match s with
  | EmptyString => true
  | _ =>
      match fuel with
      | O => false
      | S fuel' =>
          match ws_prefix s with
          | O => false
          | n => blank_fuel fuel' (drop_bytes n s)
          end
      end
  end.

Definition blank (s : string) : bool := blank_fuel (String.length s) s.

(** A JavaScript number that arithmetic of the status route can produce. *)
Inductive JsNumber : Type :=
  | Finite (z : Z)
  | PosInfinity
  | NegInfinity
  | NaN.

(** [Math.ceil(a / b)] for integers [a] and [b <> 0]; [Z.div] rounds down
    for either sign of the divisor. *)
Definition ceil_div (a b : Z) : Z := - ((- a) / b).

(** [Math.ceil(a / b)] for integers, the division by zero included. *)
Definition js_ceil_quot (a b : Z) : JsNumber :=
  if b =? 0 then
    (if 0 <? a then PosInfinity else if a <? 0 then NegInfinity else NaN)
  else Finite (ceil_div a b).

(** [x * k] for a positive integer constant [k]. *)
Definition js_scale (x : JsNumber) (k : Z) : JsNumber :=
  match x with
  | Finite z => Finite (z * k)
  | other => other
  end.

(** The text of a number in a template literal. *)
Definition show_number (x : JsNumber) : string :=
  match x with
  | Finite z => pretty z
  | PosInfinity => "Infinity"
  | NegInfinity => "-Infinity"
  | NaN => "NaN"
  end.

(** [Array.prototype.findIndex]: the first index whose element satisfies
    [p], [-1] when there is none. *)
Fixpoint findIndex {A : Type} (p : A → bool) (l : list A) : Z :=
  match l with
  | [] => -1
  | x :: rest =>
      if p x then 0
      else let i := findIndex p rest in if i <? 0 then -1 else i + 1
  end.

(** ** Jobs *)

Inductive Status : Type := pending | processing | completed | failed.

#[global] Instance Status_eq_dec : EqDecision Status.
Proof. solve_decision. Defined.

(** [QueueJob].  The interface declares [userId] a string and [type] one of
    ['lyrics'] and ['music']; the annotations are erased at run time, where
    the enqueue routes pass the request's [userId] through unchecked and the
    worker compares [type] as a string. *)
Record QueueJob : Type := mkJob {
  id : string;
  userId : json;
  type : string;
  payload : json;
  status : Status;
  createdAt : Z;
  attempts : Z;
  error : option string;
}.

Definition with_status (s : Status) (j : QueueJob) : QueueJob :=
  mkJob (id j) (userId j) (type j) (payload j) s (createdAt j) (attempts j) (error j).
Definition with_attempts (a : Z) (j : QueueJob) : QueueJob :=
  mkJob (id j) (userId j) (type j) (payload j) (status j) (createdAt j) a (error j).
Definition with_error (e : option string) (j : QueueJob) : QueueJob :=
  mkJob (id j) (userId j) (type j) (payload j) (status j) (createdAt j) (attempts j) e.

(** ** The key-value store *)

(** A value written by [setex]: it is visible while the clock is before
    [expireAt]. *)
Record Timed (A : Type) : Type := mkTimed { tval : A; expireAt : Z }.
Arguments mkTimed {A} _ _.
Arguments tval {A} _.
Arguments expireAt {A} _.

(** The keys the queue uses.  [`job:${jobId}`], [`result:${jobId}`] and
    [`error:${jobId}`] are injective in [jobId] and start differently from
    one another and from ['queue:pending'], so each family is a map of its
    own, indexed by [jobId].  The pending list is a Redis list: index [0] is
    its head, where [lpush] inserts; [rpop] removes its last element.  A
    Redis key of any kind may carry an expiry; [pendingExpireAt] is that of
    ['queue:pending']. *)
Record KV : Type := mkKV {
  jobs : gmap string (Timed QueueJob);
  results : gmap string (Timed json);
  errors : gmap string (Timed string);
  queue_pending : list QueueJob;
  pendingExpireAt : option Z;
}.

Definition live {A : Type} (now : Z) (e : option (Timed A)) : option A :=
  match e with
  | Some t => if now <? expireAt t then Some (tval t) else None
  | None => None
  end.

(** The pending list as the commands see it at time [now]. *)
Definition live_pending (now : Z) (s : KV) : list QueueJob :=
  match pendingExpireAt s with
  | Some t => if now <? t then queue_pending s else []
  | None => queue_pending s
  end.

(** ** What the queue depends on *)

(** The answer of [ratelimit.limit]. *)
Record LimitResult : Type := mkLimit { success : bool; remaining : Z; reset : Z }.

(** The Upstash rate limiter, an external library: [limit key now] answers
    from the state of its counters and updates them.  (Its counters live in
    the same Redis instance under the prefix ['suno-ratelimit'], apart from
    every key of the queue.) *)
Class Limiter : Type := {
  RLState : Type;
  limit : string → Z → RLState → LimitResult * RLState;
}.

(** A run of a job handler: the value it returns or the message of the error
    it throws, and the time it took. *)
Record HandlerRun : Type := mkRun { outcome : json + string; elapsed : N }.

(** The job handlers call external services (moderation, language model,
    music generation) and touch neither the store nor the limiter. *)
Class Handlers : Type := {
  ExtState : Type;
  processLyricsJob : json → Z → ExtState → HandlerRun * ExtState;
  processMusicJob : json → Z → ExtState → HandlerRun * ExtState;
}.

(** [process.env].  A variable that is set is taken to hold an integer
    literal where [parseInt] reads it. *)
Class Environment : Type := {
  RATE_LIMIT_MAX_REQUESTS : option Z;
  RATE_LIMIT_WINDOW_SECONDS : option Z;
  CRON_SECRET : option string;
}.

(** [JSON.parse] on a string, a built-in the embedding does not implement:
    the value, or the message of the [SyntaxError]. *)
Class Runtime : Type := {
  JSON_parse : string → json + string;
}.

Inductive Level : Type := Log | Warn | Error.

(** ** The state the program runs in *)

Section Program.

Context {L : Limiter} {H : Handlers} {E : Environment} {R : Runtime}.

Record World : Type := mkWorld {
  kv : KV;
  rl : RLState;
  ext : ExtState;
  clock : Z;
  console : list (Level * string);
}.

Definition set_kv (f : KV → KV) (w : World) : World :=
  mkWorld (f (kv w)) (rl w) (ext w) (clock w) (console w).

(** A computation on the world. *)
Definition M (A : Type) : Type := World → A * World.

#[global] Instance M_ret : MRet M := λ A (a : A) w, (a, w).
#[global] Instance M_bind : MBind M :=
  λ A B (f : A → M B) (m : M A) w, let '(a, w') := m w in f a w'.

Definition Date_now : M Z := λ w, (clock w, w).

Definition console_write (lvl : Level) (msg : string) : M unit :=
  λ w, (tt, mkWorld (kv w) (rl w) (ext w) (clock w) (console w ++ [(lvl, msg)])).

Definition ratelimit_limit (key : string) : M LimitResult :=
  λ w, let '(r, st) := limit key (clock w) (rl w) in
       (r, mkWorld (kv w) st (ext w) (clock w) (console w)).

(** [kv.lpush('queue:pending', job)]. *)
Definition kv_lpush (j : QueueJob) : M unit :=
  λ w, let l := live_pending (clock w) (kv w) in
       (tt, set_kv (λ s, mkKV (jobs s) (results s) (errors s) (j :: l)
                           (match l with [] => None | _ => pendingExpireAt s end)) w).

(** The last element of a list and what precedes it. *)
Fixpoint unsnoc {A : Type} (l : list A) : option (list A * A) :=
  match l with
  | [] => None
  | x :: rest =>
      match unsnoc rest with
      | None => Some ([], x)
      | Some (init, y) => Some (x :: init, y)
      end
  end.

(** [kv.rpop('queue:pending')]: a list left empty is deleted, with its
    expiry. *)
Definition kv_rpop : M (option QueueJob) :=
  λ w, match unsnoc (live_pending (clock w) (kv w)) with
       | None => (None, w)
       | Some (init, j) =>
           (Some j,
            set_kv (λ s, mkKV (jobs s) (results s) (errors s) init
                           (match init with [] => None | _ => pendingExpireAt s end)) w)
       end.

(** [kv.llen('queue:pending')]. *)
Definition kv_llen : M Z :=
  λ w, (Z.of_nat (length (live_pending (clock w) (kv w))), w).

(** [kv.lrange('queue:pending', 0, -1)]. *)
Definition kv_lrange : M (list QueueJob) :=
  λ w, (live_pending (clock w) (kv w), w).

(** [kv.get(`job:${jobId}`)]. *)
Definition kv_get_job (jobId : string) : M (option QueueJob) :=
  λ w, (live (clock w) (jobs (kv w) !! jobId), w).

(** [kv.setex(`job:${jobId}`, ttl, job)], [ttl] in seconds. *)
Definition kv_setex_job (jobId : string) (ttl : Z) (j : QueueJob) : M unit :=
  λ w, (tt, set_kv (λ s, mkKV (<[jobId := mkTimed j (clock w + ttl * 1000)]> (jobs s))
                           (results s) (errors s) (queue_pending s) (pendingExpireAt s)) w).

(** [kv.get(`result:${jobId}`)]. *)
Definition kv_get_result (jobId : string) : M (option json) :=
  λ w, (live (clock w) (results (kv w) !! jobId), w).

(** [kv.setex(`result:${jobId}`, ttl, result)]. *)
Definition kv_setex_result (jobId : string) (ttl : Z) (v : json) : M unit :=
  λ w, (tt, set_kv (λ s, mkKV (jobs s)
                           (<[jobId := mkTimed v (clock w + ttl * 1000)]> (results s))
                           (errors s) (queue_pending s) (pendingExpireAt s)) w).

(** [kv.setex(`error:${jobId}`, ttl, message)]. *)
Definition kv_setex_error (jobId : string) (ttl : Z) (msg : string) : M unit :=
  λ w, (tt, set_kv (λ s, mkKV (jobs s) (results s)
                           (<[jobId := mkTimed msg (clock w + ttl * 1000)]> (errors s))
                           (queue_pending s) (pendingExpireAt s)) w).

(** ** lib/queue *)

Definition maxRequests : Z := default 20 RATE_LIMIT_MAX_REQUESTS.
Definition windowSeconds : Z := default 10 RATE_LIMIT_WINDOW_SECONDS.

Record RateLimitConfig : Type := mkConfig { cfg_maxRequests : Z; cfg_windowSeconds : Z }.

Definition getRateLimitConfig : RateLimitConfig := mkConfig maxRequests windowSeconds.

(** [enqueueJob].  [rnd] is [Math.random().toString(36).substr(2, 9)]. *)
Definition enqueueJob (rnd : string) (userId' : json) (type' : string) (payload' : json)
  : M string :=
  now ← Date_now;
  let jobId := "job:" +:+ pretty now +:+ ":" +:+ rnd in
  created ← Date_now;
  let queueJob := mkJob jobId userId' type' payload' pending created 0 None in
  kv_lpush queueJob;;
  kv_setex_job jobId 3600 queueJob;;
  console_write Log ("✅ Job " +:+ jobId +:+ " enqueued (type: " +:+ type' +:+ ")");;
  mret jobId.

(** [processNextJob]. *)
Definition processNextJob : M (option QueueJob) :=
  r ← ratelimit_limit "suno-api";
  if negb (success r) then
    now ← Date_now;
    let waitTime := ceil_div (reset r - now) 1000 in
    console_write Log ("⏸️ Rate limit reached. Remaining: " +:+ pretty (remaining r)
                       +:+ ". Retry in " +:+ pretty waitTime +:+ "s");;
    mret None
  else
    jobData ← kv_rpop;
    match jobData with
    | None => mret None
    | Some popped =>
        let job := with_status processing popped in
        let job := with_attempts (attempts job + 1) job in
        kv_setex_job (id job) 3600 job;;
        console_write Log ("🔄 Processing job " +:+ id job +:+ " (attempt "
                           +:+ pretty (attempts job) +:+ ")");;
        mret (Some job)
    end.

(** [completeJob]. *)
Definition completeJob (jobId : string) (result : json) : M unit :=
  jobData ← kv_get_job jobId;
  match jobData with
  | None => console_write Warn ("⚠️ Job " +:+ jobId +:+ " not found")
  | Some found =>
      let job := with_status completed found in
      kv_setex_job jobId 3600 job;;
      kv_setex_result jobId 3600 result;;
      console_write Log ("✅ Job " +:+ jobId +:+ " completed")
  end.

(** [failJob]; [maxRetries] is [None] when the caller leaves it out. *)
Definition failJob (jobId : string) (error' : string) (maxRetries : option Z) : M unit :=
  let maxRetries := default 3 maxRetries in
  jobData ← kv_get_job jobId;
  match jobData with
  | None => console_write Warn ("⚠️ Job " +:+ jobId +:+ " not found")
  | Some found =>
      let job := with_error (Some error') found in
      if attempts job <? maxRetries then
        let job := with_status pending job in
        kv_lpush job;;
        kv_setex_job jobId 3600 job;;
        console_write Log ("🔄 Job " +:+ jobId +:+ " will retry (attempt "
                           +:+ pretty (attempts job + 1) +:+ "/" +:+ pretty maxRetries +:+ ")")
      else
        let job := with_status failed job in
        kv_setex_job jobId 3600 job;;
        kv_setex_error jobId 3600 error';;
        console_write Error ("❌ Job " +:+ jobId +:+ " failed after " +:+ pretty maxRetries
                             +:+ " attempts: " +:+ error')
  end.

(** [getJobQueuePosition]. *)
Definition getJobQueuePosition (jobId : string) : M (option Z) :=
  queueLength ← kv_llen;
  if queueLength =? 0 then mret None
  else
    queueItems ← kv_lrange;
    if Z.of_nat (length queueItems) =? 0 then mret None
    else
      let position := findIndex (λ job, bool_decide (id job = jobId)) queueItems in
      mret (if 0 <=? position then Some (position + 1) else None).

(** [getJobStatus]: the job, with its [queuePosition] when it is pending. *)
Definition getJobStatus (jobId : string) : M (option (QueueJob * option Z)) :=
  jobData ← kv_get_job jobId;
  match jobData with
  | None => mret None
  | Some job =>
      if bool_decide (status job = pending) then
        queuePosition ← getJobQueuePosition jobId;
        mret (Some (job, queuePosition))
      else mret (Some (job, None))
  end.

(** [getJobResult]: [null] is [JNull]; a result that reads back as a string
    is parsed once more. *)
Definition getJobResult (jobId : string) : M (json + string) :=
  resultData ← kv_get_result jobId;
  if negb (truthy resultData) then mret (inl JNull)
  else
    match resultData with
    | Some (JStr text) => mret (JSON_parse text)
    | Some v => mret (inl v)
    | None => mret (inl JNull)
    end.

(** [getQueueSize]. *)
Definition getQueueSize : M Z :=
  size ← kv_llen;
  mret size.

(** [getQueueStats]: the pending count with [remaining] and [reset] of the
    limiter under the key of the statistics. *)
Definition getQueueStats : M (Z * (Z * Z)) :=
  pending' ← getQueueSize;
  r ← ratelimit_limit "suno-api-stats";
  mret (pending', (remaining r, reset r)).

(** ** The routes *)

(** What a route answers: the body of a [200], or a status code with the
    [error] text of the body. *)
Inductive Reply (A : Type) : Type :=
  | Ok (body : A)
  | Failure (code : Z) (err : string).
#[global] Arguments Ok {A} _.
#[global] Arguments Failure {A} _ _.

(** The body of a successful enqueue. *)
Record Enqueued : Type := mkEnqueued { enq_jobId : string; enq_message : string }.

(** [e.message || fallback] in a [catch]. *)
Definition message_or (msg fallback : string) : string :=
  if bool_decide (msg = "") then fallback else msg.

(** The test [!v || !v.trim()] of the enqueue routes: it holds, or it fails
    on the string [s], or it throws because [v] is no string and has no
    [trim]. *)
Inductive TrimTest : Type :=
  | Missing
  | Present (s : string)
  | NotAString.

Definition trim_test (v : jsval) : TrimTest :=
  if negb (truthy v) then Missing
  else
    match v with
    | Some (JStr s) => if blank s then Missing else Present s
    | _ => NotAString
    end.

Definition is_null (v : json) : bool :=
  match v with JNull => true | _ => false end.

(** [POST] of the route that enqueues a lyrics job, on the parsed body.
    Destructuring [null] throws, and so does [trim] on a value that is no
    string; the texts of the two [TypeError]s are those of V8. *)
Definition lyricsPOST (rnd : string) (body : json) : M (Reply Enqueued) :=
  if is_null body then
    mret (Failure 500 (message_or
      "Cannot destructure property 'story' of 'body' as it is null."
      "Failed to enqueue lyrics job"))
  else
    let story := prop "story" body in
    let moods := prop "moods" body in
    let userId' := prop "userId" body in
    match trim_test story with
    | Missing => mret (Failure 400 "Story is required")
    | NotAString =>
        mret (Failure 500 (message_or "story.trim is not a function"
                                      "Failed to enqueue lyrics job"))
    | Present text =>
        jobId ← enqueueJob rnd (js_or userId' (JStr "anonymous")) "lyrics"
                  (JObj [("story", JStr text); ("moods", js_or moods (JArr []))]);
        mret (Ok (mkEnqueued jobId
               "Lyrics generation job enqueued. Check status with /api/job/{jobId}"))
    end.

(** [POST] of the route that enqueues a music job, on the parsed body. *)
Definition musicPOST (rnd : string) (body : json) : M (Reply Enqueued) :=
  if is_null body then
    mret (Failure 500 (message_or
      "Cannot destructure property 'endpoint' of 'body' as it is null."
      "Failed to enqueue music job"))
  else
    let endpoint := prop "endpoint" body in
    let requestBody := prop "requestBody" body in
    let userId' := prop "userId" body in
    match trim_test endpoint with
    | Missing => mret (Failure 400 "Endpoint is required")
    | NotAString =>
        mret (Failure 500 (message_or "endpoint.trim is not a function"
                                      "Failed to enqueue music job"))
    | Present url =>
        match requestBody with
        | Some request =>
            if negb (truthy requestBody)
            then mret (Failure 400 "Request body is required")
            else
              jobId ← enqueueJob rnd (js_or userId' (JStr "anonymous")) "music"
                        (JObj [("endpoint", JStr url); ("requestBody", request)]);
              mret (Ok (mkEnqueued jobId
                     "Music generation job enqueued. Check status with /api/job/{jobId}"))
        | None => mret (Failure 400 "Request body is required")
        end
    end.

(** The body of [GET /api/job/[jobId]]; a field that is [None] is left out
    of the response. *)
Record JobView : Type := mkView {
  v_jobId : string;
  v_status : Status;
  v_type : string;
  v_createdAt : Z;
  v_attempts : Z;
  v_maxRetries : Z;
  v_result : option json;
  v_error : option string;
  v_queuePosition : option Z;
  v_estimatedWaitSeconds : option JsNumber;
  v_message : option string;
}.

(** The fields the route sets when the job is [failed]. *)
Definition failed_fields (job : QueueJob) : option string * option string :=
  if bool_decide (status job = failed) then
    (Some (match error job with
           | Some e => if bool_decide (e = "") then "Job failed" else e
           | None => "Job failed"
           end),
     Some (if 3 <=? attempts job
           then "Generation failed after " +:+ pretty (attempts job)
                +:+ " attempts. Please try a fresh generation with different settings or try again later."
           else "Failed: " +:+ default "undefined" (error job)))
  else (None, None).

(** The fields the route sets when the job is [pending]: [queuePosition],
    [estimatedWaitSeconds] and [message]. *)
Definition pending_fields (job : QueueJob) (queuePosition : option Z)
  : option Z * option JsNumber * option string :=
  if bool_decide (status job = pending) then
    if 0 <? attempts job then
      (queuePosition, None,
       Some ("Retrying... (attempt " +:+ pretty (attempts job + 1) +:+ "/3)"))
    else
      match queuePosition with
      | Some position =>
          if position =? 0
          then (queuePosition, None, Some "Job is in the queue and will be processed soon...")
          else
            let cronIntervalSeconds := 60 in
            let estimatedWaitSeconds :=
              js_scale (js_ceil_quot position (cfg_maxRequests getRateLimitConfig))
                       cronIntervalSeconds in
            (queuePosition, Some estimatedWaitSeconds,
             Some ("Your music is in the queue at position " +:+ pretty position
                   +:+ ". Estimated wait: " +:+ show_number estimatedWaitSeconds +:+ "s"))
      | None => (None, None, Some "Job is in the queue and will be processed soon...")
      end
  else (None, None, None).

(** The [message] the route sets when the job is [processing]. *)
Definition processing_message (job : QueueJob) : option string :=
  if bool_decide (status job = processing) then
    Some (if 1 <? attempts job
          then "Creating your music... (retry " +:+ pretty (attempts job) +:+ "/3)"
          else "Your music is being created right now! 🎵")
  else None.

(** The [result] the route attaches when the job is [completed], or the
    message of the error the read throws. *)
Definition completed_result (job : QueueJob) (jobId : string) : M (option json + string) :=
  if bool_decide (status job = completed) then
    r ← getJobResult jobId;
    mret (match r with inl v => inl (Some v) | inr msg => inr msg end)
  else mret (inl None).

(** [GET /api/job/[jobId]]. *)
Definition jobGET (jobId : string) : M (Reply JobView) :=
  if bool_decide (jobId = "") then mret (Failure 400 "Job ID is required")
  else
    found ← getJobStatus jobId;
    match found with
    | None => mret (Failure 404 "Job not found")
    | Some (job, queuePosition) =>
        read ← completed_result job jobId;
        match read with
        | inr msg => mret (Failure 500 (message_or msg "Failed to get job status"))
        | inl result =>
            let '(error', failedMessage) := failed_fields job in
            let '(position, estimatedWaitSeconds, pendingMessage) :=
              pending_fields job queuePosition in
            let message :=
              match processing_message job, pendingMessage with
              | Some m, _ => Some m
              | None, Some m => Some m
              | None, None => failedMessage
              end in
            mret (Ok (mkView (id job) (status job) (type job) (createdAt job)
                             (attempts job) 3 result error' position
                             estimatedWaitSeconds message))
        end
    end.

(** The body of a successful worker run.  The route reports the duration in
    seconds, rounded to two decimals by [toFixed]; the embedding keeps the
    milliseconds it is computed from. *)
Record CronSummary : Type := mkSummary { processed : Z; duration_ms : Z }.

(** One turn of the worker's loop, recorded for the proofs: [processNextJob]
    returned nothing, or a job whose handler returned, or a job whose handler
    threw. *)
Inductive Turn : Type :=
  | Stopped
  | Completed (job : QueueJob)
  | Threw (job : QueueJob) (msg : string).

(** The dispatch on [job.type] and the call of the handler, during which the
    clock advances. *)
Definition runHandler (job : QueueJob) : M HandlerRun :=
  λ w,
    let '(run, e) :=
      if bool_decide (type job = "lyrics") then processLyricsJob (payload job) (clock w) (ext w)
      else if bool_decide (type job = "music") then processMusicJob (payload job) (clock w) (ext w)
      else (mkRun (inr ("Unknown job type: " +:+ type job)) 0%N, ext w) in
    (run, mkWorld (kv w) (rl w) e (clock w + Z.of_N (elapsed run)) (console w)).

(** The [while] loop of the worker.  It returns [processedCount] and, for
    the proofs, the turns it took; [None] when the fuel does not suffice. *)
Fixpoint drainLoop (fuel : nat) (maxJobs processedCount : Z) (turns : list Turn)
  : M (option (Z * list Turn)) :=
  if processedCount <? maxJobs then
    match fuel with
    | O => mret None
    | S fuel' =>
        next ← processNextJob;
        match next with
        | None => mret (Some (processedCount, turns ++ [Stopped]))
        | Some job =>
            run ← runHandler job;
            match outcome run with
            | inl result =>
                completeJob (id job) result;;
                drainLoop fuel' maxJobs (processedCount + 1) (turns ++ [Completed job])
            | inr msg =>
                failJob (id job) msg None;;
                drainLoop fuel' maxJobs processedCount (turns ++ [Threw job msg])
            end
        end
    end
  else mret (Some (processedCount, turns)).

(** [GET] of the cron route, with the turns of its loop. *)
Definition cronGET (fuel : nat) (authHeader : option string)
  : M (option (Reply CronSummary * list Turn)) :=
  if negb (bool_decide (authHeader = Some ("Bearer " +:+ default "undefined" CRON_SECRET)))
  then mret (Some (Failure 401 "Unauthorized", []))
  else
    startTime ← Date_now;
    let rateLimitConfig := getRateLimitConfig in
    let maxJobs := cfg_maxRequests rateLimitConfig in
    _ ← getQueueStats;
    drained ← drainLoop fuel maxJobs 0 [];
    match drained with
    | None => mret None
    | Some (processedCount, turns) =>
        finish ← Date_now;
        mret (Some (Ok (mkSummary processedCount (finish - startTime)), turns))
    end.

End Program.

(** ** Auxiliary definitions for the statements *)

Section Auxiliary.

Context {L : Limiter} {H : Handlers}.

(** Time passing between two calls. *)
Definition advance (dt : N) : M unit :=
  λ w, (tt, mkWorld (kv w) (rl w) (ext w) (clock w + Z.of_N dt) (console w)).

Definition set_jobs (recs : gmap string (Timed QueueJob)) (w : World) : World :=
  set_kv (λ s, mkKV recs (results s) (errors s) (queue_pending s) (pendingExpireAt s)) w.

(** One submission: the time since the previous one, the random suffix and
    the fields the caller gives. *)
Record Submission : Type := mkSubmission {
  sub_delay : N;
  sub_rnd : string;
  sub_userId : json;
  sub_type : string;
  sub_payload : json;
}.

(** A sequence of [enqueueJob] calls and nothing else; the jobs as they were
    built, in the order of the calls. *)
Fixpoint enqueue_seq (subs : list Submission) : M (list QueueJob) :=
  match subs with
  | [] => mret []
  | s :: rest =>
      advance (sub_delay s);;
      now ← Date_now;
      jobId ← enqueueJob (sub_rnd s) (sub_userId s) (sub_type s) (sub_payload s);
      built ← enqueue_seq rest;
      mret (mkJob jobId (sub_userId s) (sub_type s) (sub_payload s) pending now 0 None :: built)
  end.

(** [n] calls of [rpop] in a row: the jobs they return, in order. *)
Fixpoint pops (n : nat) : M (list QueueJob) :=
  match n with
  | O => mret []
  | S n' =>
      popped ← kv_rpop;
      later ← pops n';
      mret (match popped with Some j => j :: later | None => later end)
  end.

(** The job as [processNextJob] hands it out. *)
Definition dequeued (j : QueueJob) : QueueJob :=
  with_attempts (attempts j + 1) (with_status processing j).

(** The record as [failJob] writes it, on a retry and on the last failure. *)
Definition retried (msg : string) (j : QueueJob) : QueueJob :=
  with_status pending (with_error (Some msg) j).
Definition exhausted (msg : string) (j : QueueJob) : QueueJob :=
  with_status failed (with_error (Some msg) j).

(** The computation sets no expiry on the pending list: the list ends
    without one or with the one it had. *)
Definition sets_no_expiry {A : Type} (m : M A) : Prop :=
  ∀ w, pendingExpireAt (kv (m w).2) = None
       ∨ pendingExpireAt (kv (m w).2) = pendingExpireAt (kv w).

(** The pending list has no expiry or is empty: it looks the same later
    on. *)
Definition settled (w : World) : Prop :=
  pendingExpireAt (kv w) = None ∨ live_pending (clock w) (kv w) = [].

(** What an enqueue route leaves when it accepts: one more entry at the head
    of the pending list, of the type of the route. *)
Definition accepted (ty : string) (payload' : json) (e : Enqueued) (w w' : World) : Prop :=
  ∃ job, live_pending (clock w') (kv w') = job :: live_pending (clock w) (kv w)
         ∧ id job = enq_jobId e ∧ type job = ty ∧ payload job = payload'
         ∧ status job = pending ∧ attempts job = 0.

(** The turns of a worker run. *)
Definition is_stopped (t : Turn) : bool :=
  match t with Stopped => true | _ => false end.
Definition is_completed (t : Turn) : bool :=
  match t with Completed _ => true | _ => false end.
Definition is_threw (t : Turn) : bool :=
  match t with Threw _ _ => true | _ => false end.

Definition count_turns (p : Turn → bool) (turns : list Turn) : Z :=
  Z.of_nat (length (filter (λ t, p t = true) turns)).

(** [Stopped] occurs at the end of the turns or not at all. *)
Fixpoint stopped_only_last (turns : list Turn) : bool :=
  match turns with
  | [] => true
  | [_] => true
  | t :: rest => negb (is_stopped t) && stopped_only_last rest
  end.

Definition ends_stopped (turns : list Turn) : bool :=
  match last turns with Some Stopped => true | _ => false end.

(** The attempts a pending entry can still cost the worker: the one that
    removes it and one for each retry left to it. *)
Definition entry_weight (j : QueueJob) : nat := S (Z.to_nat (3 - attempts j)).

Definition pending_weight (l : list QueueJob) : nat :=
  foldr (λ j n, (entry_weight j + n)%nat) O l.

(** Fuel that suffices for the loop of the worker in [w]. *)
Definition drain_fuel (w : World) : nat :=
  S (pending_weight (live_pending (clock w) (kv w))).

End Auxiliary.

(** ** Sample collaborators *)

(** A limiter that keeps the times of the admissions of each key and admits
    [n] of them in any [window] seconds. *)
Definition recent (now window : Z) (log : list Z) : list Z :=
  filter (λ t, now - window * 1000 < t) log.

Definition log_limiter (n window : Z) : Limiter := {|
  RLState := gmap string (list Z);
  limit := λ key now st,
    let seen := recent now window (default [] (st !! key)) in
    let used := Z.of_nat (length seen) in
    if used <? n
    then (mkLimit true (n - used - 1) (now + window * 1000), <[key := now :: seen]> st)
    else (mkLimit false 0 (now + window * 1000), <[key := seen]> st)
|}.

(** Handlers that throw at once, whatever the payload. *)
Definition throwing_handlers : Handlers := {|
  ExtState := unit;
  processLyricsJob := λ _ _ e, (mkRun (inr "Failed to generate summary") 0%N, e);
  processMusicJob := λ _ _ e, (mkRun (inr "Suno API request failed: 500 ") 0%N, e);
|}.

(** Handlers that return at once. *)
Definition instant_handlers : Handlers := {|
  ExtState := unit;
  processLyricsJob := λ _ _ e, (mkRun (inl (JObj [("language", JStr "en")])) 0%N, e);
  processMusicJob := λ _ _ e,
    (mkRun (inl (JObj [("taskId", JStr "t1"); ("message", JStr "Music generation started")]))
           0%N, e);
|}.

(** No variable of the rate limit is set: 20 requests per 10 seconds. *)
Definition default_env : Environment := {|
  RATE_LIMIT_MAX_REQUESTS := None;
  RATE_LIMIT_WINDOW_SECONDS := None;
  CRON_SECRET := Some "s3cret";
|}.

(** [RATE_LIMIT_MAX_REQUESTS=1]. *)
Definition one_request_env : Environment := {|
  RATE_LIMIT_MAX_REQUESTS := Some 1;
  RATE_LIMIT_WINDOW_SECONDS := None;
  CRON_SECRET := Some "s3cret";
|}.

Definition strict_runtime : Runtime := {|
  JSON_parse := λ _, inr "Unexpected token"
|}.

Definition empty_kv : KV := mkKV ∅ ∅ ∅ [] None.

(** ** Sample worlds *)

Definition limiter20 : Limiter := log_limiter 20 10.
Definition limiter1 : Limiter := log_limiter 1 10.

(** An empty store at time 1000. *)
Definition world0 : @World limiter20 instant_handlers :=
  @mkWorld limiter20 instant_handlers empty_kv ∅ tt 1000 [].

Definition subA : Submission := mkSubmission 0 "aaaaaaaaa" (JStr "anonymous") "music" (JObj []).
Definition subB : Submission := mkSubmission 5 "bbbbbbbbb" (JStr "anonymous") "lyrics" (JObj []).

Definition jobA : QueueJob :=
  mkJob "job:1000:aaaaaaaaa" (JStr "anonymous") "music" (JObj []) pending 1000 0 None.
Definition jobB : QueueJob :=
  mkJob "job:1005:bbbbbbbbb" (JStr "anonymous") "lyrics" (JObj []) pending 1005 0 None.

(** [A] was enqueued, then [B]. *)
Definition world_AB : @World limiter20 instant_handlers :=
  (enqueue_seq [subA; subB] world0).2.

(** [A] was enqueued, handed out once and failed once; it waits for its
    retry. *)
Definition world_retry : @World limiter20 instant_handlers :=
  (failJob "job:1000:aaaaaaaaa" "Suno API request failed: 500 " None
     (processNextJob (enqueue_seq [subA] world0).2).2).2.

(** [A] was enqueued, then [B]; [A] was handed out and is being processed. *)
Definition world_processing : @World limiter20 instant_handlers :=
  (processNextJob world_AB).2.

(** [A] was enqueued, handed out and completed. *)
Definition world_done : @World limiter20 instant_handlers :=
  (completeJob "job:1000:aaaaaaaaa" (JObj [("taskId", JStr "t1")])
     (processNextJob (enqueue_seq [subA] world0).2).2).2.

(** [A] is in the pending list and its record has expired: an hour and a
    second after it was enqueued. *)
Definition world_expired : @World limiter20 instant_handlers :=
  (advance 3601000 (enqueue_seq [subA] world0).2).2.

(** One job whose handler throws, a limit of one request in ten seconds. *)
Definition world_throwing : @World limiter1 throwing_handlers :=
  (@enqueueJob limiter1 throwing_handlers "aaaaaaaaa" (JStr "anonymous") "music" (JObj [])
     (@mkWorld limiter1 throwing_handlers empty_kv ∅ tt 1000 [])).2.

(** ** lib/poll-job *)

(** What the browser reports as [statusText] of a response with the given
    status code; it depends on the version of HTTP in use. *)
Class Transport : Type := {
  statusText : Z → string;
}.

(** A number after [JSON.stringify] and [JSON.parse]: what is not finite
    arrives as [null]. *)
Inductive WireNumber : Type :=
  | WNum (z : Z)
  | WNull.

(** The body of a 200 of the status route as the client parses it: the
    fields of [JobStatus], and [createdAt], which the route sends as well.  A
    field that is [None] is absent. *)
Record JobStatus : Type := mkStatus {
  s_jobId : string;
  s_status : Status;
  s_type : string;
  s_createdAt : Z;
  s_attempts : Z;
  s_maxRetries : Z;
  s_result : jsval;
  s_error : option string;
  s_message : option string;
  s_queuePosition : option Z;
  s_estimatedWaitSeconds : option WireNumber;
}.

Definition over_the_wire (view : JobView) : JobStatus :=
  mkStatus (v_jobId view) (v_status view) (v_type view) (v_createdAt view) (v_attempts view)
           (v_maxRetries view) (v_result view) (v_error view) (v_message view)
           (v_queuePosition view)
           (match v_estimatedWaitSeconds view with
            | Some (Finite z) => Some (WNum z)
            | Some _ => Some WNull
            | None => None
            end).

(** The response to [fetch(`/api/job/${jobId}`)]: the parsed body of a 200,
    or the status code of a failure. *)
Inductive Fetched : Type :=
  | Body (data : JobStatus)
  | Refused (code : Z).

(** What a call comes to: the value it returns or the message of the error
    it throws. *)
Inductive Outcome (A : Type) : Type :=
  | Returned (v : A)
  | Thrown (msg : string).
#[global] Arguments Returned {A} _.
#[global] Arguments Thrown {A} _.

Definition show_status (s : Status) : string :=
  match s with
  | pending => "pending"
  | processing => "processing"
  | completed => "completed"
  | failed => "failed"
  end.

(** [`${data.estimatedWaitSeconds}`]. *)
Definition show_wait (x : option WireNumber) : string :=
  match x with
  | None => "undefined"
  | Some WNull => "null"
  | Some (WNum z) => pretty z
  end.

(** [data.error || 'Job failed']. *)
Definition error_or_default (e : option string) : string :=
  match e with
  | Some text => if bool_decide (text = "") then "Job failed" else text
  | None => "Job failed"
  end.

Section Client.

Context {L : Limiter} {H : Handlers} {E : Environment} {R : Runtime} {T : Transport}.

(** What happens to the world while the client waits [intervalMs] between
    two polls: time passes, the worker runs, other clients submit. *)
Variable meanwhile : Z → M unit.

(** The request of the client, answered by the status route.  The id is put
    in the path as it is; the ids [enqueueJob] makes consist of letters,
    digits and colons and reach the route unchanged. *)
Definition fetch_job (jobId : string) : M Fetched :=
  reply ← jobGET jobId;
  mret (match reply with
        | Ok view => Body (over_the_wire view)
        | Failure code _ => Refused code
        end).

(** What both pollers throw when the response is not ok. *)
Definition refusal (code : Z) : string :=
  if code =? 404 then "Job not found"
  else "Failed to get job status: " +:+ statusText code.

(** The loop of [pollJobWithProgress], [remaining] iterations before the
    end; [seen] collects what [onProgress] is called with. *)
Fixpoint progressLoop (remaining : nat) (jobId : string) (intervalMs : Z)
    (seen : list JobStatus) : M (Outcome jsval * list JobStatus) :=
  match remaining with
  | O => mret (Thrown "Job timeout", seen)
  | S remaining' =>
      response ← fetch_job jobId;
      match response with
      | Refused code => mret (Thrown (refusal code), seen)
      | Body data =>
          let seen := seen ++ [data] in
          if bool_decide (s_status data = completed) then mret (Returned (s_result data), seen)
          else if bool_decide (s_status data = failed)
          then mret (Thrown (error_or_default (s_error data)), seen)
          else
            meanwhile intervalMs;;
            progressLoop remaining' jobId intervalMs seen
      end
  end.

(** [pollJobWithProgress]; the two limits are [None] when the caller leaves
    them out.  The callback is called with each status in turn. *)
Definition pollJobWithProgress (jobId : string) (maxAttempts intervalMs : option Z)
  : M (Outcome jsval * list JobStatus) :=
  progressLoop (Z.to_nat (default 60 maxAttempts)) jobId (default 2000 intervalMs) [].

(** The line [pollJobUntilComplete] logs first for a status. *)
Definition status_line (jobId : string) (attempt maxAttempts : Z) (data : JobStatus)
  : Level * string :=
  if bool_decide (s_status data = pending)
     && match s_queuePosition data with Some q => negb (q =? 0) | None => false end
  then (Log, "⏳ Queue position: " +:+ pretty (default 0 (s_queuePosition data))
             +:+ " | Estimated wait: " +:+ show_wait (s_estimatedWaitSeconds data) +:+ "s")
  else if bool_decide (s_status data = processing)
  then (Log, "🎵 Creating your music...")
  else (Log, "📊 Job " +:+ jobId +:+ " status: " +:+ show_status (s_status data)
             +:+ " (attempt " +:+ pretty (attempt + 1) +:+ "/" +:+ pretty maxAttempts +:+ ")").

(** The loop of [pollJobUntilComplete]; [lines] is the console of the
    client. *)
Fixpoint untilLoop (remaining : nat) (attempt maxAttempts : Z) (jobId : string)
    (intervalMs : Z) (lines : list (Level * string))
  : M (Outcome jsval * list (Level * string)) :=
  match remaining with
  | O => mret (Thrown "Job timeout - exceeded maximum wait time", lines)
  | S remaining' =>
      response ← fetch_job jobId;
      match response with
      | Refused code => mret (Thrown (refusal code), lines)
      | Body data =>
          let lines := lines ++ [status_line jobId attempt maxAttempts data] in
          if bool_decide (s_status data = completed)
          then mret (Returned (s_result data),
                     lines ++ [(Log, "✅ Job completed successfully")])
          else if bool_decide (s_status data = failed)
          then
            let errorMessage := error_or_default (s_error data) in
            mret (Thrown errorMessage, lines ++ [(Error, "❌ Job failed: " +:+ errorMessage)])
          else
            meanwhile intervalMs;;
            untilLoop remaining' (attempt + 1) maxAttempts jobId intervalMs lines
      end
  end.

(** [pollJobUntilComplete]. *)
Definition pollJobUntilComplete (jobId : string) (maxAttempts intervalMs : option Z)
  : M (Outcome jsval * list (Level * string)) :=
  untilLoop (Z.to_nat (default 60 maxAttempts)) 0 (default 60 maxAttempts) jobId
            (default 2000 intervalMs) [].

(** Two outcomes are the same, or are the two texts of the timeout. *)
Definition same_outcome (a b : Outcome jsval) : Prop :=
  a = b
  ∨ (a = Thrown "Job timeout - exceeded maximum wait time" ∧ b = Thrown "Job timeout").

End Client.

(** The poller has not seen the end of the job. *)
Definition in_progress (data : JobStatus) : Prop :=
  s_status data = pending ∨ s_status data = processing.

(** The ways a poller that asks at most [n] times can end, with the statuses
    it was answered with: on a completed status, with its result; on a
    failed status, with its error; on the timeout, after [n] statuses; on a
    response that is no 200. *)
Definition poll_end (refusal_text : Z → string) (timeout : string) (n : nat)
    (out : Outcome jsval) (answers : list JobStatus) : Prop :=
  (∃ before data,
     answers = before ++ [data] ∧ Forall in_progress before ∧ (length before < n)%nat
     ∧ s_status data = completed ∧ out = Returned (s_result data))
  ∨ (∃ before data,
       answers = before ++ [data] ∧ Forall in_progress before ∧ (length before < n)%nat
       ∧ s_status data = failed ∧ out = Thrown (error_or_default (s_error data)))
  ∨ (Forall in_progress answers ∧ length answers = n ∧ out = Thrown timeout)
  ∨ (∃ code,
       Forall in_progress answers ∧ (length answers < n)%nat
       ∧ (code = 400 ∨ code = 404 ∨ code = 500) ∧ out = Thrown (refusal_text code)).

(** ** Further definitions for the statements *)

Section MoreAuxiliary.

Context {L : Limiter} {H : Handlers}.

(** Every entry of the pending list is a pending job that has been handed
    out fewer than three times. *)
Definition pending_entries_ok (w : World) : Prop :=
  Forall (λ j, status j = pending ∧ attempts j < 3) (live_pending (clock w) (kv w)).

(** The job a turn of the worker dealt with. *)
Definition turn_job (t : Turn) : option QueueJob :=
  match t with
  | Stopped => None
  | Completed job => Some job
  | Threw job _ => Some job
  end.

(** The limiter admits whatever it is asked. *)
Definition always_admits : Prop :=
  ∀ key now st, success (limit key now st).1 = true.

(** The handler of the job returns whenever it is called on it, and does
    so within the hour the record of the job lives. *)
Definition returns_in_time (j : QueueJob) : Prop :=
  ∀ job' w, type job' = type j → payload job' = payload j →
    (∃ result, outcome (runHandler job' w).1 = inl result)
    ∧ Z.of_N (elapsed (runHandler job' w).1) < 3600 * 1000.

(** What the completion of [j] has left in the store of [w']: the record of
    the job as it was handed out, with the status [completed], and a result
    the handler returned on the job, both with an expiry of an hour from the
    completion, which was not before [since]. *)
Definition completed_in (w' : World) (since : Z) (j : QueueJob) : Prop :=
  ∃ result t wh,
    jobs (kv w') !! id j
    = Some (mkTimed (mkJob (id j) (userId j) (type j) (payload j) completed (createdAt j)
                           (attempts j + 1) (error j)) t)
    ∧ results (kv w') !! id j = Some (mkTimed result t)
    ∧ outcome (runHandler (dequeued j) wh).1 = inl result
    ∧ since + 3600 * 1000 ≤ t.

(** The status and the result of [j] as they are read in [w']. *)
Definition reads_completed (w' : World) (j : QueueJob) : Prop :=
  ∃ stored result,
    (kv_get_job (id j) w').1 = Some stored ∧ status stored = completed
    ∧ attempts stored = attempts j + 1
    ∧ (kv_get_result (id j) w').1 = Some result.

(** The job is of a type the worker has a handler for. *)
Definition known_type (j : QueueJob) : Prop := type j = "lyrics" ∨ type j = "music".

(** The handler of the job throws [msg] at once, whenever it is called. *)
Definition always_throws (j : QueueJob) (msg : string) : Prop :=
  ∀ job' w, type job' = type j → payload job' = payload j →
    outcome (runHandler job' w).1 = inr msg ∧ elapsed (runHandler job' w).1 = 0%N.

(** The turns of a job that is alone in the queue and fails every time, the
    first of them on [j]; [n] is the number of retries after it. *)
Fixpoint throw_turns (n : nat) (msg : string) (j : QueueJob) : list Turn :=
  Threw (dequeued j) msg ::
    match n with
    | O => []
    | S n' => throw_turns n' msg (retried msg (dequeued j))
    end.

(** The job as the last of these turns handed it out. *)
Fixpoint last_attempt (n : nat) (msg : string) (j : QueueJob) : QueueJob :=
  match n with
  | O => dequeued j
  | S n' => last_attempt n' msg (retried msg (dequeued j))
  end.

End MoreAuxiliary.

(** The white space of ASCII: tab, line feed, vertical tab, form feed,
    carriage return and space. *)
Definition ascii_space (a : Ascii.ascii) : bool :=
  let n := Ascii.nat_of_ascii a in
  bool_decide (n = 9 ∨ n = 10 ∨ n = 11 ∨ n = 12 ∨ n = 13 ∨ n = 32)%nat.

(** A character of ASCII that is no white space. *)
Definition ascii_visible (a : Ascii.ascii) : bool :=
  bool_decide (Ascii.nat_of_ascii a < 128)%nat && negb (ascii_space a).


(** A limiter without limit. *)
Definition open_limiter : Limiter := {|
  RLState := unit;
  limit := λ _ now st, (mkLimit true 19 (now + 10000), st)
|}.

(** [RATE_LIMIT_MAX_REQUESTS=2]. *)
Definition two_request_env : Environment := {|
  RATE_LIMIT_MAX_REQUESTS := Some 2;
  RATE_LIMIT_WINDOW_SECONDS := None;
  CRON_SECRET := Some "s3cret";
|}.

(** The reason phrases of HTTP/1.1. *)
Definition http1 : Transport := {|
  statusText := λ code,
    if code =? 400 then "Bad Request"
    else if code =? 404 then "Not Found"
    else if code =? 500 then "Internal Server Error"
    else ""
|}.

(** Handlers that return on a payload that holds what the handler reads of
    it ([moods.length], [requestBody.title]) and throw the [TypeError] of
    the run time on a payload that does not.  The services they call answer;
    the lyrics take two seconds and the music half a second. *)
Definition readable (v : jsval) : bool :=
  match v with
  | None | Some JNull => false
  | Some _ => true
  end.

Definition checking_handlers : Handlers := {|
  ExtState := unit;
  processLyricsJob := λ payload' _ e,
    if readable (prop "moods" payload')
    then (mkRun (inl (JObj [("summary", default JNull (prop "story" payload'));
                            ("lyrics", JArr []); ("language", JStr "en")])) 2000%N, e)
    else (mkRun (inr "Cannot read properties of undefined (reading 'length')") 0%N, e);
  processMusicJob := λ payload' _ e,
    if readable (prop "requestBody" payload')
    then (mkRun (inl (JObj [("taskId", JStr "t1");
                            ("message", JStr "Music generation started")])) 500%N, e)
    else (mkRun (inr "Cannot read properties of undefined (reading 'title')") 0%N, e);
|}.

(** Three submissions with the payloads the enqueue routes build. *)
Definition subSea : Submission :=
  mkSubmission 0 "aaaaaaaaa" (JStr "anonymous") "lyrics"
    (JObj [("story", JStr "A day at the sea"); ("moods", JArr [JStr "happy"])]).
Definition subSong : Submission :=
  mkSubmission 5 "bbbbbbbbb" (JStr "anonymous") "music"
    (JObj [("endpoint", JStr "https://api.example/generate");
           ("requestBody", JObj [("title", JStr "Sea")])]).
Definition subHills : Submission :=
  mkSubmission 7 "ccccccccc" (JStr "anonymous") "lyrics"
    (JObj [("story", JStr "A walk in the hills"); ("moods", JArr [])]).

Definition jobSea : QueueJob :=
  mkJob "job:1000:aaaaaaaaa" (JStr "anonymous") "lyrics" (sub_payload subSea) pending 1000 0 None.
Definition jobSong : QueueJob :=
  mkJob "job:1005:bbbbbbbbb" (JStr "anonymous") "music" (sub_payload subSong) pending 1005 0 None.
Definition jobHills : QueueJob :=
  mkJob "job:1012:ccccccccc" (JStr "anonymous") "lyrics" (sub_payload subHills) pending 1012 0
        None.

(** The three were enqueued; nothing limits the worker. *)
Definition world_open_three : @World open_limiter checking_handlers :=
  (enqueue_seq [subSea; subSong; subHills]
     (@mkWorld open_limiter checking_handlers empty_kv tt tt 1000 [])).2.

(** [A] was enqueued; nothing limits the worker, and the handlers throw. *)
Definition world_open_throwing : @World open_limiter throwing_handlers :=
  (enqueue_seq [subA] (@mkWorld open_limiter throwing_handlers empty_kv tt tt 1000 [])).2.

(** The limiter of [world_throwing] has admitted its one request. *)
Definition world_limited : @World limiter1 throwing_handlers :=
  (processNextJob world_throwing).2.

(** [A] was enqueued, handed out three times and failed three times. *)
Definition world_failed : @World limiter20 instant_handlers :=
  let fail_once (w : @World limiter20 instant_handlers) :=
    (failJob "job:1000:aaaaaaaaa" "Suno API request failed: 500 " None (processNextJob w).2).2 in
  fail_once (fail_once (fail_once (enqueue_seq [subA] world0).2)).

(** While the client waits, the interval passes and the worker runs once. *)
Definition worker_meanwhile : Z → @M limiter20 instant_handlers unit :=
  λ intervalMs w,
    (tt, (@cronGET limiter20 instant_handlers default_env 100 (Some "Bearer s3cret")
            (advance (Z.to_N intervalMs) w).2).2).

(** ** lib/profanity-filter: the fallback *)

(** [String.prototype.toLowerCase], on the UTF-8 encoding; the case mapping
    of Unicode is not implemented here. *)
Class Unicode : Type := {
  toLowerCase : string → string;
}.

(** [\w] of a regular expression without the [u] flag: a letter of ASCII, a
    digit or the underscore.  Every byte of a character outside ASCII is
    none of these, as is each of its UTF-16 code units. *)
Definition word_char (a : Ascii.ascii) : bool :=
  let n := Ascii.nat_of_ascii a in
  bool_decide ((48 ≤ n ≤ 57) ∨ (65 ≤ n ≤ 90) ∨ n = 95 ∨ (97 ≤ n ≤ 122))%nat.

(** [\b] between two neighbours: one of them is a word character and the
    other is not, or is not there. *)
Definition boundary (before after : option Ascii.ascii) : bool :=
  xorb (from_option word_char false before) (from_option word_char false after).

Definition head_byte (s : string) : option Ascii.ascii :=
  match s with
  | EmptyString => None
  | String a _ => Some a
  end.

Fixpoint last_byte (s : string) (otherwise : option Ascii.ascii) : option Ascii.ascii :=
  match s with
  | EmptyString => otherwise
  | String a rest => last_byte rest (Some a)
  end.

Fixpoint strip_prefix (p s : string) : option string :=
  match p, s with
  | EmptyString, _ => Some s
  | String a p', String b s' => if bool_decide (a = b) then strip_prefix p' s' else None
  | String _ _, EmptyString => None
  end.

(** A letter of a pattern under the [i] flag: the encodings of the
    characters it matches, the small letter and the capital. *)
Definition Letter : Type := list string.

Definition ascii_upper (a : Ascii.ascii) : Ascii.ascii :=
  let n := Ascii.nat_of_ascii a in
  if bool_decide (97 ≤ n ≤ 122)%nat then Ascii.ascii_of_nat (n - 32)%nat else a.

(** The letters of a word of ASCII. *)
Fixpoint ascii_letters (word : string) : list Letter :=
  match word with
  | EmptyString => []
  | String a rest => [String a ""; String (ascii_upper a) ""] :: ascii_letters rest
  end.

(** The letter a-breve, U+0103, with its capital, U+0102. *)
Definition a_breve : Letter := ["ă"; "Ă"].

Fixpoint match_letter (l : Letter) (s : string) : option (string * string) :=
  match l with
  | [] => None
  | a :: others =>
      match strip_prefix a s with
      | Some rest => Some (a, rest)
      | None => match_letter others s
      end
  end.

(** The letters of a pattern matched one after the other from the start of
    [s]: the last byte that was matched ([before] when the pattern is
    empty) and what follows the match. *)
Fixpoint match_letters (pat : list Letter) (before : option Ascii.ascii) (s : string)
  : option (option Ascii.ascii * string) :=
  match pat with
  | [] => Some (before, s)
  | l :: pat' =>
      match match_letter l s with
      | Some (a, rest) => match_letters pat' (last_byte a before) rest
      | None => None
      end
  end.

(** [\bword\b] at the start of [s], which [before] precedes. *)
Definition matches_here (pat : list Letter) (before : option Ascii.ascii) (s : string) : bool :=
  boundary before (head_byte s)
  && match match_letters pat before s with
     | Some (last, rest) => boundary last (head_byte rest)
     | None => false
     end.

(** [new RegExp(`\\b${word}\\b`, 'i').test(s)]: a match at some position. *)
Fixpoint regex_test (pat : list Letter) (before : option Ascii.ascii) (s : string) : bool :=
  matches_here pat before s
  || match s with
     | EmptyString => false
     | String a rest => regex_test pat (Some a) rest
     end.

(** [CRITICAL_PROFANITY], each word as the letters of its pattern. *)
Definition CRITICAL_PROFANITY : list (list Letter) :=
  [ ascii_letters "pula"; ascii_letters "pul" ++ [a_breve];
    ascii_letters "pizda"; ascii_letters "pizd" ++ [a_breve];
    ascii_letters "fut"; ascii_letters "muie";
    ascii_letters "cacat"; ascii_letters "c" ++ [a_breve] ++ ascii_letters "cat" ].

Section Fallback.

Context {U : Unicode}.

(** [containsProfanityFallback]. *)
Definition containsProfanityFallback (text : string) : bool :=
  if bool_decide (text = "") then false
  else
    let normalizedText := toLowerCase text in
    existsb (λ pat, regex_test pat None normalizedText) CRITICAL_PROFANITY.

(** [containsProfanitySync]. *)
Definition containsProfanitySync (text : string) : bool := containsProfanityFallback text.

End Fallback.

(** A lower-casing that suffices for text in small letters. *)
Definition already_lower : Unicode := {| toLowerCase := λ s, s |}.

(** An a-breve of [s], small or capital, is directly followed by a word
    character. *)
Fixpoint breve_then_word (s : string) : bool :=
  match s with
  | EmptyString => false
  | String _ rest =>
      match match_letter a_breve s with
      | Some (_, String c _) => word_char c
      | _ => false
      end
      || breve_then_word rest
  end.

(** Every byte of [s] is a word character. *)
Fixpoint word_chars (s : string) : bool :=
  match s with
  | EmptyString => true
  | String a rest => word_char a && word_chars rest
  end.

(** The entries of [CRITICAL_PROFANITY] that do not end in a-breve. *)
Definition ending_in_a_letter : list (list Letter) :=
  [ ascii_letters "pula"; ascii_letters "pizda"; ascii_letters "fut";
    ascii_letters "muie"; ascii_letters "cacat";
    ascii_letters "c" ++ [a_breve] ++ ascii_letters "cat" ].

(** The words of [CRITICAL_PROFANITY] that end in a letter of ASCII. *)
Definition caught_words : list string :=
  ["pula"; "pizda"; "fut"; "muie"; "cacat"; "căcat"].

(** ** route add-diacritics: POST *)

(** What the route sends: the lyrics, a failure with its status code, or
    nothing.  The [catch] block reads [request.json()] a second time; the
    body was consumed by the first reading, the call rejects and with it the
    handler, before the response of the block is built. *)
Inductive Diacritics : Type :=
  | Lyrics (lyrics : string)
  | NoLyrics (code : Z) (error : string)
  | Rejected.

(** What the chat completion comes to: the value of
    [completion.choices[0]?.message?.content?.trim()], or an error thrown by
    the client or by the reading of [choices]. *)
Inductive Completion : Type :=
  | Content (trimmed : option string)
  | Fails.

(** [v === expected] for a string [expected]. *)
Definition is_string (expected : string) (v : jsval) : bool :=
  match v with
  | Some (JStr s) => bool_decide (s = expected)
  | _ => false
  end.

Section DiacriticsRoute.

Variable OPENAI_API_KEY : option string.
Variable complete : string → Completion.

Definition diacriticsPOST (body : json) : Diacritics :=
  if is_null body then Rejected
  else
    let lyrics := prop "lyrics" body in
    let language := prop "language" body in
    match trim_test lyrics with
    | Missing => NoLyrics 400 "Lyrics are required"
    | NotAString => Rejected
    | Present text =>
        if negb (is_string "ro" language) then Lyrics text
        else
          match OPENAI_API_KEY with
          | None | Some EmptyString => NoLyrics 500 "OpenAI API key is not configured"
          | Some _ =>
              match complete text with
              | Fails => Rejected
              | Content None | Content (Some EmptyString) => Lyrics text
              | Content (Some correctedLyrics) => Lyrics correctedLyrics
              end
          end
    end.

End DiacriticsRoute.


(** * Properties *)

Section Properties.

Context {L : Limiter} {H : Handlers} {E : Environment} {R : Runtime}.

Implicit Types (w : World) (j job : QueueJob) (l : list QueueJob).

(** ** Lists and their last element *)

Lemma unsnoc_snoc {A : Type} (l : list A) (x : A) : unsnoc (l ++ [x]) = Some (l, x).
Proof. induction l as [|y l IH]; simpl; [reflexivity | by rewrite IH]. Qed.

Lemma unsnoc_None {A : Type} (l : list A) : unsnoc l = None → l = [].
Proof.
  destruct l as [|x l]; [done|]. simpl. destruct (unsnoc l) as [[i y]|]; discriminate.
Qed.

Lemma unsnoc_Some {A : Type} (l i : list A) (x : A) : unsnoc l = Some (i, x) → l = i ++ [x].
Proof.
  revert i; induction l as [|y l IH]; intros i; simpl; [discriminate|].
  destruct (unsnoc l) as [[i' z]|] eqn:Hu.
  - intros [= <- <-]. simpl. f_equal. by apply IH.
  - intros [= <- <-]. by rewrite (unsnoc_None _ Hu).
Qed.

(** ** What each operation of the queue leaves behind *)

Lemma processNextJob_denied w :
  success (limit "suno-api" (clock w) (rl w)).1 = false →
  ∃ msg, processNextJob w
         = (None, mkWorld (kv w) (limit "suno-api" (clock w) (rl w)).2 (ext w) (clock w)
                          (console w ++ [(Log, msg)])).
Proof.
  intros Hs. unfold processNextJob, mbind, M_bind, ratelimit_limit.
  destruct (limit "suno-api" (clock w) (rl w)) as [r st]. simpl in *.
  rewrite Hs. simpl. eexists. reflexivity.
Qed.

Lemma processNextJob_empty w :
  success (limit "suno-api" (clock w) (rl w)).1 = true →
  live_pending (clock w) (kv w) = [] →
  processNextJob w
  = (None, mkWorld (kv w) (limit "suno-api" (clock w) (rl w)).2 (ext w) (clock w) (console w)).
Proof.
  intros Hs He. unfold processNextJob, mbind, M_bind, ratelimit_limit, kv_rpop.
  destruct (limit "suno-api" (clock w) (rl w)) as [r st]. simpl in *.
  rewrite Hs. simpl. rewrite He. reflexivity.
Qed.

Lemma processNextJob_pop w l j :
  success (limit "suno-api" (clock w) (rl w)).1 = true →
  live_pending (clock w) (kv w) = l ++ [j] →
  ∃ msg, processNextJob w
  = (Some (dequeued j),
     mkWorld (mkKV (<[id j := mkTimed (dequeued j) (clock w + 3600 * 1000)]> (jobs (kv w)))
                   (results (kv w)) (errors (kv w)) l
                   (match l with [] => None | _ => pendingExpireAt (kv w) end))
             (limit "suno-api" (clock w) (rl w)).2 (ext w) (clock w)
             (console w ++ [(Log, msg)])).
Proof.
  intros Hs He. unfold processNextJob, mbind, M_bind, ratelimit_limit, kv_rpop.
  destruct (limit "suno-api" (clock w) (rl w)) as [r st]. simpl in *.
  rewrite Hs. simpl. rewrite He, unsnoc_snoc. simpl. eexists. reflexivity.
Qed.

Lemma completeJob_missing w jobId result :
  live (clock w) (jobs (kv w) !! jobId) = None →
  completeJob jobId result w
  = (tt, mkWorld (kv w) (rl w) (ext w) (clock w)
                 (console w ++ [(Warn, "⚠️ Job " +:+ jobId +:+ " not found")])).
Proof.
  intros Hg. unfold completeJob, mbind, M_bind, kv_get_job. rewrite Hg. reflexivity.
Qed.

Lemma completeJob_found w jobId result job :
  live (clock w) (jobs (kv w) !! jobId) = Some job →
  ∃ msg, completeJob jobId result w
  = (tt, mkWorld (mkKV (<[jobId := mkTimed (with_status completed job) (clock w + 3600 * 1000)]>
                          (jobs (kv w)))
                       (<[jobId := mkTimed result (clock w + 3600 * 1000)]> (results (kv w)))
                       (errors (kv w)) (queue_pending (kv w)) (pendingExpireAt (kv w)))
                 (rl w) (ext w) (clock w) (console w ++ [(Log, msg)])).
Proof.
  intros Hg. unfold completeJob, mbind, M_bind, kv_get_job. rewrite Hg.
  simpl. eexists. reflexivity.
Qed.

Lemma failJob_missing w jobId msg maxRetries :
  live (clock w) (jobs (kv w) !! jobId) = None →
  failJob jobId msg maxRetries w
  = (tt, mkWorld (kv w) (rl w) (ext w) (clock w)
                 (console w ++ [(Warn, "⚠️ Job " +:+ jobId +:+ " not found")])).
Proof.
  intros Hg. unfold failJob, mbind, M_bind, kv_get_job. rewrite Hg. reflexivity.
Qed.

Lemma failJob_retry w jobId msg maxRetries job :
  live (clock w) (jobs (kv w) !! jobId) = Some job →
  attempts job < default 3 maxRetries →
  ∃ line, failJob jobId msg maxRetries w
  = (tt, mkWorld (mkKV (<[jobId := mkTimed (retried msg job) (clock w + 3600 * 1000)]>
                          (jobs (kv w)))
                       (results (kv w)) (errors (kv w))
                       (retried msg job :: live_pending (clock w) (kv w))
                       (match live_pending (clock w) (kv w) with
                        | [] => None
                        | _ => pendingExpireAt (kv w)
                        end))
                 (rl w) (ext w) (clock w) (console w ++ [(Log, line)])).
Proof.
  intros Hg Hlt. unfold failJob, mbind, M_bind, kv_get_job. rewrite Hg.
  simpl. rewrite (proj2 (Z.ltb_lt _ _) Hlt). simpl. eexists. reflexivity.
Qed.

Lemma failJob_exhausted w jobId msg maxRetries job :
  live (clock w) (jobs (kv w) !! jobId) = Some job →
  default 3 maxRetries ≤ attempts job →
  ∃ line, failJob jobId msg maxRetries w
  = (tt, mkWorld (mkKV (<[jobId := mkTimed (exhausted msg job) (clock w + 3600 * 1000)]>
                          (jobs (kv w)))
                       (results (kv w))
                       (<[jobId := mkTimed msg (clock w + 3600 * 1000)]> (errors (kv w)))
                       (queue_pending (kv w)) (pendingExpireAt (kv w)))
                 (rl w) (ext w) (clock w) (console w ++ [(Error, line)])).
Proof.
  intros Hg Hge. unfold failJob, mbind, M_bind, kv_get_job. rewrite Hg.
  simpl. rewrite (proj2 (Z.ltb_ge _ _) Hge). simpl. eexists. reflexivity.
Qed.

(** A value written with a positive lifetime is visible at once. *)
Lemma live_fresh {A : Type} (now : Z) (v : A) (m : gmap string (Timed A)) (k : string) :
  live now (<[k := mkTimed v (now + 3600 * 1000)]> m !! k) = Some v.
Proof.
  rewrite lookup_insert_eq. unfold live. simpl.
  replace (now <? now + 3600 * 1000) with true by (symmetry; apply Z.ltb_lt; lia).
  reflexivity.
Qed.

(** The list a list command leaves is the list the next command sees. *)
Lemma live_pending_mk now (s : KV) J Rs Es l e :
  e = None ∨ (e = pendingExpireAt s ∧ live_pending now s ≠ []) →
  live_pending now (mkKV J Rs Es l e) = l.
Proof.
  intros [-> | [-> Hne]]; unfold live_pending; simpl; [reflexivity|].
  unfold live_pending in Hne. destruct (pendingExpireAt s) as [t|]; [|reflexivity].
  destruct (now <? t); [reflexivity | congruence].
Qed.

Lemma live_pending_after_pop now (s : KV) J Rs Es l j :
  live_pending now s = l ++ [j] →
  live_pending now (mkKV J Rs Es l (match l with [] => None | _ => pendingExpireAt s end)) = l.
Proof.
  intros He. apply (live_pending_mk now s). destruct l as [|x l]; [by left | right].
  split; [reflexivity|]. rewrite He. discriminate.
Qed.

Lemma live_pending_after_push now (s : KV) J Rs Es j :
  live_pending now (mkKV J Rs Es (j :: live_pending now s)
                      (match live_pending now s with [] => None | _ => pendingExpireAt s end))
  = j :: live_pending now s.
Proof.
  apply (live_pending_mk now s). destruct (live_pending now s) as [|x l] eqn:He; [by left | right].
  split; [reflexivity | discriminate].
Qed.

Lemma kv_rpop_snoc w l j :
  live_pending (clock w) (kv w) = l ++ [j] →
  ∃ w', kv_rpop w = (Some j, w') ∧ clock w' = clock w
        ∧ live_pending (clock w') (kv w') = l.
Proof.
  intros He. unfold kv_rpop. rewrite He, unsnoc_snoc. eexists. split; [reflexivity|].
  split; [reflexivity|]. simpl. by eapply live_pending_after_pop.
Qed.

(** Popping as often as the list is long returns it from its last element to
    its first. *)
Lemma pops_all l : ∀ w,
  live_pending (clock w) (kv w) = l → (pops (length l) w).1 = reverse l.
Proof.
  induction l as [|j l IH] using rev_ind; intros w He; [reflexivity|].
  rewrite length_app, Nat.add_1_r, reverse_snoc. simpl.
  unfold mbind, M_bind. destruct (kv_rpop_snoc w l j He) as (w' & -> & Hc & Hl).
  specialize (IH w' Hl). destruct (pops (length l) w') as [later w''].
  simpl in *. by rewrite IH.
Qed.

(** ** The operations of the queue engine *)

(** C2. [processNextJob] returns nothing when the limiter denies admission,
    whatever the pending list holds.  When the limiter admits and the list is
    empty it returns nothing and leaves the limiter in the state the
    admission produced: the token is not given back.  When the limiter
    admits and the list is not empty it removes the entry at the end of the
    list, sets its status to [processing], adds one to its attempts, writes
    the record and returns the job. *)
Theorem processNextJob_admission w :
  let r := (limit "suno-api" (clock w) (rl w)).1 in
  let st := (limit "suno-api" (clock w) (rl w)).2 in
  let out := processNextJob w in
  (success r = false → out.1 = None ∧ kv out.2 = kv w ∧ rl out.2 = st)
  ∧ (success r = true → live_pending (clock w) (kv w) = [] →
     out.1 = None ∧ kv out.2 = kv w ∧ rl out.2 = st)
  ∧ (success r = true → ∀ l j, live_pending (clock w) (kv w) = l ++ [j] →
     out.1 = Some (dequeued j)
     ∧ status (dequeued j) = processing
     ∧ attempts (dequeued j) = attempts j + 1
     ∧ live_pending (clock out.2) (kv out.2) = l
     ∧ (kv_get_job (id j) out.2).1 = Some (dequeued j)
     ∧ rl out.2 = st).
Proof.
  intros r st out. subst r st out. repeat split.
  1-3: destruct (processNextJob_denied w) as [msg ->]; [assumption | reflexivity].
  1-3: rewrite processNextJob_empty by assumption; reflexivity.
  all: destruct (processNextJob_pop w l j) as [msg ->]; try assumption; try reflexivity.
  - simpl. by eapply live_pending_after_pop.
  - unfold kv_get_job. simpl. apply live_fresh.
Qed.

(** C4. When the record exists, [failJob] sets its [error] to the message.
    With fewer attempts than [maxRetries] (3 when left out) it sets the status
    to [pending] and pushes the job at the head of the pending list, so that
    every job pending before is popped before it.  Otherwise it sets the
    status to [failed], writes the record and writes the message under the
    error key. *)
Theorem failJob_retry_or_fail w jobId msg maxRetries job :
  (kv_get_job jobId w).1 = Some job →
  let m := default 3 maxRetries in
  let w' := (failJob jobId msg maxRetries w).2 in
  let old := live_pending (clock w) (kv w) in
  (attempts job < m →
     (kv_get_job jobId w').1 = Some (retried msg job)
     ∧ error (retried msg job) = Some msg
     ∧ status (retried msg job) = pending
     ∧ live_pending (clock w') (kv w') = retried msg job :: old
     ∧ (pops (S (length old)) w').1 = reverse old ++ [retried msg job])
  ∧ (m ≤ attempts job →
     (kv_get_job jobId w').1 = Some (exhausted msg job)
     ∧ error (exhausted msg job) = Some msg
     ∧ status (exhausted msg job) = failed
     ∧ live (clock w') (errors (kv w') !! jobId) = Some msg
     ∧ live_pending (clock w') (kv w') = old).
Proof.
  intros Hg m w' old. subst m w' old. unfold kv_get_job in *. cbn [fst snd] in *. split.
  - intros Hlt. destruct (failJob_retry w jobId msg maxRetries job Hg Hlt) as [line Hrun].
    assert (Hl : live_pending (clock (failJob jobId msg maxRetries w).2)
                   (kv (failJob jobId msg maxRetries w).2)
                 = retried msg job :: live_pending (clock w) (kv w)).
    { rewrite Hrun. simpl. apply live_pending_after_push. }
    repeat split; try reflexivity.
    + rewrite Hrun. simpl. apply live_fresh.
    + exact Hl.
    + change (S (length (live_pending (clock w) (kv w))))
        with (length (retried msg job :: live_pending (clock w) (kv w))).
      rewrite (pops_all _ _ Hl). by rewrite reverse_cons.
  - intros Hge. destruct (failJob_exhausted w jobId msg maxRetries job Hg Hge) as [line Hrun].
    rewrite Hrun. simpl. repeat split; try reflexivity; apply live_fresh.
Qed.

(** C8. When no record is stored for the job, [completeJob] and [failJob]
    change nothing but the console, to which they add one warning: no
    record, result or error is written, the pending list is as it was, and
    the call returns. *)
Theorem missing_job_is_noop w jobId :
  (kv_get_job jobId w).1 = None →
  ∀ result msg maxRetries,
    let warned :=
      mkWorld (kv w) (rl w) (ext w) (clock w)
              (console w ++ [(Warn, "⚠️ Job " +:+ jobId +:+ " not found")]) in
    completeJob jobId result w = (tt, warned)
    ∧ failJob jobId msg maxRetries w = (tt, warned).
Proof.
  intros Hg result msg maxRetries warned. subst warned.
  unfold kv_get_job in Hg. cbn [fst] in Hg. split.
  - by apply completeJob_missing.
  - by apply failJob_missing.
Qed.

(** C9. Neither operation looks at the status the record has.  Whatever the
    status of a stored job, [pending], [completed] and [failed] included,
    [completeJob] leaves its record with the status [completed]; [failJob],
    when the attempts are below [maxRetries], leaves the record with the
    status [pending] and the message as its error, and pushes that job on
    the pending list.  The other fields of the record stay as they were. *)
Theorem transitions_ignore_status w jobId job :
  (kv_get_job jobId w).1 = Some job →
  (∀ result, ∃ stored,
     (kv_get_job jobId (completeJob jobId result w).2).1 = Some stored
     ∧ status stored = completed
     ∧ stored = mkJob (id job) (userId job) (type job) (payload job) completed
                      (createdAt job) (attempts job) (error job))
  ∧ (∀ msg maxRetries, attempts job < default 3 maxRetries →
       let w' := (failJob jobId msg maxRetries w).2 in
       ∃ stored,
         (kv_get_job jobId w').1 = Some stored
         ∧ status stored = pending
         ∧ error stored = Some msg
         ∧ stored = mkJob (id job) (userId job) (type job) (payload job) pending
                          (createdAt job) (attempts job) (Some msg)
         ∧ live_pending (clock w') (kv w') = stored :: live_pending (clock w) (kv w)).
Proof.
  intros Hg. unfold kv_get_job in *. cbn [fst snd] in *. split.
  - intros result. destruct (completeJob_found w jobId result job Hg) as [line ->].
    exists (with_status completed job). cbn [snd kv jobs clock].
    split; [apply live_fresh | by split].
  - intros msg maxRetries Hlt.
    destruct (failJob_retry w jobId msg maxRetries job Hg Hlt) as [line ->].
    exists (retried msg job). cbn [snd kv jobs clock].
    split; [apply live_fresh|]. do 3 (split; [reflexivity|]).
    apply live_pending_after_push.
Qed.


(** C10. [processNextJob] takes the job from the entry it pops and reads no
    record: whatever records the store holds, none or an expired one
    included, it returns the job when the limiter admits and the list is not
    empty, and it writes the record with a lifetime of an hour from now.  No
    operation of the queue sets an expiry on the pending list. *)
Theorem processNextJob_reads_no_record w l j :
  success (limit "suno-api" (clock w) (rl w)).1 = true →
  live_pending (clock w) (kv w) = l ++ [j] →
  (∀ recs,
     let out := processNextJob (set_jobs recs w) in
     out.1 = Some (dequeued j)
     ∧ jobs (kv out.2) !! id j = Some (mkTimed (dequeued j) (clock w + 3600 * 1000))
     ∧ (kv_get_job (id j) out.2).1 = Some (dequeued j))
  ∧ (∀ rnd userId' type' payload', sets_no_expiry (enqueueJob rnd userId' type' payload'))
  ∧ sets_no_expiry processNextJob
  ∧ (∀ jobId result, sets_no_expiry (completeJob jobId result))
  ∧ (∀ jobId msg maxRetries, sets_no_expiry (failJob jobId msg maxRetries)).
Proof.
  intros Hs He. split; [|repeat split].
  - intros recs out. subst out.
    destruct (processNextJob_pop (set_jobs recs w) l j) as [msg ->]; [assumption.. |].
    cbn [fst snd kv jobs]. repeat split.
    + apply lookup_insert_eq.
    + unfold kv_get_job. cbn [fst snd kv jobs clock set_jobs set_kv]. apply live_fresh.
  - intros rnd u t p w0. unfold enqueueJob, mbind, M_bind, mret, M_ret. simpl.
    destruct (live_pending (clock w0) (kv w0)); [by left | by right].
  - intros w0. destruct (success (limit "suno-api" (clock w0) (rl w0)).1) eqn:Hs0.
    + destruct (unsnoc (live_pending (clock w0) (kv w0))) as [[i x]|] eqn:Hu.
      * apply unsnoc_Some in Hu.
        destruct (processNextJob_pop w0 i x Hs0 Hu) as [msg ->]. simpl.
        destruct i; [by left | by right].
      * apply unsnoc_None in Hu. rewrite (processNextJob_empty w0 Hs0 Hu). by right.
    + destruct (processNextJob_denied w0 Hs0) as [msg ->]. by right.
  - intros jobId result w0.
    destruct (live (clock w0) (jobs (kv w0) !! jobId)) as [job|] eqn:Hg.
    + destruct (completeJob_found w0 jobId result job Hg) as [line ->]. by right.
    + rewrite (completeJob_missing w0 jobId result Hg). by right.
  - intros jobId msg maxRetries w0.
    destruct (live (clock w0) (jobs (kv w0) !! jobId)) as [job|] eqn:Hg.
    + destruct (Z.lt_ge_cases (attempts job) (default 3 maxRetries)) as [Hlt|Hge].
      * destruct (failJob_retry w0 jobId msg maxRetries job Hg Hlt) as [line ->]. simpl.
        destruct (live_pending (clock w0) (kv w0)); [by left | by right].
      * destruct (failJob_exhausted w0 jobId msg maxRetries job Hg Hge) as [line ->]. by right.
    + rewrite (failJob_missing w0 jobId msg maxRetries Hg). by right.
Qed.


(** ** The order of the pending list *)

Lemma enqueueJob_run w rnd userId' type' payload' :
  let jobId := "job:" +:+ pretty (clock w) +:+ ":" +:+ rnd in
  let job := mkJob jobId userId' type' payload' pending (clock w) 0 None in
  ∃ line, enqueueJob rnd userId' type' payload' w
  = (jobId,
     mkWorld (mkKV (<[jobId := mkTimed job (clock w + 3600 * 1000)]> (jobs (kv w)))
                   (results (kv w)) (errors (kv w))
                   (job :: live_pending (clock w) (kv w))
                   (match live_pending (clock w) (kv w) with
                    | [] => None
                    | _ => pendingExpireAt (kv w)
                    end))
             (rl w) (ext w) (clock w) (console w ++ [(Log, line)])).
Proof.
  intros jobId job. subst jobId job.
  unfold enqueueJob, mbind, M_bind, mret, M_ret, Date_now, kv_lpush, kv_setex_job,
    console_write, set_kv.
  cbn [fst snd kv clock rl ext console jobs results errors]. eexists. reflexivity.
Qed.





(** ** The position in the queue and the status route *)

Lemma findIndex_range {A : Type} (p : A → bool) (l : list A) :
  findIndex p l = -1 ∨ 0 ≤ findIndex p l < Z.of_nat (length l).
Proof.
  induction l as [|x l IH]; simpl; [by left|].
  destruct (p x); [right; lia|].
  destruct IH as [-> | Hr]; [by left|].
  destruct (Z.ltb_spec (findIndex p l) 0); [lia | right; lia].
Qed.

(** [findIndex] returns the index of the first element that satisfies the
    test. *)
Lemma findIndex_found {A : Type} (p : A → bool) (l : list A) (i : nat) :
  findIndex p l = Z.of_nat i →
  ∃ x, l !! i = Some x ∧ p x = true ∧ ∀ k y, (k < i)%nat → l !! k = Some y → p y = false.
Proof.
  revert i; induction l as [|x l IH]; intros i; simpl; [lia|].
  destruct (p x) eqn:Hp.
  - intros Hi. assert (i = 0%nat) as -> by lia. exists x. repeat split; [done | lia].
  - destruct (Z.ltb_spec (findIndex p l) 0) as [Hn|Hn]; [lia|]. intros Hi.
    destruct i as [|i]; [lia|]. destruct (IH i) as (y & Hy & Hpy & Hmin); [lia|].
    exists y. repeat split; [done.. |]. intros [|k] z Hk; simpl.
    + by intros [= <-].
    + apply Hmin. lia.
Qed.

Lemma findIndex_absent {A : Type} (p : A → bool) (l : list A) :
  findIndex p l = -1 ↔ Forall (λ x, p x = false) l.
Proof.
  induction l as [|x l IH]; simpl; [split; [constructor | done]|].
  destruct (p x) eqn:Hp.
  - split; [lia|]. intros Hf. apply Forall_cons in Hf as [Hx _]. congruence.
  - destruct (findIndex_range p l) as [Hm | Hr].
    + rewrite Hm. simpl. split; [|done]. intros _. constructor; [done | by apply IH].
    + destruct (Z.ltb_spec (findIndex p l) 0); [lia|]. split; [lia|].
      intros Hf. apply Forall_cons in Hf as [_ Hf]. apply IH in Hf. lia.
Qed.

(** [getJobQueuePosition] is one more than the index of the first entry with
    the id in the list [lrange] returns, and nothing when no entry has it. *)
Lemma getJobQueuePosition_run w jobId :
  getJobQueuePosition jobId w
  = (let position := findIndex (λ job, bool_decide (id job = jobId))
                               (live_pending (clock w) (kv w)) in
     if 0 <=? position then Some (position + 1) else None, w).
Proof.
  unfold getJobQueuePosition, mbind, M_bind, kv_llen, kv_lrange, mret, M_ret.
  destruct (live_pending (clock w) (kv w)) as [|x l] eqn:He; [reflexivity|].
  change (Z.of_nat (length (x :: l)) =? 0) with false. cbv beta iota. rewrite He.
  change (Z.of_nat (length (x :: l)) =? 0) with false. reflexivity.
Qed.

Lemma findIndex_last {A : Type} (p : A → bool) (l : list A) (x : A) :
  Forall (λ y, p y = false) l → p x = true →
  findIndex p (l ++ [x]) = Z.of_nat (length l).
Proof.
  intros Hl Hx. induction Hl as [|y l Hy Hl IH]; simpl; [by rewrite Hx|].
  rewrite Hy, IH. destruct (Z.ltb_spec (Z.of_nat (length l)) 0); lia.
Qed.

(** The job [rpop] removes next is the last of the list: when no other entry
    has its id, its position is the length of the list. *)
Lemma queuePosition_of_next_job w l j :
  live_pending (clock w) (kv w) = l ++ [j] →
  Forall (λ y, id y ≠ id j) l →
  (getJobQueuePosition (id j) w).1 = Some (Z.of_nat (length l) + 1).
Proof.
  intros He Hl. rewrite getJobQueuePosition_run, He. cbn [fst]. cbv zeta.
  rewrite findIndex_last.
  - by destruct (Z.leb_spec 0 (Z.of_nat (length l))); [|lia].
  - eapply Forall_impl; [exact Hl|]. intros y Hy. by apply bool_decide_eq_false_2.
  - by apply bool_decide_eq_true_2.
Qed.

Lemma getJobQueuePosition_absent w jobId :
  Forall (λ y, id y ≠ jobId) (live_pending (clock w) (kv w)) →
  (getJobQueuePosition jobId w).1 = None.
Proof.
  intros Hl. rewrite getJobQueuePosition_run. cbn [fst]. cbv zeta.
  replace (findIndex _ _) with (-1); [reflexivity|]. symmetry. apply findIndex_absent.
  eapply Forall_impl; [exact Hl|]. intros y Hy. by apply bool_decide_eq_false_2.
Qed.

Lemma getJobStatus_pending w jobId job q :
  (getJobStatus jobId w).1 = Some (job, Some q) →
  (getJobStatus jobId w).2 = w ∧ status job = pending ∧ 1 ≤ q.
Proof.
  unfold getJobStatus, mbind, M_bind, kv_get_job, mret, M_ret.
  destruct (live (clock w) (jobs (kv w) !! jobId)) as [found|]; [|discriminate].
  destruct (bool_decide_reflect (status found = pending)) as [Hp|Hp]; [|discriminate].
  rewrite getJobQueuePosition_run. cbn [fst snd].
  destruct (findIndex_range (λ job0, bool_decide (id job0 = jobId))
              (live_pending (clock w) (kv w))) as [Hm | Hr].
  - rewrite Hm. discriminate.
  - destruct (Z.leb_spec 0 (findIndex (λ job0, bool_decide (id job0 = jobId))
                              (live_pending (clock w) (kv w)))); [|discriminate].
    intros [= <- <-]. repeat split; [done | lia].
Qed.

Lemma ceil_div_is_ceiling (a b : Z) :
  0 < b → (ceil_div a b - 1) * b < a ≤ ceil_div a b * b.
Proof.
  intros Hb. unfold ceil_div.
  pose proof (Z.div_mod (- a) b ltac:(lia)) as Hd.
  pose proof (Z.mod_pos_bound (- a) b Hb) as Hm. nia.
Qed.

(** The same for a negative divisor, where the order turns round. *)
Lemma ceil_div_is_ceiling_neg (a b : Z) :
  b < 0 → ceil_div a b * b ≤ a < (ceil_div a b - 1) * b.
Proof.
  intros Hb. unfold ceil_div.
  pose proof (Z.div_mod (- a) b ltac:(lia)) as Hd.
  pose proof (Z.mod_neg_bound (- a) b Hb) as Hm. nia.
Qed.

(** What [Math.ceil(q / maxRequests) * 60] comes to for a position [q]:
    the ceiling of the quotient times 60 when [maxRequests] is not zero,
    and [Infinity] when it is. *)
Lemma estimate_value (q m : Z) :
  1 ≤ q →
  (0 < m →
     js_scale (js_ceil_quot q m) 60 = Finite (ceil_div q m * 60)
     ∧ (ceil_div q m - 1) * m < q ≤ ceil_div q m * m)
  ∧ (m < 0 →
     js_scale (js_ceil_quot q m) 60 = Finite (ceil_div q m * 60)
     ∧ ceil_div q m * m ≤ q < (ceil_div q m - 1) * m)
  ∧ (m = 0 → js_scale (js_ceil_quot q m) 60 = PosInfinity).
Proof.
  intros Hq. unfold js_ceil_quot. repeat split.
  - by rewrite (proj2 (Z.eqb_neq m 0)) by lia.
  - by apply ceil_div_is_ceiling.
  - by apply ceil_div_is_ceiling.
  - by rewrite (proj2 (Z.eqb_neq m 0)) by lia.
  - by apply ceil_div_is_ceiling_neg.
  - by apply ceil_div_is_ceiling_neg.
  - intros ->. cbn [Z.eqb]. by rewrite (proj2 (Z.ltb_lt 0 q)) by lia.
Qed.

(** C6, as the code has it.  For a pending job with a queue position the
    response carries [estimatedWaitSeconds = ceil(queuePosition /
    maxRequests) * 60] when the job has not been attempted yet, and a
    message that names the position and the estimate; for a job that waits
    for a retry the response carries the position and the message of the
    retry, and no estimate.  The interval of 60 seconds is a constant of the
    route.  The estimate is the product as JavaScript computes it: the
    ceiling of the quotient times 60 for a divisor of either sign, and
    [Infinity] for [maxRequests = 0]. *)
Theorem pending_estimate w jobId job q :
  jobId ≠ "" →
  (getJobStatus jobId w).1 = Some (job, Some q) →
  let estimate := js_scale (js_ceil_quot q maxRequests) 60 in
  ∃ view,
    (jobGET jobId w).1 = Ok view
    ∧ v_status view = pending
    ∧ v_queuePosition view = Some q
    ∧ v_estimatedWaitSeconds view = (if 0 <? attempts job then None else Some estimate)
    ∧ v_message view
      = Some (if 0 <? attempts job
              then "Retrying... (attempt " +:+ pretty (attempts job + 1) +:+ "/3)"
              else "Your music is in the queue at position " +:+ pretty q
                   +:+ ". Estimated wait: " +:+ show_number estimate +:+ "s")
    ∧ (0 < maxRequests →
       estimate = Finite (ceil_div q maxRequests * 60)
       ∧ (ceil_div q maxRequests - 1) * maxRequests < q ≤ ceil_div q maxRequests * maxRequests)
    ∧ (maxRequests < 0 →
       estimate = Finite (ceil_div q maxRequests * 60)
       ∧ ceil_div q maxRequests * maxRequests ≤ q < (ceil_div q maxRequests - 1) * maxRequests)
    ∧ (maxRequests = 0 → estimate = PosInfinity).
Proof.
  intros Hid Hst estimate. subst estimate.
  destruct (getJobStatus_pending w jobId job q Hst) as (Hw & Hp & Hq).
  unfold jobGET. rewrite (bool_decide_eq_false_2 _ Hid). unfold mbind at 1, M_bind at 1.
  destruct (getJobStatus jobId w) as [found w'] eqn:Hrun. cbn [fst snd] in Hst, Hw.
  subst found w'. unfold completed_result, failed_fields, pending_fields, processing_message.
  rewrite Hp. unfold mbind, M_bind, mret, M_ret. cbn [bool_decide decide_rel].
  assert (Hq0 : (q =? 0) = false) by (apply Z.eqb_neq; lia).
  destruct (estimate_value q maxRequests Hq) as (Hpos & Hneg & Hzero).
  destruct (0 <? attempts job) eqn:Ha.
  - eexists. split; [reflexivity|]. do 4 (split; [reflexivity|]).
    split; [exact Hpos|]. split; [exact Hneg | exact Hzero].
  - rewrite Hq0. cbn [cfg_maxRequests getRateLimitConfig].
    eexists. split; [reflexivity|]. do 4 (split; [reflexivity|]).
    split; [exact Hpos|]. split; [exact Hneg | exact Hzero].
Qed.


(** ** The enqueue routes *)

Lemma trim_test_Present v s : trim_test v = Present s → v = Some (JStr s) ∧ blank s = false.
Proof.
  unfold trim_test. destruct (truthy v); [|discriminate]. simpl.
  destruct v as [[| | |text| |]|]; try discriminate.
  destruct (blank text) eqn:Hb; [discriminate|]. by intros [= <-].
Qed.

Lemma trim_test_falsy v : truthy v = false → trim_test v = Missing.
Proof. unfold trim_test. by intros ->. Qed.

Lemma is_null_false body : body ≠ JNull → is_null body = false.
Proof. by destruct body. Qed.

Lemma trim_test_text text : blank text = false → trim_test (Some (JStr text)) = Present text.
Proof.
  intros Hb. unfold trim_test. destruct text as [|a text]; [discriminate|].
  cbn [truthy negb]. rewrite bool_decide_eq_false_2 by discriminate. cbn [negb].
  by rewrite Hb.
Qed.

Lemma prop_not_null k body v : prop k body = Some v → is_null body = false.
Proof. by destruct body. Qed.

Lemma enqueueJob_accepted w rnd userId' ty payload' text :
  let out := enqueueJob rnd userId' ty payload' w in
  accepted ty payload' (mkEnqueued out.1 text) w out.2.
Proof.
  intros out. subst out.
  destruct (enqueueJob_run w rnd userId' ty payload') as [line ->].
  eexists. cbn [fst snd clock kv enq_jobId]. split; [apply live_pending_after_push|].
  repeat split.
Qed.

(** C7, as the code has it.  Each enqueue route checks that its payload is
    there (a story that is not blank; an endpoint that is not blank and a
    request body) and answers with an error, leaving the store alone,
    when it is not.  When the payload is there the route accepts the
    submission, whatever else the body holds, and enqueues a job of its own
    type.  Neither route reads a type from the submission: the answer and
    the state a route leaves are the same for two bodies that agree on the
    fields the route reads ([story], [moods] and [userId]; [endpoint],
    [requestBody] and [userId]), so a [type] field is ignored, not
    rejected, and every job the routes enqueue is of type [lyrics] or
    [music]. *)
Theorem enqueue_routes_fix_the_type rnd body w :
  (match lyricsPOST rnd body w with
   | (Ok e, w') =>
       ∃ text, prop "story" body = Some (JStr text) ∧ blank text = false
               ∧ accepted "lyrics"
                   (JObj [("story", JStr text); ("moods", js_or (prop "moods" body) (JArr []))])
                   e w w'
   | (Failure code _, w') => w' = w ∧ (code = 400 ∨ code = 500)
   end)
  ∧ (match musicPOST rnd body w with
     | (Ok e, w') =>
         ∃ url request, prop "endpoint" body = Some (JStr url) ∧ blank url = false
               ∧ prop "requestBody" body = Some request ∧ truthy (Some request) = true
               ∧ accepted "music" (JObj [("endpoint", JStr url); ("requestBody", request)])
                   e w w'
     | (Failure code _, w') => w' = w ∧ (code = 400 ∨ code = 500)
     end)
  ∧ (body ≠ JNull → truthy (prop "story" body) = false →
     lyricsPOST rnd body w = (Failure 400 "Story is required", w))
  ∧ (body ≠ JNull → truthy (prop "endpoint" body) = false →
     musicPOST rnd body w = (Failure 400 "Endpoint is required", w))
  ∧ (∀ url, prop "endpoint" body = Some (JStr url) → blank url = false →
     truthy (prop "requestBody" body) = false →
     musicPOST rnd body w = (Failure 400 "Request body is required", w))
  ∧ (∀ text, prop "story" body = Some (JStr text) → blank text = false →
     ∃ e, (lyricsPOST rnd body w).1 = Ok e
          ∧ accepted "lyrics"
              (JObj [("story", JStr text); ("moods", js_or (prop "moods" body) (JArr []))])
              e w (lyricsPOST rnd body w).2)
  ∧ (∀ url request, prop "endpoint" body = Some (JStr url) → blank url = false →
     prop "requestBody" body = Some request → truthy (Some request) = true →
     ∃ e, (musicPOST rnd body w).1 = Ok e
          ∧ accepted "music" (JObj [("endpoint", JStr url); ("requestBody", request)])
              e w (musicPOST rnd body w).2)
  ∧ (∀ body', body ≠ JNull → body' ≠ JNull →
     prop "story" body' = prop "story" body → prop "moods" body' = prop "moods" body →
     prop "userId" body' = prop "userId" body →
     lyricsPOST rnd body' w = lyricsPOST rnd body w)
  ∧ (∀ body', body ≠ JNull → body' ≠ JNull →
     prop "endpoint" body' = prop "endpoint" body →
     prop "requestBody" body' = prop "requestBody" body →
     prop "userId" body' = prop "userId" body →
     musicPOST rnd body' w = musicPOST rnd body w).
Proof.
  split; [|split; [|split; [|split; [|split; [|split; [|split; [|split]]]]]]].
  - unfold lyricsPOST. destruct (is_null body); [by split; [|right]|].
    destruct (trim_test (prop "story" body)) as [|text|] eqn:Ht;
      [by split; [|left] | | by split; [|right]].
    apply trim_test_Present in Ht as [Hs Hb]. unfold mbind, M_bind, mret, M_ret.
    pose proof (enqueueJob_accepted w rnd (js_or (prop "userId" body) (JStr "anonymous"))
                  "lyrics"
                  (JObj [("story", JStr text); ("moods", js_or (prop "moods" body) (JArr []))])
                  "Lyrics generation job enqueued. Check status with /api/job/{jobId}") as Ha.
    cbv zeta in Ha. destruct (enqueueJob _ _ _ _ w) as [jobId w'].
    exists text. by repeat split.
  - unfold musicPOST. destruct (is_null body); [by split; [|right]|].
    destruct (trim_test (prop "endpoint" body)) as [|url|] eqn:Ht;
      [by split; [|left] | | by split; [|right]].
    apply trim_test_Present in Ht as [Hs Hb].
    destruct (prop "requestBody" body) as [request|] eqn:Hr; [|by split; [|left]].
    destruct (truthy (Some request)) eqn:Htr; [|by split; [|left]].
    unfold mbind, M_bind, mret, M_ret. cbn [negb].
    pose proof (enqueueJob_accepted w rnd (js_or (prop "userId" body) (JStr "anonymous"))
                  "music" (JObj [("endpoint", JStr url); ("requestBody", request)])
                  "Music generation job enqueued. Check status with /api/job/{jobId}") as Ha.
    cbv zeta in Ha. destruct (enqueueJob _ _ _ _ w) as [jobId w'].
    exists url, request. by repeat split.
  - intros Hn Hf. unfold lyricsPOST. by rewrite (is_null_false _ Hn), (trim_test_falsy _ Hf).
  - intros Hn Hf. unfold musicPOST. by rewrite (is_null_false _ Hn), (trim_test_falsy _ Hf).
  - intros url He Hb Hf. unfold musicPOST.
    assert (Hn : is_null body = false) by (destruct body; [discriminate | done..]).
    rewrite Hn, He. unfold trim_test.
    assert (Htr : truthy (Some (JStr url)) = true).
    { simpl. destruct url; [discriminate | done]. }
    rewrite Htr, Hb. cbn [negb]. destruct (prop "requestBody" body); [|done].
    by rewrite Hf.
  - intros text Hs Hb. unfold lyricsPOST.
    rewrite (prop_not_null _ _ _ Hs), Hs, (trim_test_text _ Hb).
    unfold mbind, M_bind, mret, M_ret.
    pose proof (enqueueJob_accepted w rnd (js_or (prop "userId" body) (JStr "anonymous"))
                  "lyrics"
                  (JObj [("story", JStr text); ("moods", js_or (prop "moods" body) (JArr []))])
                  "Lyrics generation job enqueued. Check status with /api/job/{jobId}") as Ha.
    cbv zeta in Ha. destruct (enqueueJob _ _ _ _ w) as [jobId w'].
    eexists. split; [reflexivity | exact Ha].
  - intros url request He Hb Hr Htr. unfold musicPOST.
    rewrite (prop_not_null _ _ _ He), He, (trim_test_text _ Hb), Hr, Htr.
    unfold mbind, M_bind, mret, M_ret. cbn [negb].
    pose proof (enqueueJob_accepted w rnd (js_or (prop "userId" body) (JStr "anonymous"))
                  "music" (JObj [("endpoint", JStr url); ("requestBody", request)])
                  "Music generation job enqueued. Check status with /api/job/{jobId}") as Ha.
    cbv zeta in Ha. destruct (enqueueJob _ _ _ _ w) as [jobId w'].
    eexists. split; [reflexivity | exact Ha].
  - intros body' Hn Hn' Hs Hm Hu. unfold lyricsPOST.
    by rewrite (is_null_false _ Hn), (is_null_false _ Hn'), Hs, Hm, Hu.
  - intros body' Hn Hn' He Hr Hu. unfold musicPOST.
    by rewrite (is_null_false _ Hn), (is_null_false _ Hn'), He, Hr, Hu.
Qed.


(** ** The worker *)

Lemma pending_weight_app l l' :
  pending_weight (l ++ l') = (pending_weight l + pending_weight l')%nat.
Proof. induction l as [|x l IH]; simpl; [reflexivity | rewrite IH; lia]. Qed.

(** Later on the pending list is as it was, or gone. *)
Lemma live_pending_later now (dt : N) (s : KV) :
  live_pending (now + Z.of_N dt) s = live_pending now s
  ∨ live_pending (now + Z.of_N dt) s = [].
Proof.
  unfold live_pending. destruct (pendingExpireAt s) as [t|]; [|by left].
  destruct (now + Z.of_N dt <? t) eqn:Hl; [left | by right].
  apply Z.ltb_lt in Hl. replace (now <? t) with true; [reflexivity|].
  symmetry. apply Z.ltb_lt. lia.
Qed.

Lemma runHandler_run job w :
  ∃ run e, runHandler job w
           = (run, mkWorld (kv w) (rl w) e (clock w + Z.of_N (elapsed run)) (console w)).
Proof.
  unfold runHandler.
  destruct (if bool_decide (type job = "lyrics") then _ else _) as [run e].
  by exists run, e.
Qed.

Lemma completeJob_list w jobId result :
  clock (completeJob jobId result w).2 = clock w
  ∧ live_pending (clock w) (kv (completeJob jobId result w).2) = live_pending (clock w) (kv w).
Proof.
  destruct (live (clock w) (jobs (kv w) !! jobId)) as [job|] eqn:Hg.
  - destruct (completeJob_found w jobId result job Hg) as [line ->]. by split.
  - rewrite (completeJob_missing w jobId result Hg). by split.
Qed.

Lemma failJob_list w jobId msg maxRetries :
  clock (failJob jobId msg maxRetries w).2 = clock w
  ∧ (live_pending (clock w) (kv (failJob jobId msg maxRetries w).2)
     = live_pending (clock w) (kv w)
     ∨ ∃ job, live (clock w) (jobs (kv w) !! jobId) = Some job
              ∧ attempts job < default 3 maxRetries
              ∧ live_pending (clock w) (kv (failJob jobId msg maxRetries w).2)
                = retried msg job :: live_pending (clock w) (kv w)).
Proof.
  destruct (live (clock w) (jobs (kv w) !! jobId)) as [job|] eqn:Hg.
  - destruct (Z.lt_ge_cases (attempts job) (default 3 maxRetries)) as [Hlt|Hge].
    + destruct (failJob_retry w jobId msg maxRetries job Hg Hlt) as [line ->].
      split; [reflexivity | right]. exists job. repeat split; [assumption|].
      cbn [snd kv]. apply live_pending_after_push.
    + destruct (failJob_exhausted w jobId msg maxRetries job Hg Hge) as [line ->].
      split; [reflexivity | by left].
  - rewrite (failJob_missing w jobId msg maxRetries Hg). split; [reflexivity | by left].
Qed.

Lemma drainLoop_exit fuel maxJobs processedCount turns w :
  maxJobs ≤ processedCount →
  drainLoop fuel maxJobs processedCount turns w = (Some (processedCount, turns), w).
Proof.
  intros Hge. destruct fuel; simpl; by rewrite (proj2 (Z.ltb_ge _ _) Hge).
Qed.

Lemma drainLoop_step fuel maxJobs processedCount turns w :
  processedCount < maxJobs →
  drainLoop (S fuel) maxJobs processedCount turns w
  = match processNextJob w with
    | (None, w1) => (Some (processedCount, turns ++ [Stopped]), w1)
    | (Some job, w1) =>
        let '(run, w2) := runHandler job w1 in
        match outcome run with
        | inl result =>
            drainLoop fuel maxJobs (processedCount + 1) (turns ++ [Completed job])
                      (completeJob (id job) result w2).2
        | inr msg =>
            drainLoop fuel maxJobs processedCount (turns ++ [Threw job msg])
                      (failJob (id job) msg None w2).2
        end
    end.
Proof.
  intros Hlt. simpl. rewrite (proj2 (Z.ltb_lt _ _) Hlt). unfold mbind, M_bind.
  destruct (processNextJob w) as [[job|] w1]; [|reflexivity].
  destruct (runHandler job w1) as [run w2]. destruct (outcome run) as [result|msg].
  - by destruct (completeJob (id job) result w2) as [[] w3].
  - by destruct (failJob (id job) msg None w2) as [[] w3].
Qed.

(** What one turn of the loop that takes a job leaves of the pending list:
    strictly less weight, since a retry costs the entry one of its three
    attempts. *)
Lemma turn_loses_weight w l j :
  success (limit "suno-api" (clock w) (rl w)).1 = true →
  live_pending (clock w) (kv w) = l ++ [j] →
  ∃ w1, processNextJob w = (Some (dequeued j), w1)
    ∧ ∀ run w2, runHandler (dequeued j) w1 = (run, w2) →
        clock w ≤ clock w2
        ∧ (∀ result,
             let w3 := (completeJob (id (dequeued j)) result w2).2 in
             clock w3 = clock w2
             ∧ (pending_weight (live_pending (clock w3) (kv w3))
                < pending_weight (l ++ [j]))%nat)
        ∧ (∀ msg,
             let w3 := (failJob (id (dequeued j)) msg None w2).2 in
             clock w3 = clock w2
             ∧ (pending_weight (live_pending (clock w3) (kv w3))
                < pending_weight (l ++ [j]))%nat).
Proof.
  intros Hs He. destruct (processNextJob_pop w l j Hs He) as [line Hrun].
  eexists. split; [exact Hrun|]. intros run w2 Hh.
  destruct (runHandler_run (dequeued j)
              (mkWorld (mkKV (<[id j := mkTimed (dequeued j) (clock w + 3600 * 1000)]>
                                (jobs (kv w)))
                             (results (kv w)) (errors (kv w)) l
                             (match l with [] => None | _ => pendingExpireAt (kv w) end))
                       (limit "suno-api" (clock w) (rl w)).2 (ext w) (clock w)
                       (console w ++ [(Log, line)]))) as (run' & e & Hh').
  rewrite Hh in Hh'. injection Hh' as -> ->. cbn [kv clock].
  set (s1 := mkKV _ _ _ l _).
  assert (Hl1 : live_pending (clock w) s1 = l) by (by eapply live_pending_after_pop).
  assert (Hw2 : (pending_weight (live_pending (clock w + Z.of_N (elapsed run')) s1)
                 ≤ pending_weight l)%nat).
  { destruct (live_pending_later (clock w) (elapsed run') s1) as [-> | ->];
      [by rewrite Hl1 | simpl; lia]. }
  assert (Hj : (1 ≤ entry_weight j)%nat) by (unfold entry_weight; lia).
  rewrite pending_weight_app. change (pending_weight [j]) with (entry_weight j + 0)%nat.
  split; [lia|]. split.
  - intros result.
    match goal with |- context [completeJob ?i result ?w0] =>
      destruct (completeJob_list w0 i result) as [Hc Hl] end.
    cbn [clock kv] in Hc, Hl. rewrite Hc, Hl. split; [reflexivity | lia].
  - intros msg.
    match goal with |- context [failJob ?i msg None ?w0] =>
      destruct (failJob_list w0 i msg None) as [Hc [Hl | (job & Hg & Hlt & Hl)]] end;
      cbn [clock kv] in *; rewrite Hc, Hl; (split; [reflexivity|]); [lia|].
    assert (job = dequeued j) as ->.
    { subst s1. cbn [jobs] in Hg. change (id (dequeued j)) with (id j) in Hg.
      rewrite lookup_insert_eq in Hg. unfold live in Hg. cbn [expireAt tval] in Hg.
      destruct (_ <? _); congruence. }
    simpl pending_weight. unfold entry_weight at 1. cbn [attempts retried dequeued
      with_status with_error with_attempts].
    cbn [attempts dequeued with_attempts default] in Hlt. unfold entry_weight. lia.
Qed.


Lemma count_turns_cons p t turns :
  count_turns p (t :: turns) = (if p t then 1 else 0) + count_turns p turns.
Proof.
  unfold count_turns. rewrite filter_cons.
  destruct (p t); [rewrite decide_True by done | rewrite decide_False by done]; simpl; lia.
Qed.

Lemma count_turns_nonneg p turns : 0 ≤ count_turns p turns.
Proof. unfold count_turns. lia. Qed.

Lemma stopped_only_last_cons t turns :
  is_stopped t = false → stopped_only_last turns = true →
  stopped_only_last (t :: turns) = true.
Proof. intros Ht Hs. destruct turns; [reflexivity|]. simpl in *. by rewrite Ht. Qed.

Lemma ends_stopped_cons t turns :
  ends_stopped turns = true → ends_stopped (t :: turns) = true.
Proof.
  unfold ends_stopped. destruct turns as [|t' turns]; [discriminate|].
  by rewrite last_cons_cons.
Qed.

(** A [Stopped] turn is the last one, so there is at most one. *)
Lemma stopped_at_most_once turns :
  stopped_only_last turns = true → count_turns is_stopped turns ≤ 1.
Proof.
  induction turns as [|t turns IH]; [unfold count_turns; simpl; lia|].
  destruct turns as [|t' turns].
  - intros _. rewrite count_turns_cons. unfold count_turns. simpl. destruct (is_stopped t); lia.
  - intros Hs. change (negb (is_stopped t) && stopped_only_last (t' :: turns) = true) in Hs.
    apply andb_true_iff in Hs as [Ht Hs]. rewrite count_turns_cons.
    destruct (is_stopped t); [discriminate|]. specialize (IH Hs). lia.
Qed.

(** Every turn is one call of [processNextJob], and is of one of the three
    kinds. *)
Lemma turns_by_kind turns :
  Z.of_nat (length turns)
  = count_turns is_completed turns + count_turns is_threw turns + count_turns is_stopped turns.
Proof.
  induction turns as [|t turns IH]; [reflexivity|].
  rewrite !count_turns_cons. cbn [length]. rewrite Nat2Z.inj_succ, IH. destruct t; simpl; lia.
Qed.

Lemma processNextJob_clock w : clock (processNextJob w).2 = clock w.
Proof.
  destruct (success (limit "suno-api" (clock w) (rl w)).1) eqn:Hs.
  - destruct (unsnoc (live_pending (clock w) (kv w))) as [[l j]|] eqn:Hu.
    + apply unsnoc_Some in Hu. by destruct (processNextJob_pop w l j Hs Hu) as [line ->].
    + apply unsnoc_None in Hu. by rewrite (processNextJob_empty w Hs Hu).
  - by destruct (processNextJob_denied w Hs) as [line ->].
Qed.

(** With fuel above the weight of the pending list the loop ends.  The turns
    it adds hold [Stopped] at the end only; it ends on a [Stopped] turn or
    with [processedCount] at [maxJobs]; [processedCount] grows by the number
    of [Completed] turns. *)
Lemma drainLoop_ok fuel : ∀ maxJobs processedCount turns w,
  (pending_weight (live_pending (clock w) (kv w)) < fuel)%nat →
  ∃ new w',
    drainLoop fuel maxJobs processedCount turns w
    = (Some (processedCount + count_turns is_completed new, turns ++ new), w')
    ∧ stopped_only_last new = true
    ∧ (ends_stopped new = true ∨ maxJobs ≤ processedCount + count_turns is_completed new)
    ∧ processedCount + count_turns is_completed new ≤ Z.max processedCount maxJobs
    ∧ clock w ≤ clock w'.
Proof.
  induction fuel as [|fuel IH]; intros maxJobs pc turns w Hfuel; [lia|].
  destruct (Z.lt_ge_cases pc maxJobs) as [Hlt|Hge].
  2:{ exists [], w. rewrite (drainLoop_exit _ _ _ _ _ Hge), app_nil_r.
      change (count_turns is_completed []) with 0. rewrite Z.add_0_r.
      repeat split; [by right | lia | lia]. }
  rewrite (drainLoop_step _ _ _ _ _ Hlt).
  assert (Hstop : ∀ w1, ∃ new w',
            (Some (pc, turns ++ [Stopped]), w1)
            = (Some (pc + count_turns is_completed new, turns ++ new), w')
            ∧ stopped_only_last new = true
            ∧ (ends_stopped new = true ∨ maxJobs ≤ pc + count_turns is_completed new)
            ∧ pc + count_turns is_completed new ≤ Z.max pc maxJobs
            ∧ clock w1 ≤ clock w').
  { intros w1. exists [Stopped], w1. change (count_turns is_completed [Stopped]) with 0.
    rewrite Z.add_0_r. repeat split; [by left | lia | lia]. }
  pose proof (processNextJob_clock w) as Hclock.
  destruct (success (limit "suno-api" (clock w) (rl w)).1) eqn:Hs.
  2:{ destruct (processNextJob_denied w Hs) as [line Hrun]. rewrite Hrun in *.
      destruct (Hstop (processNextJob w).2) as (new & w' & Heq & Hrest).
      rewrite Hrun in Heq, Hrest. cbn [snd] in *. exists new, w'. split; [exact Heq|].
      cbn [clock] in Hrest. exact Hrest. }
  destruct (unsnoc (live_pending (clock w) (kv w))) as [[l j]|] eqn:Hu.
  2:{ apply unsnoc_None in Hu. rewrite (processNextJob_empty w Hs Hu) in *.
      destruct (Hstop (mkWorld (kv w) (limit "suno-api" (clock w) (rl w)).2 (ext w) (clock w)
                               (console w))) as (new & w' & Heq & Hrest).
      exists new, w'. split; [exact Heq|]. cbn [clock] in Hrest. exact Hrest. }
  apply unsnoc_Some in Hu.
  destruct (turn_loses_weight w l j Hs Hu) as (w1 & Hrun & Hturn). rewrite Hrun.
  destruct (runHandler (dequeued j) w1) as [run w2] eqn:Hh.
  destruct (Hturn run w2 eq_refl) as (Hc2 & Hdone & Hthrew).
  rewrite Hu in Hfuel.
  destruct (outcome run) as [result|msg].
  - destruct (Hdone result) as [Hc3 Hw3].
    destruct (IH maxJobs (pc + 1) (turns ++ [Completed (dequeued j)])
                 (completeJob (id (dequeued j)) result w2).2 ltac:(lia))
      as (new & w' & Heq & Hso & Hend & Hle & Hc).
    exists (Completed (dequeued j) :: new), w'. rewrite count_turns_cons. cbn [is_completed].
    rewrite Heq, <- app_assoc. repeat split.
    + do 3 f_equal. lia.
    + by apply stopped_only_last_cons.
    + destruct Hend as [Hend | Hend]; [left; by apply ends_stopped_cons | right; lia].
    + lia.
    + lia.
  - destruct (Hthrew msg) as [Hc3 Hw3].
    destruct (IH maxJobs pc (turns ++ [Threw (dequeued j) msg])
                 (failJob (id (dequeued j)) msg None w2).2 ltac:(lia))
      as (new & w' & Heq & Hso & Hend & Hle & Hc).
    exists (Threw (dequeued j) msg :: new), w'. rewrite count_turns_cons. cbn [is_completed].
    rewrite Heq, <- app_assoc. repeat split.
    + by apply stopped_only_last_cons.
    + destruct Hend as [Hend | Hend]; [left; by apply ends_stopped_cons | right; lia].
    + lia.
    + lia.
Qed.

Lemma getQueueStats_run w :
  ∃ r st, getQueueStats w = (r, mkWorld (kv w) st (ext w) (clock w) (console w)).
Proof.
  unfold getQueueStats, getQueueSize, mbind, M_bind, mret, M_ret, kv_llen, ratelimit_limit.
  destruct (limit "suno-api-stats" (clock w) (rl w)) as [r st]. by eexists _, _.
Qed.

(** C5, as the code has it.  A worker run ends.  Without the right bearer
    token it answers 401 and calls nothing.  Otherwise it calls
    [processNextJob] until a call returns nothing or [maxRequests] jobs have
    completed in this run: a call that returns nothing is the last one, and
    the loop takes no turn after it.  The summary reports as [processed] the
    number of jobs whose handler returned, which is at most [maxRequests];
    a job whose handler threw is not counted, so the number of calls is the
    jobs completed, the jobs that threw and at most one call that returned
    nothing.  The duration is the time between the start and the end of the
    run. *)
Theorem worker_run w authHeader fuel :
  (drain_fuel w ≤ fuel)%nat →
  ∃ reply turns w',
    cronGET fuel authHeader w = (Some (reply, turns), w')
    ∧ if bool_decide (authHeader = Some ("Bearer " +:+ default "undefined" CRON_SECRET))
      then reply = Ok (mkSummary (count_turns is_completed turns) (clock w' - clock w))
           ∧ stopped_only_last turns = true
           ∧ (ends_stopped turns = true ∨ maxRequests ≤ count_turns is_completed turns)
           ∧ count_turns is_completed turns ≤ Z.max 0 maxRequests
           ∧ Z.of_nat (length turns)
             = count_turns is_completed turns + count_turns is_threw turns
               + count_turns is_stopped turns
           ∧ count_turns is_stopped turns ≤ 1
           ∧ 0 ≤ clock w' - clock w
      else reply = Failure 401 "Unauthorized" ∧ turns = [] ∧ w' = w.
Proof.
  intros Hfuel. unfold cronGET.
  destruct (bool_decide (authHeader = Some ("Bearer " +:+ default "undefined" CRON_SECRET)));
    cbn [negb]; [|by eexists _, _, _].
  unfold mbind at 1, M_bind at 1, Date_now at 1. unfold mbind at 1, M_bind at 1.
  destruct (getQueueStats_run w) as (r & st & ->). unfold mbind at 1, M_bind at 1.
  destruct (drainLoop_ok fuel (cfg_maxRequests getRateLimitConfig) 0 []
              (mkWorld (kv w) st (ext w) (clock w) (console w)) Hfuel)
    as (new & w' & -> & Hso & Hend & Hle & Hc).
  cbn [app clock] in *. rewrite Z.add_0_l in *.
  exists (Ok (mkSummary (count_turns is_completed new) (clock w' - clock w))), new, w'.
  split; [reflexivity|]. repeat split; try assumption.
  - apply turns_by_kind.
  - by apply stopped_at_most_once.
  - lia.
Qed.

End Properties.

(** * Further properties of the queue *)

Section QueueProperties.

Context {L : Limiter} {H : Handlers} {E : Environment} {R : Runtime}.

Implicit Types (w : World) (j job : QueueJob) (l : list QueueJob).

(** ** Reading *)

Lemma getJobStatus_world w jobId : (getJobStatus jobId w).2 = w.
Proof.
  unfold getJobStatus, mbind, M_bind, kv_get_job, mret, M_ret.
  destruct (live (clock w) (jobs (kv w) !! jobId)) as [job|]; [|reflexivity].
  destruct (bool_decide (status job = pending)); [|reflexivity].
  by rewrite getJobQueuePosition_run.
Qed.

Lemma getJobResult_world w jobId : (getJobResult jobId w).2 = w.
Proof.
  unfold getJobResult, mbind, M_bind, kv_get_result, mret, M_ret.
  destruct (negb (truthy _)); [reflexivity|].
  by destruct (live (clock w) (results (kv w) !! jobId)) as [[]|].
Qed.

(** The queries change nothing: [getJobStatus], [getJobQueuePosition],
    [getJobResult] and [getQueueSize] leave the world as it is, and
    [getQueueStats] changes the limiter only, which it asks once under the key
    of the statistics, apart from the key the worker is limited by. *)
Theorem queries_are_read_only w jobId :
  (getJobStatus jobId w).2 = w
  ∧ (getJobQueuePosition jobId w).2 = w
  ∧ (getJobResult jobId w).2 = w
  ∧ getQueueSize w = (Z.of_nat (length (live_pending (clock w) (kv w))), w)
  ∧ getQueueStats w
    = ((Z.of_nat (length (live_pending (clock w) (kv w))),
        (remaining (limit "suno-api-stats" (clock w) (rl w)).1,
         reset (limit "suno-api-stats" (clock w) (rl w)).1)),
       mkWorld (kv w) (limit "suno-api-stats" (clock w) (rl w)).2 (ext w) (clock w)
               (console w)).
Proof.
  split; [apply getJobStatus_world|]. split; [by rewrite getJobQueuePosition_run|].
  split; [apply getJobResult_world|]. split; [reflexivity|].
  unfold getQueueStats, getQueueSize, mbind, M_bind, mret, M_ret, kv_llen, ratelimit_limit.
  by destruct (limit "suno-api-stats" (clock w) (rl w)) as [r st].
Qed.

(** ** Round trips *)

Lemma getJobStatus_after_enqueue w rnd userId' type' payload' :
  let out := enqueueJob rnd userId' type' payload' w in
  getJobStatus out.1 out.2
  = (Some (mkJob out.1 userId' type' payload' pending (clock w) 0 None, Some 1), out.2).
Proof.
  intros out. subst out.
  destruct (enqueueJob_run w rnd userId' type' payload') as [line ->]. cbn [fst snd].
  set (jobId := "job:" +:+ pretty (clock w) +:+ ":" +:+ rnd).
  set (job := mkJob jobId userId' type' payload' pending (clock w) 0 None).
  match goal with |- context [getJobStatus jobId ?w0] => set (w1 := w0) end.
  assert (Hl : live_pending (clock w1) (kv w1) = job :: live_pending (clock w) (kv w))
    by apply live_pending_after_push.
  unfold getJobStatus, mbind, M_bind, kv_get_job, mret, M_ret.
  replace (live (clock w1) (jobs (kv w1) !! jobId)) with (Some job) by (symmetry; apply live_fresh).
  cbn [status job]. rewrite bool_decide_eq_true_2 by reflexivity.
  rewrite getJobQueuePosition_run, Hl. cbn [fst findIndex id job].
  by rewrite bool_decide_eq_true_2.
Qed.

(** Right after [enqueueJob] returns an id, [getJobStatus] of that id is the
    job as it was built: pending, never attempted, created now.  Its queue
    position is 1 however many jobs wait, since the newest entry is at index
    0 of the list. *)
Theorem status_after_enqueue w rnd userId' type' payload' :
  let out := enqueueJob rnd userId' type' payload' w in
  out.1 = "job:" +:+ pretty (clock w) +:+ ":" +:+ rnd
  ∧ (getJobStatus out.1 out.2).1
    = Some (mkJob out.1 userId' type' payload' pending (clock w) 0 None, Some 1)
  ∧ length (live_pending (clock out.2) (kv out.2))
    = S (length (live_pending (clock w) (kv w))).
Proof.
  intros out. split; [|split].
  - subst out. by destruct (enqueueJob_run w rnd userId' type' payload') as [line ->].
  - subst out. by rewrite getJobStatus_after_enqueue.
  - subst out. destruct (enqueueJob_run w rnd userId' type' payload') as [line ->].
    cbn [snd clock kv]. by rewrite live_pending_after_push.
Qed.

(** After [completeJob] on a stored job, [getJobStatus] reports the job as
    completed, without queue position, and [getJobResult] returns the result
    that was passed.  A result that is falsy in JavaScript ([null], [false],
    [0], the empty string) reads back as [null]; a result that is a string
    goes through [JSON.parse] once more. *)
Theorem result_after_complete w jobId job result :
  (kv_get_job jobId w).1 = Some job →
  let w' := (completeJob jobId result w).2 in
  (getJobStatus jobId w').1 = Some (with_status completed job, None)
  ∧ (truthy (Some result) = false → (getJobResult jobId w').1 = inl JNull)
  ∧ (truthy (Some result) = true →
     (getJobResult jobId w').1
     = match result with JStr text => JSON_parse text | v => inl v end).
Proof.
  intros Hg w'. subst w'. unfold kv_get_job in Hg. cbn [fst] in Hg.
  destruct (completeJob_found w jobId result job Hg) as [line ->]. cbn [snd].
  split; [|split].
  - unfold getJobStatus, mbind, M_bind, kv_get_job, mret, M_ret. cbn [kv jobs clock].
    rewrite live_fresh. reflexivity.
  - intros Hf. unfold getJobResult, mbind, M_bind, kv_get_result, mret, M_ret.
    cbn [kv results clock]. rewrite live_fresh, Hf. reflexivity.
  - intros Ht. unfold getJobResult, mbind, M_bind, kv_get_result, mret, M_ret.
    cbn [kv results clock]. rewrite live_fresh, Ht. cbn [negb]. by destruct result.
Qed.

(** Completing a job a second time with the same result leaves the store as
    the first call left it. *)
Theorem completeJob_twice w jobId result :
  kv (completeJob jobId result (completeJob jobId result w).2).2
  = kv (completeJob jobId result w).2.
Proof.
  destruct (live (clock w) (jobs (kv w) !! jobId)) as [job|] eqn:Hg.
  - destruct (completeJob_found w jobId result job Hg) as [line ->]. cbn [snd].
    match goal with |- context [completeJob jobId result ?w0] => set (w1 := w0) end.
    assert (Hg1 : live (clock w1) (jobs (kv w1) !! jobId) = Some (with_status completed job))
      by apply live_fresh.
    destruct (completeJob_found w1 jobId result _ Hg1) as [line1 ->].
    subst w1. cbn [snd kv jobs results errors queue_pending pendingExpireAt clock].
    by rewrite !insert_insert_eq.
  - rewrite (completeJob_missing w jobId result Hg). cbn [snd].
    match goal with |- context [completeJob jobId result ?w0] => set (w1 := w0) end.
    by rewrite (completeJob_missing w1 jobId result Hg).
Qed.

(** ** One failed attempt *)

(** A job is handed out and its handler fails, with no time in between.  The
    attempt that was just counted decides: after the first and the second
    attempt the job is stored as pending with the message and pushed at the
    head of the list; after the third it is stored as failed, the message is
    written under the error key, and the job is not in the list.  Either
    way the record is the job with one more attempt, the message as its
    error and the new status. *)
Theorem failed_attempt w l j msg :
  success (limit "suno-api" (clock w) (rl w)).1 = true →
  live_pending (clock w) (kv w) = l ++ [j] →
  let w1 := (processNextJob w).2 in
  let w2 := (failJob (id j) msg None w1).2 in
  (attempts j < 2 →
     live_pending (clock w2) (kv w2) = retried msg (dequeued j) :: l
     ∧ (kv_get_job (id j) w2).1 = Some (retried msg (dequeued j))
     ∧ retried msg (dequeued j)
       = mkJob (id j) (userId j) (type j) (payload j) pending (createdAt j)
               (attempts j + 1) (Some msg))
  ∧ (2 ≤ attempts j →
     live_pending (clock w2) (kv w2) = l
     ∧ (kv_get_job (id j) w2).1 = Some (exhausted msg (dequeued j))
     ∧ live (clock w2) (errors (kv w2) !! id j) = Some msg
     ∧ exhausted msg (dequeued j)
       = mkJob (id j) (userId j) (type j) (payload j) failed (createdAt j)
               (attempts j + 1) (Some msg)).
Proof.
  intros Hs He w1 w2. subst w1 w2.
  destruct (processNextJob_pop w l j Hs He) as [line ->]. cbn [snd].
  match goal with |- context [failJob (id j) msg None ?w0] => set (w1 := w0) end.
  assert (Hg : live (clock w1) (jobs (kv w1) !! id j) = Some (dequeued j)) by apply live_fresh.
  assert (Hl1 : live_pending (clock w1) (kv w1) = l).
  { subst w1. cbn [clock kv]. by eapply live_pending_after_pop. }
  split.
  - intros Ha.
    destruct (failJob_retry w1 (id j) msg None (dequeued j) Hg) as [line1 ->];
      [cbn; lia|]. cbn [snd clock kv]. split.
    + rewrite live_pending_after_push. by rewrite Hl1.
    + split; [|reflexivity]. unfold kv_get_job. cbn [fst clock kv jobs]. apply live_fresh.
  - intros Ha.
    destruct (failJob_exhausted w1 (id j) msg None (dequeued j) Hg) as [line1 ->];
      [cbn; lia|]. cbn [snd clock kv]. split; [exact Hl1|]. split; [|split; [|reflexivity]].
    + unfold kv_get_job. cbn [fst clock kv jobs]. apply live_fresh.
    + cbn [errors]. apply live_fresh.
Qed.

(** ** The lifetime of a record *)

(** A job is enqueued and time passes.  Before an hour is over the status of
    the job can be read; from then on the record is gone and the status route
    answers 404.  The entry in the pending list is still there (the list of
    a settled store does not expire), so the worker will still be handed the
    job. *)
Theorem record_outlived_by_entry w rnd userId' type' payload' (dt : N) :
  settled w →
  let out := enqueueJob rnd userId' type' payload' w in
  let later := (advance dt out.2).2 in
  let job := mkJob out.1 userId' type' payload' pending (clock w) 0 None in
  live_pending (clock later) (kv later) = job :: live_pending (clock w) (kv w)
  ∧ (Z.of_N dt < 3600 * 1000 → (getJobStatus out.1 later).1 = Some (job, Some 1))
  ∧ (3600 * 1000 ≤ Z.of_N dt →
     (getJobStatus out.1 later).1 = None
     ∧ (jobGET out.1 later).1 = Failure 404 "Job not found").
Proof.
  intros Hw out later job. subst out later job.
  destruct (enqueueJob_run w rnd userId' type' payload') as [line ->]. cbn [fst snd].
  set (jobId := "job:" +:+ pretty (clock w) +:+ ":" +:+ rnd).
  set (job := mkJob jobId userId' type' payload' pending (clock w) 0 None).
  unfold advance. cbn [snd kv clock].
  match goal with |- context [getJobStatus jobId ?w0] => set (w2 := w0) end.
  assert (Hl : live_pending (clock w2) (kv w2) = job :: live_pending (clock w) (kv w)).
  { subst w2. cbn [clock kv]. unfold live_pending at 1. cbn [pendingExpireAt queue_pending].
    destruct Hw as [Hn | He]; [by rewrite Hn; destruct (live_pending _ _) | by rewrite He]. }
  assert (Hrec : jobs (kv w2) !! jobId = Some (mkTimed job (clock w + 3600 * 1000)))
    by apply lookup_insert_eq.
  split; [exact Hl|]. split.
  - intros Hlt. unfold getJobStatus, mbind, M_bind, kv_get_job, mret, M_ret.
    rewrite Hrec. unfold live. cbn [expireAt tval clock w2].
    rewrite (proj2 (Z.ltb_lt _ _)) by lia. cbn [status job].
    rewrite bool_decide_eq_true_2 by reflexivity.
    rewrite getJobQueuePosition_run, Hl. cbn [fst findIndex id job].
    by rewrite bool_decide_eq_true_2.
  - intros Hge.
    assert (Hnone : getJobStatus jobId w2 = (None, w2)).
    { unfold getJobStatus, mbind, M_bind, kv_get_job, mret, M_ret.
      rewrite Hrec. unfold live. cbn [expireAt tval clock w2].
      by rewrite (proj2 (Z.ltb_ge _ _)) by lia. }
    split; [by rewrite Hnone|]. unfold jobGET.
    rewrite bool_decide_eq_false_2 by (subst jobId; discriminate).
    unfold mbind, M_bind. by rewrite Hnone.
Qed.

(** ** What the pending list holds *)

Lemma pending_entries_ok_later w (dt : N) e :
  pending_entries_ok w →
  pending_entries_ok (mkWorld (kv w) (rl w) e (clock w + Z.of_N dt) (console w)).
Proof.
  unfold pending_entries_ok. cbn [clock kv]. intros Hw.
  destruct (live_pending_later (clock w) dt (kv w)) as [-> | ->]; [exact Hw | constructor].
Qed.

Lemma enqueueJob_entries_ok w rnd userId' type' payload' :
  pending_entries_ok w → pending_entries_ok (enqueueJob rnd userId' type' payload' w).2.
Proof.
  intros Hw. destruct (enqueueJob_run w rnd userId' type' payload') as [line ->].
  unfold pending_entries_ok. cbn [snd clock kv]. rewrite live_pending_after_push.
  constructor; [split; [reflexivity | cbn; lia] | exact Hw].
Qed.

Lemma processNextJob_entries_ok w :
  pending_entries_ok w →
  pending_entries_ok (processNextJob w).2
  ∧ ∀ job, (processNextJob w).1 = Some job → status job = processing ∧ attempts job ≤ 3.
Proof.
  intros Hw. destruct (success (limit "suno-api" (clock w) (rl w)).1) eqn:Hs.
  - destruct (unsnoc (live_pending (clock w) (kv w))) as [[l j]|] eqn:Hu.
    + apply unsnoc_Some in Hu. destruct (processNextJob_pop w l j Hs Hu) as [line ->].
      unfold pending_entries_ok in *. rewrite Hu in Hw. apply Forall_app in Hw as [Hl Hj].
      apply Forall_singleton in Hj as [Hp Ha]. cbn [fst snd clock kv]. split.
      * by erewrite live_pending_after_pop.
      * intros job [= <-]. split; [reflexivity | cbn; lia].
    + apply unsnoc_None in Hu. rewrite (processNextJob_empty w Hs Hu). by split.
  - destruct (processNextJob_denied w Hs) as [line ->]. by split.
Qed.

Lemma completeJob_entries_ok w jobId result :
  pending_entries_ok w → pending_entries_ok (completeJob jobId result w).2.
Proof.
  unfold pending_entries_ok. intros Hw.
  destruct (completeJob_list w jobId result) as [-> ->]. exact Hw.
Qed.

Lemma failJob_entries_ok w jobId msg maxRetries :
  default 3 maxRetries ≤ 3 →
  pending_entries_ok w → pending_entries_ok (failJob jobId msg maxRetries w).2.
Proof.
  unfold pending_entries_ok. intros Hm Hw.
  destruct (failJob_list w jobId msg maxRetries) as [-> [-> | (job & _ & Hlt & ->)]];
    [exact Hw|].
  constructor; [split; [reflexivity | cbn; lia] | exact Hw].
Qed.

Lemma runHandler_entries_ok w job :
  pending_entries_ok w → pending_entries_ok (runHandler job w).2.
Proof.
  intros Hw. destruct (runHandler_run job w) as (run & e & ->).
  by apply pending_entries_ok_later.
Qed.

Lemma drainLoop_entries_ok fuel : ∀ maxJobs processedCount turns w,
  pending_entries_ok w →
  Forall (λ t, ∀ job, turn_job t = Some job → status job = processing ∧ attempts job ≤ 3)
         turns →
  pending_entries_ok (drainLoop fuel maxJobs processedCount turns w).2
  ∧ ∀ n ts, (drainLoop fuel maxJobs processedCount turns w).1 = Some (n, ts) →
            Forall (λ t, ∀ job, turn_job t = Some job →
                         status job = processing ∧ attempts job ≤ 3) ts.
Proof.
  induction fuel as [|fuel IH]; intros maxJobs pc turns w Hw Ht.
  - simpl. destruct (pc <? maxJobs); cbn [fst snd mret M_ret]; (split; [exact Hw|]).
    + intros n ts. discriminate.
    + by intros n ts [= <- <-].
  - destruct (Z.lt_ge_cases pc maxJobs) as [Hlt|Hge].
    2:{ rewrite (drainLoop_exit _ _ _ _ _ Hge). split; [exact Hw | by intros n ts [= <- <-]]. }
    rewrite (drainLoop_step _ _ _ _ _ Hlt).
    destruct (processNextJob_entries_ok w Hw) as [Hw1 Hjob].
    destruct (processNextJob w) as [[job|] w1]; cbn [fst snd] in *.
    2:{ split; [exact Hw1|]. intros n ts [= <- <-]. apply Forall_app. split; [exact Ht|].
        by constructor. }
    pose proof (Hjob job eq_refl) as Ha.
    pose proof (runHandler_entries_ok w1 job Hw1) as Hw2.
    destruct (runHandler job w1) as [run w2]. cbn [snd] in Hw2.
    destruct (outcome run) as [result|msg].
    + apply IH; [by apply completeJob_entries_ok|].
      apply Forall_app. split; [exact Ht|]. constructor; [|constructor].
      by intros job' [= <-].
    + apply IH; [by apply failJob_entries_ok|].
      apply Forall_app. split; [exact Ht|]. constructor; [|constructor].
      by intros job' [= <-].
Qed.

Lemma cronGET_unauthorized w fuel authHeader :
  bool_decide (authHeader = Some ("Bearer " +:+ default "undefined" CRON_SECRET)) = false →
  cronGET fuel authHeader w = (Some (Failure 401 "Unauthorized", []), w).
Proof. intros Ha. unfold cronGET. by rewrite Ha. Qed.

(** An authorized run: the statistics, the loop, the summary. *)
Lemma cronGET_authorized w fuel authHeader :
  bool_decide (authHeader = Some ("Bearer " +:+ default "undefined" CRON_SECRET)) = true →
  cronGET fuel authHeader w
  = match drainLoop fuel maxRequests 0 []
            (mkWorld (kv w) (limit "suno-api-stats" (clock w) (rl w)).2 (ext w) (clock w)
                     (console w)) with
    | (Some (n, turns), w') => (Some (Ok (mkSummary n (clock w' - clock w)), turns), w')
    | (None, w') => (None, w')
    end.
Proof.
  intros Ha. unfold cronGET. rewrite Ha. cbn [negb].
  unfold mbind at 1, M_bind at 1, Date_now at 1. unfold mbind at 1, M_bind at 1.
  unfold getQueueStats, getQueueSize, mbind at 1 2 3, M_bind at 1 2 3, kv_llen, ratelimit_limit,
    mret at 1, M_ret at 1.
  destruct (limit "suno-api-stats" (clock w) (rl w)) as [r st]. cbn [fst snd].
  unfold mret at 1, M_ret at 1. unfold mbind at 1, M_bind at 1.
  cbn [cfg_maxRequests getRateLimitConfig].
  destruct (drainLoop fuel maxRequests 0 [] _) as [[[n turns]|] w']; reflexivity.
Qed.

(** When every entry of the pending list is a pending job with fewer than
    three attempts, every operation of the queue leaves it so: [enqueueJob],
    [processNextJob], [completeJob], [failJob] with at most three retries, and
    a whole worker run.  Every job [processNextJob] hands out, and so every
    job a turn of a worker run deals with, has the status [processing] and
    is on its third attempt at most. *)
Theorem pending_entries_stay_pending w :
  pending_entries_ok w →
  (∀ rnd userId' type' payload',
     pending_entries_ok (enqueueJob rnd userId' type' payload' w).2)
  ∧ pending_entries_ok (processNextJob w).2
  ∧ (∀ job, (processNextJob w).1 = Some job → status job = processing ∧ attempts job ≤ 3)
  ∧ (∀ jobId result, pending_entries_ok (completeJob jobId result w).2)
  ∧ (∀ jobId msg maxRetries, default 3 maxRetries ≤ 3 →
       pending_entries_ok (failJob jobId msg maxRetries w).2)
  ∧ (∀ fuel authHeader,
       pending_entries_ok (cronGET fuel authHeader w).2
       ∧ ∀ reply turns, (cronGET fuel authHeader w).1 = Some (reply, turns) →
           Forall (λ t, ∀ job, turn_job t = Some job →
                        status job = processing ∧ attempts job ≤ 3) turns).
Proof.
  intros Hw. split; [intros; by apply enqueueJob_entries_ok|].
  destruct (processNextJob_entries_ok w Hw) as [Hp Hj]. split; [exact Hp|]. split; [exact Hj|].
  split; [intros; by apply completeJob_entries_ok|].
  split; [intros; by apply failJob_entries_ok|].
  intros fuel authHeader.
  destruct (bool_decide (authHeader = Some ("Bearer " +:+ default "undefined" CRON_SECRET)))
    eqn:Hauth.
  2:{ rewrite (cronGET_unauthorized _ _ _ Hauth). split; [exact Hw | by intros ?? [= <- <-]]. }
  rewrite (cronGET_authorized _ _ _ Hauth).
  destruct (drainLoop_entries_ok fuel maxRequests 0 []
              (mkWorld (kv w) (limit "suno-api-stats" (clock w) (rl w)).2 (ext w) (clock w)
                       (console w)) Hw (Forall_nil_2 _)) as [Hw' Hts].
  destruct (drainLoop fuel _ _ _ _) as [o w']. destruct o as [[n ts]|]; cbn [fst snd] in *.
  - split; [exact Hw'|]. intros reply turns [= <- <-]. by eapply Hts.
  - split; [exact Hw' | discriminate].
Qed.

(** ** The status route *)

Lemma completed_result_world w job jobId : (completed_result job jobId w).2 = w.
Proof.
  unfold completed_result. destruct (bool_decide (status job = completed)); [|reflexivity].
  unfold mbind, M_bind, mret, M_ret. pose proof (getJobResult_world w jobId) as Hw.
  by destruct (getJobResult jobId w) as [[v|msg] w'].
Qed.

Lemma completed_result_kind w job jobId :
  match (completed_result job jobId w).1 with
  | inl (Some _) => status job = completed
  | inl None => status job ≠ completed
  | inr _ => status job = completed
  end.
Proof.
  unfold completed_result.
  destruct (bool_decide_reflect (status job = completed)) as [Hc|Hc]; [|exact Hc].
  unfold mbind, M_bind, mret, M_ret. by destruct (getJobResult jobId w) as [[v|msg] w'].
Qed.

(** The route, case by case. *)
Lemma jobGET_run w jobId :
  jobGET jobId w
  = (if bool_decide (jobId = "") then Failure 400 "Job ID is required"
     else
       match (getJobStatus jobId w).1 with
       | None => Failure 404 "Job not found"
       | Some (job, queuePosition) =>
           match (completed_result job jobId w).1 with
           | inr msg => Failure 500 (message_or msg "Failed to get job status")
           | inl result =>
               Ok (mkView (id job) (status job) (type job) (createdAt job) (attempts job) 3
                     result (failed_fields job).1 (pending_fields job queuePosition).1.1
                     (pending_fields job queuePosition).1.2
                     (match processing_message job, (pending_fields job queuePosition).2 with
                      | Some m, _ => Some m
                      | None, Some m => Some m
                      | None, None => (failed_fields job).2
                      end))
           end
       end, w).
Proof.
  unfold jobGET. destruct (bool_decide (jobId = "")); [reflexivity|].
  unfold mbind at 1, M_bind at 1. pose proof (getJobStatus_world w jobId) as Hw.
  destruct (getJobStatus jobId w) as [[[job qp]|] w']; cbn [fst snd] in *; subst w';
    [|reflexivity].
  unfold mbind, M_bind. pose proof (completed_result_world w job jobId) as Hw.
  destruct (completed_result job jobId w) as [[result|msg] w']; cbn [fst snd] in *; subst w';
    [|reflexivity].
  destruct (failed_fields job) as [e fm].
  by destruct (pending_fields job qp) as [[p est] pm].
Qed.

Lemma getJobStatus_found w jobId job queuePosition :
  (getJobStatus jobId w).1 = Some (job, queuePosition) →
  (kv_get_job jobId w).1 = Some job ∧ (is_Some queuePosition → status job = pending).
Proof.
  unfold getJobStatus, mbind, M_bind, kv_get_job, mret, M_ret. cbn [fst].
  destruct (live (clock w) (jobs (kv w) !! jobId)) as [found|]; [|discriminate].
  destruct (bool_decide_reflect (status found = pending)) as [Hp|Hp].
  - rewrite getJobQueuePosition_run. cbn [fst]. by intros [= <- <-].
  - cbn [fst]. intros [= <- <-]. split; [reflexivity | by intros [? ?]].
Qed.

(** The status route changes nothing.  It answers 400 to an empty id and 404
    when no record is stored under the id (never written, or expired); its
    other failure is a 500. *)
Theorem status_route_reads_only w jobId :
  (jobGET jobId w).2 = w
  ∧ (jobGET "" w).1 = Failure 400 "Job ID is required"
  ∧ (jobId ≠ "" → (kv_get_job jobId w).1 = None →
     (jobGET jobId w).1 = Failure 404 "Job not found")
  ∧ (∀ code err, (jobGET jobId w).1 = Failure code err → code = 400 ∨ code = 404 ∨ code = 500).
Proof.
  rewrite !jobGET_run. cbn [fst snd]. split; [reflexivity|]. split; [reflexivity|]. split.
  - intros Hid Hg. rewrite (bool_decide_eq_false_2 _ Hid).
    unfold getJobStatus, mbind, M_bind, kv_get_job in *. cbn [fst] in Hg. by rewrite Hg.
  - intros code err. destruct (bool_decide (jobId = "")); [intros [= <- _]; by left|].
    destruct ((getJobStatus jobId w).1) as [[job qp]|]; [|intros [= <- _]; right; by left].
    destruct ((completed_result job jobId w).1) as [result|msg]; [discriminate|].
    intros [= <- _]. right. by right.
Qed.

(** What a 200 of the status route carries depends on the status of the
    record alone.  The result is there exactly for a completed job, the
    error exactly for a failed one, and it is never empty.  A message is
    there for every status but [completed].  A queue position is given to
    pending jobs only, and an estimate only along with a position, to a job
    that has not been attempted. *)
Theorem status_view_fields w jobId view :
  (jobGET jobId w).1 = Ok view →
  ∃ job,
    (kv_get_job jobId w).1 = Some job
    ∧ v_jobId view = id job ∧ v_status view = status job ∧ v_type view = type job
    ∧ v_createdAt view = createdAt job ∧ v_attempts view = attempts job
    ∧ v_maxRetries view = 3
    ∧ (is_Some (v_result view) ↔ status job = completed)
    ∧ (is_Some (v_error view) ↔ status job = failed)
    ∧ v_error view ≠ Some ""
    ∧ (is_Some (v_message view) ↔ status job ≠ completed)
    ∧ (is_Some (v_queuePosition view) → status job = pending)
    ∧ (is_Some (v_estimatedWaitSeconds view) →
       is_Some (v_queuePosition view) ∧ attempts job ≤ 0).
Proof.
  intros Hv.
  assert (Hid : jobId ≠ "").
  { intros ->. unfold jobGET in Hv. by rewrite bool_decide_eq_true_2 in Hv. }
  rewrite jobGET_run, (bool_decide_eq_false_2 _ Hid) in Hv. cbn [fst] in Hv.
  destruct ((getJobStatus jobId w).1) as [[job qp]|] eqn:Hst; [|discriminate].
  destruct (getJobStatus_found w jobId job qp Hst) as [Hg Hqp].
  pose proof (completed_result_kind w job jobId) as Hk.
  destruct ((completed_result job jobId w).1) as [result|msg]; [|discriminate].
  injection Hv as <-. exists job. cbn [v_jobId v_status v_type v_createdAt v_attempts
    v_maxRetries v_result v_error v_message v_queuePosition v_estimatedWaitSeconds].
  split; [exact Hg|]. do 6 (split; [reflexivity|]).
  unfold failed_fields, pending_fields, processing_message.
  destruct (status job) eqn:Hs; cbn [bool_decide decide_rel Status_eq_dec fst snd].
  all: repeat match goal with
         | |- context [bool_decide (?a = ?b)] =>
             first [rewrite (bool_decide_eq_true_2 (a = b)) by reflexivity
                   | rewrite (bool_decide_eq_false_2 (a = b)) by discriminate]
         end; cbn [fst snd].
  - (* pending *)
    destruct result; [done|].
    destruct (Z.ltb_spec 0 (attempts job)); cbn [fst snd].
    + repeat split; try done; try (by intros [? ?]); try (intros _; by eexists).
    + destruct qp as [q|]; [destruct (q =? 0)|]; cbn [fst snd];
        repeat split; try done; try (by intros [? ?]); try (intros _; by eexists); try lia.
  - (* processing *)
    destruct result; [done|].
    repeat split; try done; try (by intros [? ?]); try (intros _; by eexists).
  - (* completed *)
    destruct result; [|done].
    repeat split; try done; try (by intros [? ?]); try (intros _; by eexists).
  - (* failed *)
    destruct result; [done|].
    repeat split; try done; try (by intros [? ?]); try (intros _; by eexists).
    destruct (error job) as [e|]; [|done]. case_bool_decide; [done|]. by intros [= ->].
Qed.

(** The estimate of the wait is a multiple of the interval of 60 seconds
    that does not decrease along the queue; the first [maxRequests] positions
    are promised the next run. *)
Theorem estimate_by_position job q q' :
  status job = pending → attempts job ≤ 0 → 0 < maxRequests → 1 ≤ q ≤ q' →
  ∃ n n',
    (pending_fields job (Some q)).1.2 = Some (Finite (n * 60))
    ∧ (pending_fields job (Some q')).1.2 = Some (Finite (n' * 60))
    ∧ 1 ≤ n ≤ n'
    ∧ (q ≤ maxRequests → n = 1).
Proof.
  intros Hs Ha Hm Hq. exists (ceil_div q maxRequests), (ceil_div q' maxRequests).
  unfold pending_fields. rewrite Hs, bool_decide_eq_true_2 by reflexivity.
  rewrite (proj2 (Z.ltb_ge _ _) Ha).
  rewrite (proj2 (Z.eqb_neq q 0)), (proj2 (Z.eqb_neq q' 0)) by lia.
  cbn [fst snd cfg_maxRequests getRateLimitConfig]. unfold js_ceil_quot.
  rewrite (proj2 (Z.eqb_neq maxRequests 0)) by lia. cbn [js_scale].
  pose proof (ceil_div_is_ceiling q maxRequests Hm).
  pose proof (ceil_div_is_ceiling q' maxRequests Hm).
  repeat split; try reflexivity; nia.
Qed.

(** ** From a submission to its status *)

(** A submission an enqueue route has accepted can be looked up at once under
    the id the route returned: the status route reports a pending job of the
    type of the route ([lyrics] for the lyrics route, [music] for the music
    route), not attempted yet, at position 1, to be processed in the next
    run. *)
Theorem submission_is_visible rnd body w e w' ty :
  (lyricsPOST rnd body w = (Ok e, w') ∧ ty = "lyrics")
  ∨ (musicPOST rnd body w = (Ok e, w') ∧ ty = "music") →
  0 < maxRequests →
  ∃ view,
    (jobGET (enq_jobId e) w').1 = Ok view
    ∧ v_jobId view = enq_jobId e
    ∧ v_status view = pending
    ∧ v_type view = ty
    ∧ v_attempts view = 0
    ∧ v_queuePosition view = Some 1
    ∧ v_estimatedWaitSeconds view = Some (Finite 60).
Proof.
  intros Hpost Hm.
  assert (Henq : ∃ userId' type' payload',
            type' = ty
            ∧ enq_jobId e = (enqueueJob rnd userId' type' payload' w).1
            ∧ w' = (enqueueJob rnd userId' type' payload' w).2).
  { destruct Hpost as [[Hp ->] | [Hp ->]].
    - unfold lyricsPOST in Hp. destruct (is_null body); [discriminate|].
      destruct (trim_test (prop "story" body)) as [|text|]; [discriminate | | discriminate].
      unfold mbind, M_bind, mret, M_ret in Hp.
      destruct (enqueueJob rnd _ "lyrics" _ w) as [jobId w1] eqn:Hrun.
      injection Hp as <- <-. eexists _, "lyrics", _. by rewrite Hrun.
    - unfold musicPOST in Hp. destruct (is_null body); [discriminate|].
      destruct (trim_test (prop "endpoint" body)) as [|url|]; [discriminate | | discriminate].
      destruct (prop "requestBody" body) as [request|]; [|discriminate].
      destruct (negb (truthy (Some request))); [discriminate|].
      unfold mbind, M_bind, mret, M_ret in Hp.
      destruct (enqueueJob rnd _ "music" _ w) as [jobId w1] eqn:Hrun.
      injection Hp as <- <-. eexists _, "music", _. by rewrite Hrun. }
  destruct Henq as (userId' & type' & payload' & <- & -> & ->).
  pose proof (getJobStatus_after_enqueue w rnd userId' type' payload') as Hst. cbv zeta in Hst.
  assert (Hid : (enqueueJob rnd userId' type' payload' w).1 ≠ "").
  { by destruct (enqueueJob_run w rnd userId' type' payload') as [line ->]. }
  rewrite jobGET_run, (bool_decide_eq_false_2 _ Hid), Hst. cbn [fst snd].
  unfold completed_result, failed_fields, pending_fields, processing_message.
  cbn [status attempts bool_decide decide_rel Status_eq_dec mret M_ret fst snd].
  rewrite !bool_decide_eq_false_2 by discriminate.
  rewrite bool_decide_eq_true_2 by reflexivity.
  cbn [fst snd Z.ltb Z.compare Z.eqb mret M_ret cfg_maxRequests getRateLimitConfig].
  unfold js_ceil_quot. rewrite (proj2 (Z.eqb_neq maxRequests 0)) by lia.
  assert (Hc : ceil_div 1 maxRequests = 1)
    by (pose proof (ceil_div_is_ceiling 1 maxRequests Hm); nia).
  rewrite Hc. eexists. split; [reflexivity|]. cbn. repeat split; try done.
Qed.

(** ** A blank story *)

Lemma ws_prefix_cases s :
  match ws_prefix s with
  | 0%nat => True
  | 1%nat => ∃ a rest, s = String a rest ∧ ascii_space a = true
  | 2%nat => ∃ a b rest, s = String a (String b rest)
               ∧ ascii_visible a = false ∧ ascii_visible b = false
  | 3%nat => ∃ a b c rest, s = String a (String b (String c rest))
               ∧ ascii_visible a = false ∧ ascii_visible b = false ∧ ascii_visible c = false
  | _ => False
  end.
Proof.
  destruct s as [|a s]; [done|]. unfold ws_prefix.
  case_bool_decide as Ha.
  { exists a, s. split; [reflexivity|]. unfold ascii_space. by apply bool_decide_eq_true_2. }
  destruct s as [|b s]; [done|]. case_bool_decide as Hb.
  { exists a, b, s. split; [reflexivity|]. unfold ascii_visible.
    destruct Hb as [-> ->]. by split. }
  destruct s as [|c s]; [done|]. case_bool_decide as Hc; [|done].
  exists a, b, c, s. split; [reflexivity|]. unfold ascii_visible.
  repeat split; apply andb_false_intro1, bool_decide_eq_false_2; lia.
Qed.

Lemma blank_fuel_spaces s : ∀ fuel,
  (String.length s ≤ fuel)%nat →
  Forall (λ a, ascii_space a = true) (String.list_ascii_of_string s) →
  blank_fuel fuel s = true.
Proof.
  induction s as [|a s IH]; intros fuel Hf Hs; [by destruct fuel|].
  cbn [String.list_ascii_of_string] in Hs. apply Forall_cons in Hs as [Ha Hs].
  destruct fuel as [|fuel]; [simpl in Hf; lia|]. cbn [blank_fuel].
  assert (Hp : ws_prefix (String a s) = 1%nat).
  { unfold ws_prefix. unfold ascii_space in Ha. cbv zeta in Ha. by rewrite Ha. }
  rewrite Hp. cbn [drop_bytes]. apply IH; [simpl in Hf; lia | exact Hs].
Qed.

Lemma blank_fuel_no_visible fuel : ∀ s,
  blank_fuel fuel s = true →
  Forall (λ a, ascii_visible a = false) (String.list_ascii_of_string s).
Proof.
  induction fuel as [|fuel IH]; intros s; destruct s as [|a s]; cbn [blank_fuel];
    [intros _; constructor | by intros ? | intros _; constructor |].
  pose proof (ws_prefix_cases (String a s)) as Hc.
  destruct (ws_prefix (String a s)) as [|[|[|[|n]]]]; [by intros ?| | | |done].
  - destruct Hc as (a' & rest & [= <- <-] & Ha). cbn [drop_bytes]. intros Hb.
    cbn [String.list_ascii_of_string]. constructor; [|by apply IH].
    unfold ascii_visible. rewrite Ha. apply andb_false_r.
  - destruct Hc as (a' & b & rest & [= <- ->] & Ha & Hb). cbn [drop_bytes]. intros Hr.
    cbn [String.list_ascii_of_string]. by repeat constructor; [..|apply IH].
  - destruct Hc as (a' & b & c & rest & [= <- ->] & Ha & Hb & Hc). cbn [drop_bytes].
    intros Hr. cbn [String.list_ascii_of_string]. by repeat constructor; [..|apply IH].
Qed.

(** The lyrics route rejects with 400 a story that consists of ASCII white
    space, whatever its length, and accepts every story that holds a visible
    character of ASCII. *)
Theorem blank_story_is_rejected rnd body w story :
  body ≠ JNull → prop "story" body = Some (JStr story) →
  (Forall (λ a, ascii_space a = true) (String.list_ascii_of_string story) →
   lyricsPOST rnd body w = (Failure 400 "Story is required", w))
  ∧ (Exists (λ a, ascii_visible a = true) (String.list_ascii_of_string story) →
     ∃ e, (lyricsPOST rnd body w).1 = Ok e).
Proof.
  intros Hn Hst. unfold lyricsPOST. rewrite (is_null_false _ Hn), Hst. unfold trim_test. split.
  - intros Hs. destruct (truthy (Some (JStr story))); [|reflexivity]. cbn [negb].
    unfold blank. by rewrite (blank_fuel_spaces story _ (le_n _) Hs).
  - intros Hv.
    assert (Hb : blank story = false).
    { destruct (blank story) eqn:Hb; [|reflexivity].
      unfold blank in Hb. apply blank_fuel_no_visible in Hb. apply Exists_exists in Hv as (a & Hin & Ha).
      rewrite Forall_forall in Hb. rewrite (Hb a Hin) in Ha. discriminate. }
    assert (Ht : truthy (Some (JStr story)) = true).
    { destruct story; [by apply Exists_nil in Hv | reflexivity]. }
    rewrite Ht, Hb. cbn [negb]. unfold mbind, M_bind, mret, M_ret.
    destruct (enqueueJob _ _ _ _ w) as [jobId w1]. by eexists.
Qed.

(** ** The status route after the end of a job *)

Lemma jobGET_after_complete w jobId job result :
  jobId ≠ "" → (kv_get_job jobId w).1 = Some job →
  truthy (Some result) = true → (∀ text, result ≠ JStr text) →
  (jobGET jobId (completeJob jobId result w).2).1
  = Ok (mkView (id job) completed (type job) (createdAt job) (attempts job) 3 (Some result)
               None None None None).
Proof.
  intros Hid Hg Ht Hs. unfold kv_get_job in Hg. cbn [fst] in Hg.
  destruct (completeJob_found w jobId result job Hg) as [line ->]. cbn [snd].
  match goal with |- context [jobGET jobId ?w0] => set (w1 := w0) end.
  assert (Hst : getJobStatus jobId w1 = (Some (with_status completed job, None), w1)).
  { unfold getJobStatus, mbind, M_bind, kv_get_job, mret, M_ret. subst w1. cbn [kv jobs clock].
    by rewrite live_fresh. }
  assert (Hres : getJobResult jobId w1 = (inl result, w1)).
  { unfold getJobResult, mbind, M_bind, kv_get_result, mret, M_ret. subst w1.
    cbn [kv results clock]. rewrite live_fresh, Ht. cbn [negb].
    destruct result; try reflexivity. by destruct (Hs s). }
  rewrite jobGET_run, (bool_decide_eq_false_2 _ Hid), Hst. cbn [fst].
  unfold completed_result. cbn [status with_status].
  rewrite bool_decide_eq_true_2 by reflexivity. unfold mbind, M_bind, mret, M_ret.
  rewrite Hres. cbn [fst]. unfold failed_fields, pending_fields, processing_message.
  cbn [status with_status]. by rewrite !bool_decide_eq_false_2 by discriminate.
Qed.

Lemma jobGET_after_last_failure w jobId job msg :
  jobId ≠ "" → (kv_get_job jobId w).1 = Some job → 3 ≤ attempts job →
  (jobGET jobId (failJob jobId msg None w).2).1
  = Ok (mkView (id job) failed (type job) (createdAt job) (attempts job) 3 None
               (Some (if bool_decide (msg = "") then "Job failed" else msg)) None None
               (Some ("Generation failed after " +:+ pretty (attempts job)
                      +:+ " attempts. Please try a fresh generation with different settings or try again later."))).
Proof.
  intros Hid Hg Ha. unfold kv_get_job in Hg. cbn [fst] in Hg.
  destruct (failJob_exhausted w jobId msg None job Hg Ha) as [line ->]. cbn [snd].
  match goal with |- context [jobGET jobId ?w0] => set (w1 := w0) end.
  assert (Hst : getJobStatus jobId w1 = (Some (exhausted msg job, None), w1)).
  { unfold getJobStatus, mbind, M_bind, kv_get_job, mret, M_ret. subst w1. cbn [kv jobs clock].
    by rewrite live_fresh. }
  rewrite jobGET_run, (bool_decide_eq_false_2 _ Hid), Hst. cbn [fst].
  unfold completed_result, failed_fields, pending_fields, processing_message.
  cbn [status exhausted with_status with_error attempts error id type createdAt].
  rewrite !bool_decide_eq_false_2 by discriminate.
  rewrite bool_decide_eq_true_2 by reflexivity. cbn [mret M_ret fst snd default].
  by rewrite (proj2 (Z.leb_le _ _) Ha).
Qed.

(** ** Worker runs *)

Lemma completeJob_keeps_list w jobId result :
  queue_pending (kv (completeJob jobId result w).2) = queue_pending (kv w)
  ∧ pendingExpireAt (kv (completeJob jobId result w).2) = pendingExpireAt (kv w)
  ∧ clock (completeJob jobId result w).2 = clock w.
Proof.
  destruct (live (clock w) (jobs (kv w) !! jobId)) as [job|] eqn:Hg.
  - by destruct (completeJob_found w jobId result job Hg) as [line ->].
  - by rewrite (completeJob_missing w jobId result Hg).
Qed.

Lemma live_pending_unexpiring now (s : KV) :
  pendingExpireAt s = None → live_pending now s = queue_pending s.
Proof. unfold live_pending. by intros ->. Qed.

Lemma completed_in_since w' since since' j :
  since' ≤ since → completed_in w' since j → completed_in w' since' j.
Proof.
  intros Hle (result & t & wh & Hj & Hr & Ho & Ht).
  exists result, t, wh. repeat split; [done.. | lia].
Qed.

(** A record and a result that have not expired are read as they are. *)
Lemma completed_in_reads w' since j :
  clock w' < since + 3600 * 1000 → completed_in w' since j → reads_completed w' j.
Proof.
  intros Hc (result & t & wh & Hj & Hr & Ho & Ht).
  eexists _, result. unfold kv_get_job, kv_get_result. cbn [fst]. rewrite Hj, Hr.
  unfold live. cbn [expireAt tval].
  rewrite (proj2 (Z.ltb_lt (clock w') t)) by lia. by repeat split.
Qed.

(** One turn of the loop on a job whose handler returns in time: the job is
    handed out, the handler runs, the record and the result are written. *)
Lemma returning_turn w l j :
  always_admits → returns_in_time j →
  queue_pending (kv w) = l ++ [j] → pendingExpireAt (kv w) = None →
  ∃ result run e line line',
    let w1 := (processNextJob w).2 in
    let now := clock w + Z.of_N (elapsed run) in
    processNextJob w = (Some (dequeued j), w1)
    ∧ runHandler (dequeued j) w1
      = (run, mkWorld (kv w1) (rl w1) e now (console w1))
    ∧ outcome run = inl result
    ∧ completeJob (id (dequeued j)) result (mkWorld (kv w1) (rl w1) e now (console w1))
      = (tt, mkWorld (mkKV (<[id j := mkTimed (with_status completed (dequeued j))
                                              (now + 3600 * 1000)]>
                              (<[id j := mkTimed (dequeued j) (clock w + 3600 * 1000)]>
                                 (jobs (kv w))))
                           (<[id j := mkTimed result (now + 3600 * 1000)]> (results (kv w)))
                           (errors (kv w)) l None)
                     (limit "suno-api" (clock w) (rl w)).2 e now
                     (console w ++ [(Log, line)] ++ [(Log, line')])).
Proof.
  intros Ha Hr Hq He.
  destruct (processNextJob_pop w l j (Ha _ _ _)) as [line Hpop].
  { by rewrite live_pending_unexpiring, Hq. }
  rewrite Hpop. cbn [snd].
  match goal with |- context [runHandler (dequeued j) ?w0] => set (w1 := w0) end.
  destruct (Hr (dequeued j) w1 eq_refl eq_refl) as [[result Hres] Hel].
  destruct (runHandler_run (dequeued j) w1) as (run & e & Hrun).
  rewrite Hrun in Hres, Hel. cbn [fst] in Hres, Hel.
  assert (Hlive : live (clock w + Z.of_N (elapsed run))
                    (<[id j := mkTimed (dequeued j) (clock w + 3600 * 1000)]> (jobs (kv w))
                       !! id j) = Some (dequeued j)).
  { rewrite lookup_insert_eq. unfold live. cbn [expireAt tval].
    by rewrite (proj2 (Z.ltb_lt _ _)) by lia. }
  destruct (completeJob_found (mkWorld (kv w1) (rl w1) e (clock w + Z.of_N (elapsed run))
                                 (console w1))
              (id (dequeued j)) result (dequeued j) Hlive) as [line' Hdone].
  exists result, run, e, line, line'. cbv zeta. split; [reflexivity|].
  split; [exact Hrun|]. split; [exact Hres|]. rewrite Hdone. subst w1.
  cbn [kv rl clock console jobs results errors queue_pending pendingExpireAt].
  rewrite He, <- app_assoc. by destruct l.
Qed.

(** The loop on a queue [q], written oldest first, when nothing holds it up:
    it completes the oldest jobs, as many as the limit leaves room for, and
    touches the record and the result of no other job. *)
Lemma drainLoop_oldest_first q : ∀ fuel maxJobs processedCount turns w,
  always_admits →
  queue_pending (kv w) = reverse q → pendingExpireAt (kv w) = None →
  Forall returns_in_time q → NoDup (id <$> q) → (length q < fuel)%nat →
  let k := Nat.min (length q) (Z.to_nat (maxJobs - processedCount)) in
  ∃ w', drainLoop fuel maxJobs processedCount turns w
        = (Some (processedCount + Z.of_nat k,
                 turns ++ ((λ j, Completed (dequeued j)) <$> take k q)
                 ++ (if decide (length q < Z.to_nat (maxJobs - processedCount))%nat
                     then [Stopped] else [])), w')
        ∧ queue_pending (kv w') = reverse (drop k q)
        ∧ pendingExpireAt (kv w') = None
        ∧ clock w ≤ clock w'
        ∧ Forall (completed_in w' (clock w)) (take k q)
        ∧ (∀ key, key ∉ id <$> take k q →
             jobs (kv w') !! key = jobs (kv w) !! key
             ∧ results (kv w') !! key = results (kv w) !! key).
Proof.
  induction q as [|j q IH]; intros fuel maxJobs pc turns w Ha Hq He Hr Hn Hf k; subst k.
  - destruct (Z.lt_ge_cases pc maxJobs) as [Hlt|Hge].
    + destruct fuel as [|fuel]; [simpl in Hf; lia|]. rewrite (drainLoop_step _ _ _ _ _ Hlt).
      rewrite (processNextJob_empty w (Ha _ _ _))
        by (by rewrite live_pending_unexpiring, Hq).
      rewrite decide_True by (simpl; lia). eexists. cbn [length Nat.min take fmap list_fmap].
      rewrite Z.add_0_r. split; [reflexivity|]. cbn [kv clock].
      repeat split; [done | done | lia | constructor].
    + rewrite (drainLoop_exit _ _ _ _ _ Hge). rewrite decide_False by (simpl; lia).
      exists w. cbn [length Nat.min take fmap list_fmap app]. rewrite Z.add_0_r, app_nil_r.
      repeat split; [done | done | lia | constructor].
  - destruct (Z.lt_ge_cases pc maxJobs) as [Hlt|Hge].
    2:{ rewrite (drainLoop_exit _ _ _ _ _ Hge). rewrite decide_False by (simpl; lia).
        exists w. replace (Z.to_nat (maxJobs - pc)) with 0%nat by lia.
        rewrite Nat.min_0_r. cbn [take fmap list_fmap app drop].
        rewrite Z.add_0_r, app_nil_r. repeat split; [done | done | lia | constructor]. }
    destruct fuel as [|fuel]; [simpl in Hf; lia|]. rewrite (drainLoop_step _ _ _ _ _ Hlt).
    apply Forall_cons in Hr as [Hj Hr]. cbn [fmap list_fmap] in Hn.
    apply NoDup_cons in Hn as [Hfresh Hn].
    destruct (returning_turn w (reverse q) j Ha Hj) as
      (result & run & e & line & line' & Hpop & Hrun & Hres & Hdone);
      [by rewrite Hq, reverse_cons | exact He |]. cbv zeta in Hpop, Hrun, Hdone.
    rewrite Hpop, Hrun, Hres, Hdone. cbn [snd].
    match goal with |- context [drainLoop fuel maxJobs (pc + 1) _ ?w0] => set (w3 := w0) end.
    destruct (IH fuel maxJobs (pc + 1) (turns ++ [Completed (dequeued j)]) w3 Ha eq_refl eq_refl
                Hr Hn ltac:(simpl in Hf; lia)) as (w' & Hd & Hq' & He' & Hc' & Hdone' & Hsame').
    exists w'. rewrite Hd. cbn [length].
    replace (Z.to_nat (maxJobs - pc)) with (S (Z.to_nat (maxJobs - (pc + 1)))) by lia.
    rewrite <- Nat.succ_min_distr. cbn [take fmap list_fmap drop].
    assert (Hout : id j ∉ id <$> take (Nat.min (length q) (Z.to_nat (maxJobs - (pc + 1)))) q).
    { intros Hin. apply Hfresh. apply list_elem_of_fmap in Hin as (x & Hx & Hin).
      apply list_elem_of_fmap. exists x. split; [done|]. by eapply subseteq_take. }
    split; [|split; [done|]; split; [done|]; split; [|split]].
    + f_equal. f_equal. f_equal; [clear; lia|]. rewrite <- app_assoc. cbn [app]. do 2 f_equal.
      destruct (decide (length q < Z.to_nat (maxJobs - (pc + 1)))%nat);
        [rewrite decide_True by (clear -l; lia) | rewrite decide_False by (clear -n; lia)];
        reflexivity.
    + subst w3. cbn [clock] in Hc'. lia.
    + constructor.
      * destruct (Hsame' (id j) Hout) as [Hjobs Hresults].
        exists result, (clock w + Z.of_N (elapsed run) + 3600 * 1000), (processNextJob w).2.
        rewrite Hjobs, Hresults. subst w3. cbn [kv jobs results].
        rewrite !lookup_insert_eq. repeat split; [by rewrite Hrun | lia].
      * eapply Forall_impl; [exact Hdone'|]. intros x. apply completed_in_since.
        subst w3. cbn [clock]. lia.
    + intros key Hkey. apply not_elem_of_cons in Hkey as [Hne Hkey].
      destruct (Hsame' key Hkey) as [Hjobs Hresults]. rewrite Hjobs, Hresults.
      subst w3. cbn [kv jobs results]. by rewrite !lookup_insert_ne.
Qed.

(** With a limiter that admits and a queue of jobs with ids of their own
    whose handlers return within the hour, one run of the worker completes
    the oldest jobs in the order they were enqueued, [maxRequests] of them or
    all when there are fewer, and leaves the newer ones in the queue; it ends
    on a call that finds the queue empty only when there were fewer than
    [maxRequests].  For each of the jobs it counts the store holds the
    record with the status [completed] and a result its handler returned;
    when the run took less than an hour both are read at its end. *)
Theorem worker_drains_oldest_first w fuel authHeader :
  always_admits →
  bool_decide (authHeader = Some ("Bearer " +:+ default "undefined" CRON_SECRET)) = true →
  pendingExpireAt (kv w) = None →
  Forall returns_in_time (queue_pending (kv w)) →
  NoDup (id <$> queue_pending (kv w)) →
  (length (queue_pending (kv w)) < fuel)%nat →
  let q := reverse (queue_pending (kv w)) in
  let k := Nat.min (length q) (Z.to_nat maxRequests) in
  ∃ w', cronGET fuel authHeader w
        = (Some (Ok (mkSummary (Z.of_nat k) (clock w' - clock w)),
                 ((λ j, Completed (dequeued j)) <$> take k q)
                 ++ (if decide (length q < Z.to_nat maxRequests)%nat then [Stopped] else [])),
           w')
        ∧ queue_pending (kv w') = reverse (drop k q)
        ∧ pendingExpireAt (kv w') = None
        ∧ Forall (completed_in w' (clock w)) (take k q)
        ∧ (clock w' - clock w < 3600 * 1000 → Forall (reads_completed w') (take k q)).
Proof.
  intros Ha Hauth He Hr Hn Hf q k. rewrite (cronGET_authorized _ _ _ Hauth).
  destruct (drainLoop_oldest_first q fuel maxRequests 0 []
              (mkWorld (kv w) (limit "suno-api-stats" (clock w) (rl w)).2 (ext w) (clock w)
                       (console w)) Ha) as (w' & Hd & Hq' & He' & Hc' & Hdone & _).
  - subst q. cbn [kv]. by rewrite reverse_involutive.
  - exact He.
  - subst q. by apply Forall_reverse.
  - subst q. by rewrite fmap_reverse, reverse_Permutation.
  - subst q. by rewrite length_reverse.
  - rewrite Hd. rewrite Z.sub_0_r in *. cbn [clock] in Hdone. exists w'.
    split; [done|]. split; [done|]. split; [done|]. split; [exact Hdone|].
    intros Hshort. eapply Forall_impl; [exact Hdone|]. intros x.
    apply completed_in_reads. lia.
Qed.

(** A run that is not admitted does nothing.  With [maxRequests] at zero or
    below the worker does not call [processNextJob] at all; when the limiter
    denies the first call, that call is the only one.  Either way no job is
    processed and the store is as it was. *)
Theorem worker_without_admission w fuel authHeader :
  bool_decide (authHeader = Some ("Bearer " +:+ default "undefined" CRON_SECRET)) = true →
  let st := (limit "suno-api-stats" (clock w) (rl w)).2 in
  (maxRequests ≤ 0 →
     cronGET fuel authHeader w
     = (Some (Ok (mkSummary 0 0), []), mkWorld (kv w) st (ext w) (clock w) (console w)))
  ∧ (0 < maxRequests → success (limit "suno-api" (clock w) st).1 = false →
     ∃ w', cronGET (S fuel) authHeader w = (Some (Ok (mkSummary 0 0), [Stopped]), w')
           ∧ kv w' = kv w ∧ clock w' = clock w).
Proof.
  intros Hauth st. split.
  - intros Hm. rewrite (cronGET_authorized _ _ _ Hauth).
    rewrite drainLoop_exit by lia. cbn [clock]. by rewrite Z.sub_diag.
  - intros Hm Hs. rewrite (cronGET_authorized _ _ _ Hauth).
    rewrite drainLoop_step by lia.
    match goal with |- context [processNextJob ?w0] =>
      destruct (processNextJob_denied w0 Hs) as [line ->] end.
    cbn [clock app]. rewrite Z.sub_diag. eexists. by split.
Qed.

(** The worker has no handler for a job of another type than [lyrics] and
    [music]: it fails the job with a message that names the type. *)
Lemma unknown_type_always_throws j :
  ¬ known_type j → always_throws j ("Unknown job type: " +:+ type j).
Proof.
  intros Hk job' w Ht _. unfold runHandler. rewrite Ht.
  rewrite !bool_decide_eq_false_2; [by split | |]; intros Heq; apply Hk; [by right | by left].
Qed.

(** One turn of the loop on such a job. *)
Lemma throwing_turn fuel maxJobs processedCount turns w j msg :
  always_admits → always_throws j msg →
  queue_pending (kv w) = [j] → pendingExpireAt (kv w) = None →
  processedCount < maxJobs →
  ∃ line e,
    let w2 := mkWorld (mkKV (<[id j := mkTimed (dequeued j) (clock w + 3600 * 1000)]>
                               (jobs (kv w)))
                            (results (kv w)) (errors (kv w)) [] None)
                      (limit "suno-api" (clock w) (rl w)).2 e (clock w)
                      (console w ++ [(Log, line)]) in
    drainLoop (S fuel) maxJobs processedCount turns w
    = drainLoop fuel maxJobs processedCount (turns ++ [Threw (dequeued j) msg])
        (failJob (id j) msg None w2).2.
Proof.
  intros Ha Ht Hq He Hlt. rewrite (drainLoop_step _ _ _ _ _ Hlt).
  destruct (processNextJob_pop w [] j (Ha _ _ _)) as [line ->];
    [by rewrite live_pending_unexpiring, Hq|].
  match goal with |- context [runHandler (dequeued j) ?w0] => set (w1 := w0) end.
  destruct (Ht (dequeued j) w1 eq_refl eq_refl) as [Hout Hel].
  destruct (runHandler_run (dequeued j) w1) as (run & e & Hrun).
  rewrite Hrun in Hout, Hel |- *. cbn [fst] in Hout, Hel. rewrite Hout, Hel.
  change (Z.of_N 0) with 0. rewrite Z.add_0_r. by exists line, e.
Qed.

Lemma drainLoop_always_throws n : ∀ fuel maxJobs processedCount turns w j msg,
  always_admits → always_throws j msg →
  queue_pending (kv w) = [j] → pendingExpireAt (kv w) = None →
  processedCount < maxJobs → attempts j = 2 - Z.of_nat n → (S n < fuel)%nat →
  ∃ w', drainLoop fuel maxJobs processedCount turns w
        = (Some (processedCount, turns ++ throw_turns n msg j ++ [Stopped]), w')
        ∧ queue_pending (kv w') = [] ∧ pendingExpireAt (kv w') = None
        ∧ clock w' = clock w
        ∧ (kv_get_job (id j) w').1 = Some (exhausted msg (last_attempt n msg j))
        ∧ live (clock w') (errors (kv w') !! id j) = Some msg.
Proof.
  induction n as [|n IH]; intros fuel maxJobs pc turns w j msg Ha Ht Hq He Hlt Hat Hf.
  - destruct fuel as [|fuel]; [lia|].
    destruct (throwing_turn fuel maxJobs pc turns w j msg Ha Ht Hq He Hlt) as (line & e & ->).
    match goal with |- context [failJob (id j) msg None ?w0] => set (w2 := w0) end.
    assert (Hg : live (clock w2) (jobs (kv w2) !! id j) = Some (dequeued j)) by apply live_fresh.
    destruct (failJob_exhausted w2 (id j) msg None (dequeued j) Hg) as [line2 ->];
      [cbn; lia|].
    destruct fuel as [|fuel]; [lia|]. rewrite (drainLoop_step _ _ _ _ _ Hlt). cbn [snd].
    match goal with |- context [processNextJob ?w0] => set (w3 := w0) end.
    rewrite (processNextJob_empty w3 (Ha _ _ _)) by reflexivity.
    eexists. split; [by rewrite <- app_assoc|]. cbn [kv queue_pending pendingExpireAt clock].
    do 3 (split; [reflexivity|]). split.
    + unfold kv_get_job. cbn [fst kv jobs clock]. apply live_fresh.
    + cbn [errors]. apply live_fresh.
  - destruct fuel as [|fuel]; [lia|].
    destruct (throwing_turn fuel maxJobs pc turns w j msg Ha Ht Hq He Hlt) as (line & e & ->).
    match goal with |- context [failJob (id j) msg None ?w0] => set (w2 := w0) end.
    assert (Hg : live (clock w2) (jobs (kv w2) !! id j) = Some (dequeued j)) by apply live_fresh.
    destruct (failJob_retry w2 (id j) msg None (dequeued j) Hg) as [line2 ->];
      [cbn; lia|]. cbn [snd].
    match goal with |- context [drainLoop fuel maxJobs pc _ ?w0] => set (w3 := w0) end.
    destruct (IH fuel maxJobs pc (turns ++ [Threw (dequeued j) msg]) w3
                (retried msg (dequeued j)) msg Ha) as (w' & Hd & Hq' & He' & Hc' & Hg' & Her').
    + intros job' w0 Hty Hpl. by apply Ht.
    + reflexivity.
    + reflexivity.
    + exact Hlt.
    + cbn. lia.
    + lia.
    + exists w'. rewrite Hd, <- app_assoc. by repeat split.
Qed.

(** A job whose handler throws at once every time, alone in the queue and
    not attempted yet, is used up by a single run of the worker when the
    limiter admits: the worker makes three attempts one after the other,
    without any wait in between, then finds the queue empty.  No job is
    reported as processed; the job ends failed, after three attempts, with
    the message of the handler. *)
Theorem throwing_job_is_used_up_in_one_run w j msg fuel authHeader :
  always_admits → always_throws j msg →
  bool_decide (authHeader = Some ("Bearer " +:+ default "undefined" CRON_SECRET)) = true →
  queue_pending (kv w) = [j] → pendingExpireAt (kv w) = None →
  attempts j = 0 → 0 < maxRequests → (3 < fuel)%nat →
  ∃ w' job',
    cronGET fuel authHeader w
    = (Some (Ok (mkSummary 0 0), throw_turns 2 msg j ++ [Stopped]), w')
    ∧ queue_pending (kv w') = []
    ∧ (kv_get_job (id j) w').1 = Some job'
    ∧ status job' = failed ∧ attempts job' = 3 ∧ error job' = Some msg
    ∧ live (clock w') (errors (kv w') !! id j) = Some msg.
Proof.
  intros Ha Ht Hauth Hq He Hat Hm Hf. rewrite (cronGET_authorized _ _ _ Hauth).
  destruct (drainLoop_always_throws 2 fuel maxRequests 0 []
              (mkWorld (kv w) (limit "suno-api-stats" (clock w) (rl w)).2 (ext w) (clock w)
                       (console w)) j msg Ha Ht Hq He Hm)
    as (w' & Hd & Hq' & He' & Hc' & Hg' & Her'); [by rewrite Hat | lia |].
  rewrite Hd. cbn [clock] in Hc'. rewrite Hc', Z.sub_diag.
  exists w', (exhausted msg (last_attempt 2 msg j)). cbn [app].
  repeat split; try done. cbn. lia.
Qed.

End QueueProperties.

(** * Properties of the pollers *)

Section ClientProperties.

Context {L : Limiter} {H : Handlers} {E : Environment} {R : Runtime} {T : Transport}.

Variable meanwhile : Z → M unit.

Implicit Types (w : World) (data : JobStatus).

Lemma fetch_job_run w jobId :
  fetch_job jobId w
  = (match (jobGET jobId w).1 with
     | Ok view => Body (over_the_wire view)
     | Failure code _ => Refused code
     end, w).
Proof.
  unfold fetch_job, mbind, M_bind, mret, M_ret. rewrite jobGET_run. reflexivity.
Qed.

Lemma fetch_job_refused w jobId code :
  (fetch_job jobId w).1 = Refused code → code = 400 ∨ code = 404 ∨ code = 500.
Proof.
  rewrite fetch_job_run, jobGET_run. cbn [fst].
  destruct (bool_decide (jobId = "")); [intros [= <-]; by left|].
  destruct ((getJobStatus jobId w).1) as [[job qp]|]; [|intros [= <-]; right; by left].
  destruct ((completed_result job jobId w).1) as [result|msg]; [discriminate|].
  intros [= <-]. right. by right.
Qed.

Lemma progressLoop_step n jobId intervalMs seen w :
  progressLoop meanwhile (S n) jobId intervalMs seen w
  = match (jobGET jobId w).1 with
    | Failure code _ => ((Thrown (refusal code), seen), w)
    | Ok view =>
        let data := over_the_wire view in
        if bool_decide (s_status data = completed)
        then ((Returned (s_result data), seen ++ [data]), w)
        else if bool_decide (s_status data = failed)
        then ((Thrown (error_or_default (s_error data)), seen ++ [data]), w)
        else progressLoop meanwhile n jobId intervalMs (seen ++ [data]) (meanwhile intervalMs w).2
    end.
Proof.
  cbn [progressLoop]. unfold mbind at 1, M_bind at 1. rewrite fetch_job_run.
  destruct ((jobGET jobId w).1) as [view|code err]; [|reflexivity]. cbv zeta.
  destruct (bool_decide _); [reflexivity|]. destruct (bool_decide _); [reflexivity|].
  unfold mbind, M_bind. by destruct (meanwhile intervalMs w) as [[] w1].
Qed.

Lemma jobGET_failure_code w jobId code err :
  (jobGET jobId w).1 = Failure code err → code = 400 ∨ code = 404 ∨ code = 500.
Proof.
  rewrite jobGET_run. cbn [fst].
  destruct (bool_decide (jobId = "")); [intros [= <- _]; by left|].
  destruct ((getJobStatus jobId w).1) as [[job qp]|]; [|intros [= <- _]; right; by left].
  destruct ((completed_result job jobId w).1) as [result|msg]; [discriminate|].
  intros [= <- _]. right. by right.
Qed.

Lemma poll_end_cons refusal_text timeout n out data answers :
  in_progress data → poll_end refusal_text timeout n out answers →
  poll_end refusal_text timeout (S n) out (data :: answers).
Proof.
  intros Hp [(before & d & -> & Hb & Hl & Hd & Ho) | [(before & d & -> & Hb & Hl & Hd & Ho)
    | [(Hb & Hl & Ho) | (code & Hb & Hl & Hcd & Ho)]]].
  - left. exists (data :: before), d. repeat split; [by constructor | cbn; lia | done..].
  - right. left. exists (data :: before), d. repeat split; [by constructor | cbn; lia | done..].
  - right. right. left. repeat split; [by constructor | cbn; lia | done].
  - right. right. right. exists code. repeat split; [by constructor | cbn; lia | done..].
Qed.

Lemma progressLoop_ends n : ∀ jobId intervalMs seen w,
  ∃ out answers w',
    progressLoop meanwhile n jobId intervalMs seen w = ((out, seen ++ answers), w')
    ∧ poll_end refusal "Job timeout" n out answers.
Proof.
  induction n as [|n IH]; intros jobId ms seen w.
  { exists (Thrown "Job timeout"), [], w. rewrite app_nil_r. split; [reflexivity|].
    right. right. left. by repeat split. }
  rewrite progressLoop_step. pose proof (jobGET_failure_code w jobId) as Hcode.
  destruct ((jobGET jobId w).1) as [view|code err].
  2:{ exists (Thrown (refusal code)), [], w. rewrite app_nil_r. split; [reflexivity|].
      right. right. right. exists code.
      repeat split; [constructor | cbn; lia | by eapply Hcode]. }
  cbv zeta. set (data := over_the_wire view).
  destruct (bool_decide_reflect (s_status data = completed)) as [Hc|Hc].
  { exists (Returned (s_result data)), [data], w. split; [reflexivity|]. left.
    exists [], data. repeat split; [constructor | cbn; lia | done]. }
  destruct (bool_decide_reflect (s_status data = failed)) as [Hf|Hf].
  { exists (Thrown (error_or_default (s_error data))), [data], w. split; [reflexivity|].
    right. left. exists [], data. repeat split; [constructor | cbn; lia | done]. }
  assert (Hp : in_progress data) by (unfold in_progress; destruct (s_status data); tauto).
  destruct (IH jobId ms (seen ++ [data]) (meanwhile ms w).2) as (out & answers & w' & -> & Hend).
  exists out, (data :: answers), w'. split; [by rewrite <- app_assoc|].
  by apply poll_end_cons.
Qed.

(** [pollJobWithProgress] asks at most [maxAttempts] times (60 when left
    out; not at all when the number is zero or negative) and ends in one
    of four ways.  It returns the result of the first status that is
    completed; it throws the error of the first status that is failed; it
    throws the timeout after [maxAttempts] statuses that are all pending or
    processing; or it throws on the first response that is not a 200.  The
    callback has been called with each status up to the one that ended the
    loop, and with nothing after it. *)
Theorem pollJobWithProgress_ends w jobId maxAttempts intervalMs :
  let out := (pollJobWithProgress meanwhile jobId maxAttempts intervalMs w).1 in
  poll_end refusal "Job timeout" (Z.to_nat (default 60 maxAttempts)) out.1 out.2
  ∧ (default 60 maxAttempts ≤ 0 →
     pollJobWithProgress meanwhile jobId maxAttempts intervalMs w
     = ((Thrown "Job timeout", []), w)).
Proof.
  intros out. subst out. unfold pollJobWithProgress. split.
  - destruct (progressLoop_ends (Z.to_nat (default 60 maxAttempts)) jobId
                (default 2000 intervalMs) [] w) as (out & answers & w' & -> & Hend).
    exact Hend.
  - intros Hle. by replace (Z.to_nat (default 60 maxAttempts)) with 0%nat by lia.
Qed.

Lemma untilLoop_step n attempt maxAttempts jobId intervalMs lines w :
  untilLoop meanwhile (S n) attempt maxAttempts jobId intervalMs lines w
  = match (jobGET jobId w).1 with
    | Failure code _ => ((Thrown (refusal code), lines), w)
    | Ok view =>
        let data := over_the_wire view in
        let lines := lines ++ [status_line jobId attempt maxAttempts data] in
        if bool_decide (s_status data = completed)
        then ((Returned (s_result data), lines ++ [(Log, "✅ Job completed successfully")]), w)
        else if bool_decide (s_status data = failed)
        then ((Thrown (error_or_default (s_error data)),
               lines ++ [(Error, "❌ Job failed: " +:+ error_or_default (s_error data))]), w)
        else untilLoop meanwhile n (attempt + 1) maxAttempts jobId intervalMs lines
               (meanwhile intervalMs w).2
    end.
Proof.
  cbn [untilLoop]. unfold mbind at 1, M_bind at 1. rewrite fetch_job_run.
  destruct ((jobGET jobId w).1) as [view|code err]; [|reflexivity]. cbv zeta.
  destruct (bool_decide _); [reflexivity|]. destruct (bool_decide _); [reflexivity|].
  unfold mbind, M_bind. by destruct (meanwhile intervalMs w) as [[] w1].
Qed.

Lemma loops_agree n : ∀ attempt maxAttempts jobId intervalMs lines seen w,
  (untilLoop meanwhile n attempt maxAttempts jobId intervalMs lines w).2
  = (progressLoop meanwhile n jobId intervalMs seen w).2
  ∧ same_outcome (untilLoop meanwhile n attempt maxAttempts jobId intervalMs lines w).1.1
                 (progressLoop meanwhile n jobId intervalMs seen w).1.1.
Proof.
  induction n as [|n IH]; intros attempt maxAttempts jobId ms lines seen w.
  { split; [reflexivity|]. right. by split. }
  rewrite untilLoop_step, progressLoop_step.
  destruct ((jobGET jobId w).1) as [view|code err]; [|split; [reflexivity | by left]].
  cbv zeta. destruct (bool_decide _); [split; [reflexivity | by left]|].
  destruct (bool_decide _); [split; [reflexivity | by left]|]. apply IH.
Qed.

(** [pollJobUntilComplete] asks the same questions as [pollJobWithProgress]
    and comes to the same end: the same value returned or the same error
    thrown, but for the timeout, which it words differently. *)
Theorem pollers_agree w jobId maxAttempts intervalMs :
  (pollJobUntilComplete meanwhile jobId maxAttempts intervalMs w).2
  = (pollJobWithProgress meanwhile jobId maxAttempts intervalMs w).2
  ∧ same_outcome (pollJobUntilComplete meanwhile jobId maxAttempts intervalMs w).1.1
                 (pollJobWithProgress meanwhile jobId maxAttempts intervalMs w).1.1.
Proof. apply loops_agree. Qed.

(** A poller started after [completeJob] returns the result that was passed
    to it, on its first question: what the worker stored is what the client
    gets. *)
Theorem poll_returns_completed_result w jobId job result maxAttempts intervalMs :
  jobId ≠ "" → (kv_get_job jobId w).1 = Some job →
  truthy (Some result) = true → (∀ text, result ≠ JStr text) →
  0 < default 60 maxAttempts →
  let w' := (completeJob jobId result w).2 in
  ∃ data,
    pollJobWithProgress meanwhile jobId maxAttempts intervalMs w'
    = ((Returned (Some result), [data]), w')
    ∧ s_status data = completed ∧ s_result data = Some result
    ∧ (pollJobUntilComplete meanwhile jobId maxAttempts intervalMs w').1.1
      = Returned (Some result)
    ∧ (pollJobUntilComplete meanwhile jobId maxAttempts intervalMs w').2 = w'.
Proof.
  intros Hid Hg Ht Hs Hm w'. subst w'.
  pose proof (jobGET_after_complete w jobId job result Hid Hg Ht Hs) as Hv.
  unfold pollJobWithProgress, pollJobUntilComplete.
  destruct (Z.to_nat (default 60 maxAttempts)) as [|n] eqn:Hn; [lia|].
  rewrite progressLoop_step, untilLoop_step, Hv. cbv zeta.
  cbn [over_the_wire s_status v_status s_result v_result].
  rewrite bool_decide_eq_true_2 by reflexivity. eexists. by repeat split.
Qed.

(** A poller started after the last failure of a job throws the message the
    job failed with ('Job failed' when the message is empty); a poller asked
    about a job without record throws 'Job not found'.  Either way it asks
    once. *)
Theorem poll_throws_for_failed_or_unknown_job w jobId maxAttempts intervalMs :
  jobId ≠ "" → 0 < default 60 maxAttempts →
  (∀ job msg, (kv_get_job jobId w).1 = Some job → 3 ≤ attempts job →
     let w' := (failJob jobId msg None w).2 in
     ∃ data,
       pollJobWithProgress meanwhile jobId maxAttempts intervalMs w'
       = ((Thrown (if bool_decide (msg = "") then "Job failed" else msg), [data]), w')
       ∧ s_status data = failed)
  ∧ ((kv_get_job jobId w).1 = None →
     pollJobWithProgress meanwhile jobId maxAttempts intervalMs w
     = ((Thrown "Job not found", []), w)).
Proof.
  intros Hid Hm. unfold pollJobWithProgress.
  destruct (Z.to_nat (default 60 maxAttempts)) as [|n] eqn:Hn; [lia|]. split.
  - intros job msg Hg Ha. cbv zeta.
    rewrite progressLoop_step, (jobGET_after_last_failure w jobId job msg Hid Hg Ha).
    cbv zeta. cbn [over_the_wire s_status v_status s_error v_error].
    rewrite bool_decide_eq_false_2 by discriminate.
    rewrite bool_decide_eq_true_2 by reflexivity.
    assert (He : error_or_default (Some (if bool_decide (msg = "") then "Job failed" else msg))
                 = (if bool_decide (msg = "") then "Job failed" else msg)).
    { unfold error_or_default.
      destruct (bool_decide_reflect (msg = "")) as [-> | Hne]; [reflexivity|].
      by rewrite (bool_decide_eq_false_2 _ Hne). }
    rewrite He. eexists. split; reflexivity.
  - intros Hg. rewrite progressLoop_step, jobGET_run, (bool_decide_eq_false_2 _ Hid).
    unfold getJobStatus, mbind, M_bind, kv_get_job in *. cbn [fst] in *. by rewrite Hg.
Qed.

End ClientProperties.

(** * Properties of the fallback filter *)

Section FallbackProperties.

Context {U : Unicode}.

Lemma strip_prefix_app p s rest : strip_prefix p s = Some rest → s = p +:+ rest.
Proof.
  revert s. induction p as [|a p IH]; intros s; simpl.
  - by intros [= ->].
  - destruct s as [|b s]; [discriminate|].
    case_bool_decide as Hab; [|discriminate]. subst b.
    intros Hs. by rewrite (IH _ Hs).
Qed.

Lemma strip_prefix_here p rest : strip_prefix p (p +:+ rest) = Some rest.
Proof.
  induction p as [|a p IH]; simpl; [done|].
  by rewrite bool_decide_eq_true_2.
Qed.

Lemma match_letter_app l s a rest :
  match_letter l s = Some (a, rest) → a ∈ l ∧ s = a +:+ rest.
Proof.
  induction l as [|b l IH]; simpl; [discriminate|].
  destruct (strip_prefix b s) as [r|] eqn:Hb.
  - intros [= <- <-]. split; [left|]. by apply strip_prefix_app.
  - intros Hl. destruct (IH Hl) as [Hin Hs]. split; [by right|done].
Qed.

Lemma regex_test_later pat before pre s :
  regex_test pat (last_byte pre before) s = true →
  regex_test pat before (pre +:+ s) = true.
Proof.
  revert before. induction pre as [|a pre IH]; intros before; simpl; [done|].
  intros Hs. apply orb_true_iff. right. by apply IH.
Qed.

Lemma regex_test_here pat before s :
  matches_here pat before s = true → regex_test pat before s = true.
Proof. intros Hm. destruct s; simpl; by rewrite Hm. Qed.

Lemma boundary_after_word a next :
  word_char a = true → from_option word_char false next = false →
  boundary (Some a) next = true.
Proof. unfold boundary. simpl. by intros -> ->. Qed.

Lemma boundary_before_word before a :
  from_option word_char false before = false → word_char a = true →
  boundary before (Some a) = true.
Proof. unfold boundary. simpl. by intros -> ->. Qed.

Ltac caught_here :=
  unfold matches_here; apply andb_true_iff; split;
  [ by apply boundary_before_word
  | simpl; by apply boundary_after_word ].

Lemma caught_word_matches w before post :
  w ∈ caught_words →
  from_option word_char false before = false →
  from_option word_char false (head_byte post) = false →
  ∃ pat, pat ∈ ending_in_a_letter ∧ matches_here pat before (w +:+ post) = true.
Proof.
  intros Hw Hb Hp. unfold caught_words in Hw.
  repeat (apply elem_of_cons in Hw as [->|Hw]); [..|by apply elem_of_nil in Hw].
  - exists (ascii_letters "pula"). split; [apply list_elem_of_In; simpl; tauto|].
    caught_here.
  - exists (ascii_letters "pizda"). split; [apply list_elem_of_In; simpl; tauto|].
    caught_here.
  - exists (ascii_letters "fut"). split; [apply list_elem_of_In; simpl; tauto|].
    caught_here.
  - exists (ascii_letters "muie"). split; [apply list_elem_of_In; simpl; tauto|].
    caught_here.
  - exists (ascii_letters "cacat"). split; [apply list_elem_of_In; simpl; tauto|].
    caught_here.
  - exists (ascii_letters "c" ++ [a_breve] ++ ascii_letters "cat"). split; [apply list_elem_of_In; simpl; tauto|].
    caught_here.
Qed.

Lemma ending_in_a_letter_listed pat :
  pat ∈ ending_in_a_letter → pat ∈ CRITICAL_PROFANITY.
Proof.
  unfold ending_in_a_letter, CRITICAL_PROFANITY. intros Hin.
  repeat (apply elem_of_cons in Hin as [->|Hin]); [..|by apply elem_of_nil in Hin];
    apply list_elem_of_In; simpl; tauto.
Qed.

(** A word of the list that ends in a letter of ASCII is caught where it
    stands on its own: at the start of the lower-cased text or after a
    character that is no letter of ASCII, digit or underscore, and at the
    end of the text or before such a character. *)
Theorem word_on_its_own_is_caught text pre w post :
  text ≠ "" →
  toLowerCase text = pre +:+ w +:+ post →
  w ∈ caught_words →
  from_option word_char false (last_byte pre None) = false →
  from_option word_char false (head_byte post) = false →
  containsProfanityFallback text = true.
Proof.
  intros Ht Hl Hw Hb Hp. unfold containsProfanityFallback.
  rewrite bool_decide_eq_false_2 by done. cbv zeta. rewrite Hl.
  destruct (caught_word_matches w _ post Hw Hb Hp) as (pat & Hin & Hm).
  apply existsb_exists. exists pat. split.
  - apply list_elem_of_In. by apply ending_in_a_letter_listed.
  - apply regex_test_later. by apply regex_test_here.
Qed.

Lemma breve_last_not_word a before :
  a ∈ a_breve → from_option word_char false (last_byte a before) = false.
Proof.
  unfold a_breve. intros Ha.
  repeat (apply elem_of_cons in Ha as [->|Ha]); [done..|by apply elem_of_nil in Ha].
Qed.

Lemma breve_then_word_app pre s :
  breve_then_word s = true → breve_then_word (pre +:+ s) = true.
Proof.
  intros Hs. induction pre as [|a pre IH]; [done|].
  change (String a pre +:+ s) with (String a (pre +:+ s)).
  cbn [breve_then_word]. rewrite IH. apply orb_true_r.
Qed.

Lemma word_chars_app pre s : word_chars (pre +:+ s) = word_chars pre && word_chars s.
Proof.
  induction pre as [|a pre IH]; [done|].
  change (String a pre +:+ s) with (String a (pre +:+ s)).
  cbn [word_chars]. rewrite IH. apply andb_assoc.
Qed.

Lemma breve_not_word_chars a : a ∈ a_breve → word_chars a = false.
Proof.
  unfold a_breve. intros Ha.
  repeat (apply elem_of_cons in Ha as [->|Ha]); [done..|by apply elem_of_nil in Ha].
Qed.

Lemma match_letters_breve_end w before s last rest :
  match_letters (w ++ [a_breve]) before s = Some (last, rest) →
  from_option word_char false last = false
  ∧ (from_option word_char false (head_byte rest) = true → breve_then_word s = true).
Proof.
  revert before s. induction w as [|l w IH]; intros before s.
  - cbn [app match_letters].
    destruct (match_letter a_breve s) as [[a r]|] eqn:Hm; [|discriminate].
    intros [= <- <-]. destruct (match_letter_app _ _ _ _ Hm) as [Ha Hs].
    split; [by apply breve_last_not_word|].
    intros Hr. destruct s as [|x s'].
    + exfalso. unfold a_breve in Ha.
      repeat (apply elem_of_cons in Ha as [->|Ha]); [discriminate..|by apply elem_of_nil in Ha].
    + cbn [breve_then_word]. rewrite Hm.
      destruct r as [|c r']; [discriminate|]. simpl in Hr. by rewrite Hr.
  - cbn [app match_letters].
    destruct (match_letter l s) as [[a r]|] eqn:Hm; [|discriminate].
    intros Hw. destruct (IH _ _ Hw) as [Hl Hr]. split; [done|].
    intros Hh. destruct (match_letter_app _ _ _ _ Hm) as [_ ->].
    by apply breve_then_word_app, Hr.
Qed.

Lemma accented_entry_test w before s :
  regex_test (w ++ [a_breve]) before s = true → breve_then_word s = true.
Proof.
  assert (Hhere : ∀ before s,
    matches_here (w ++ [a_breve]) before s = true → breve_then_word s = true).
  { clear. intros before s. unfold matches_here. intros [_ Hm]%andb_true_iff.
    destruct (match_letters _ before s) as [[last rest]|] eqn:Hl; [|discriminate].
    destruct (match_letters_breve_end _ _ _ _ _ Hl) as [Hlast Hrest].
    apply Hrest. unfold boundary in Hm. by rewrite Hlast in Hm. }
  revert before. induction s as [|a s IH]; intros before; cbn [regex_test].
  - rewrite orb_false_r. apply Hhere.
  - intros [Hm|Hs]%orb_true_iff; [by apply (Hhere before)|].
    cbn [breve_then_word]. rewrite (IH _ Hs). apply orb_true_r.
Qed.

(** The entries that end in a-breve match only where a letter of ASCII, a
    digit or an underscore follows the word directly: the byte before the
    closing [\b] is no word character, so a word character has to come
    after it.  In a text where nothing of the kind follows an a-breve the
    filter answers as if the list had the six other entries only. *)
Theorem accented_entries_are_dead text :
  breve_then_word (toLowerCase text) = false →
  containsProfanityFallback text
  = bool_decide (text ≠ "")
    && existsb (λ pat, regex_test pat None (toLowerCase text)) ending_in_a_letter.
Proof.
  intros Hb. unfold containsProfanityFallback.
  case_bool_decide as Ht.
  - by rewrite bool_decide_eq_false_2 by (by intros ?).
  - rewrite bool_decide_eq_true_2 by done. cbv zeta.
    unfold CRITICAL_PROFANITY, ending_in_a_letter. cbn [existsb andb].
    assert (Hdead : ∀ w, regex_test (w ++ [a_breve]) None (toLowerCase text) = false).
    { intros w. destruct (regex_test _ None _) eqn:Hr; [|done].
      apply accented_entry_test in Hr. congruence. }
    by rewrite !Hdead.
Qed.

Lemma match_letters_ascii w before s last rest :
  match_letters (ascii_letters w) before s = Some (last, rest) →
  word_chars s = true →
  String.length s = (String.length w + String.length rest)%nat
  ∧ word_chars rest = true
  ∧ (w ≠ "" → from_option word_char false last = true).
Proof.
  revert before s. induction w as [|a w IH]; intros before s.
  - cbn [ascii_letters match_letters]. by intros [= <- <-] Hs.
  - cbn [ascii_letters match_letters].
    destruct (match_letter _ s) as [[x r]|] eqn:Hm; [|discriminate].
    intros Hw Hs. destruct (match_letter_app _ _ _ _ Hm) as [Hx ->].
    rewrite word_chars_app in Hs. apply andb_true_iff in Hs as [Hxw Hr].
    destruct (IH _ _ Hw Hr) as (Hlen & Hrest & Hlast).
    assert (Hone : ∃ c, x = String c "").
    { repeat (apply elem_of_cons in Hx as [->|Hx]); [by eexists..|by apply elem_of_nil in Hx]. }
    destruct Hone as [c ->]. split; [change (String c "" +:+ r) with (String c r); simpl; lia|]. split; [done|].
    intros _. destruct w as [|b w]; [|by apply Hlast].
    cbn [ascii_letters match_letters] in Hw. injection Hw as <- <-.
    simpl. simpl in Hxw. by rewrite andb_true_r in Hxw.
Qed.

Lemma match_letters_breve_inside p1 p2 before s :
  word_chars s = true → match_letters (p1 ++ a_breve :: p2) before s = None.
Proof.
  revert before s. induction p1 as [|l p1 IH]; intros before s Hs.
  - cbn [app match_letters].
    destruct (match_letter a_breve s) as [[a r]|] eqn:Hm; [|done].
    destruct (match_letter_app _ _ _ _ Hm) as [Ha ->].
    rewrite word_chars_app, (breve_not_word_chars a Ha) in Hs. discriminate.
  - cbn [app match_letters].
    destruct (match_letter l s) as [[a r]|] eqn:Hm; [|done].
    destruct (match_letter_app _ _ _ _ Hm) as [_ ->].
    rewrite word_chars_app in Hs. apply andb_true_iff in Hs as [_ Hr].
    by apply IH.
Qed.

Lemma listed_cases (P : list Letter → Prop) :
  (∀ w, w ≠ "" → (String.length w ≤ 5)%nat → P (ascii_letters w)) →
  (∀ p1 p2, P (p1 ++ a_breve :: p2)) →
  ∀ pat, pat ∈ CRITICAL_PROFANITY → P pat.
Proof.
  intros Hascii Hbreve pat Hin. unfold CRITICAL_PROFANITY in Hin.
  repeat (apply elem_of_cons in Hin as [->|Hin]); [..|by apply elem_of_nil in Hin];
    first [ apply Hbreve | apply Hascii; [done | simpl; lia] ].
Qed.

Lemma no_match_after_a_word_character pat b s :
  pat ∈ CRITICAL_PROFANITY → word_char b = true → word_chars s = true →
  regex_test pat (Some b) s = false.
Proof.
  intros Hin. revert b. induction s as [|a s IH]; intros b Hb Hs.
  - cbn [regex_test]. rewrite orb_false_r. unfold matches_here.
    apply andb_false_iff. right. revert pat Hin. apply listed_cases.
    + intros w Hw _. by destruct w.
    + intros p1 p2. by rewrite match_letters_breve_inside.
  - cbn [word_chars] in Hs. apply andb_true_iff in Hs as [Ha Hs].
    cbn [regex_test]. rewrite (IH _ Ha Hs), orb_false_r.
    unfold matches_here, boundary. simpl. by rewrite Hb, Ha.
Qed.

Lemma no_match_of_a_prefix pat s :
  pat ∈ CRITICAL_PROFANITY → word_chars s = true → (5 < String.length s)%nat →
  matches_here pat None s = false.
Proof.
  intros Hin Hs Hlen. unfold matches_here. apply andb_false_iff. right.
  revert pat Hin. apply listed_cases.
  - intros w Hw Hw5.
    destruct (match_letters _ None s) as [[last rest]|] eqn:Hm; [|done].
    destruct (match_letters_ascii _ _ _ _ _ Hm Hs) as (Hl & Hrest & Hlast).
    destruct rest as [|c rest]; [simpl in Hl; lia|].
    cbn [word_chars] in Hrest. apply andb_true_iff in Hrest as [Hc _].
    unfold boundary. simpl. by rewrite (Hlast Hw), Hc.
  - intros p1 p2. by rewrite match_letters_breve_inside.
Qed.

(** The word boundaries keep the filter from matching inside a longer word:
    a lower-cased text that is one run of more than five letters of ASCII,
    digits and underscores is never flagged, whatever it contains. *)
Theorem no_match_inside_a_longer_word text :
  word_chars (toLowerCase text) = true →
  (5 < String.length (toLowerCase text))%nat →
  containsProfanityFallback text = false.
Proof.
  intros Hs Hlen. unfold containsProfanityFallback.
  case_bool_decide as Ht; [done|]. cbv zeta.
  destruct (existsb _ _) eqn:He; [|done].
  apply existsb_exists in He as (pat & Hin%list_elem_of_In & Hr).
  destruct (toLowerCase text) as [|a s]; [simpl in Hlen; lia|].
  cbn [regex_test] in Hr.
  rewrite (no_match_of_a_prefix pat _ Hin Hs Hlen) in Hr.
  cbn [word_chars] in Hs. apply andb_true_iff in Hs as [Ha Hs].
  by rewrite (no_match_after_a_word_character pat a s Hin Ha Hs) in Hr.
Qed.

End FallbackProperties.

(** * Properties of the diacritics route *)

Section DiacriticsProperties.

Lemma not_blank_not_empty s : blank s = false → s ≠ "".
Proof. by intros Hb ->. Qed.

(** Lyrics in a language other than Romanian are sent back as they came,
    untrimmed, whether or not a key is configured and without a call of the
    completion. *)
Theorem other_language_is_left_alone key complete body text :
  body ≠ JNull →
  prop "lyrics" body = Some (JStr text) → blank text = false →
  is_string "ro" (prop "language" body) = false →
  diacriticsPOST key complete body = Lyrics text.
Proof.
  intros Hbody Hl Hb Hro. unfold diacriticsPOST.
  rewrite (is_null_false _ Hbody), Hl.
  assert (Ht : trim_test (Some (JStr text)) = Present text).
  { unfold trim_test. destruct text; [done|]. simpl truthy. cbn [negb]. by rewrite Hb. }
  by rewrite Ht, Hro.
Qed.

(** The route never sends blank lyrics, and of the three failures in its
    code it sends two: a completion that fails leaves the request without a
    response. *)
Theorem diacritics_responses key complete body :
  match diacriticsPOST key complete body with
  | Lyrics lyrics => lyrics ≠ ""
  | NoLyrics code error =>
      (code = 400 ∧ error = "Lyrics are required")
      ∨ (code = 500 ∧ error = "OpenAI API key is not configured"
         ∧ (key = None ∨ key = Some ""))
  | Rejected => True
  end.
Proof.
  unfold diacriticsPOST. destruct (is_null body); [done|].
  destruct (trim_test (prop "lyrics" body)) as [|text|] eqn:Ht; [by left| |done].
  apply trim_test_Present in Ht as [_ Hb%not_blank_not_empty].
  destruct (negb _); [done|].
  destruct key as [[|k key]|]; [right; by auto| |right; by auto].
  destruct (complete text) as [[[|c corrected]|]|]; done.
Qed.

End DiacriticsProperties.

(** * Runs on the sample worlds *)

(** C1. The position [getJobStatus] reports is one more than the index in the
    list [lrange] returns, whose index [0] is the entry pushed last.  After
    [A] and then [B] were enqueued, [A] is the job [processNextJob] hands out
    next, and its position is 2; position 1 is that of [B], which was
    enqueued last. *)
Theorem next_job_is_not_at_position_one :
  (processNextJob world_AB).1 = Some (dequeued jobA)
  ∧ (getJobStatus (id jobA) world_AB).1 = Some (jobA, Some 2)
  ∧ (getJobStatus (id jobB) world_AB).1 = Some (jobB, Some 1)
  ∧ (getJobQueuePosition "job:1000:zzzzzzzzz" world_AB).1 = None.
Proof. vm_compute. repeat split. Qed.

(** [processNextJob] on the world where [A] and [B] wait: the limiter admits
    and [A], the older one, is handed out. *)
Lemma processNextJob_admission_witness :
  success (limit "suno-api" (clock world_AB) (rl world_AB)).1 = true
  ∧ live_pending (clock world_AB) (kv world_AB) = [jobB] ++ [jobA]
  ∧ (processNextJob world_AB).1 = Some (dequeued jobA)
  ∧ live_pending (clock (processNextJob world_AB).2) (kv (processNextJob world_AB).2) = [jobB].
Proof.
  assert (Hs : success (limit "suno-api" (clock world_AB) (rl world_AB)).1 = true)
    by (vm_compute; reflexivity).
  assert (He : live_pending (clock world_AB) (kv world_AB) = [jobB] ++ [jobA])
    by (vm_compute; reflexivity).
  pose proof (proj2 (proj2 (processNextJob_admission world_AB)) Hs [jobB] jobA He)
    as (Hout & _ & _ & Hl & _).
  exact (conj Hs (conj He (conj Hout Hl))).
Defined.


(** [A] fails after its first attempt: with the default of three retries it
    goes behind [B]; with [maxRetries = 1] it is failed for good. *)
Lemma failJob_retry_or_fail_witness :
  (kv_get_job (id jobA) world_processing).1 = Some (dequeued jobA)
  ∧ attempts (dequeued jobA) < 3
  ∧ (pops 2 (failJob (id jobA) "Suno API request failed: 500 " None world_processing).2).1
    = [jobB; retried "Suno API request failed: 500 " (dequeued jobA)]
  ∧ (kv_get_job (id jobA)
       (failJob (id jobA) "Suno API request failed: 500 " (Some 1) world_processing).2).1
    = Some (exhausted "Suno API request failed: 500 " (dequeued jobA)).
Proof.
  assert (Hg : (kv_get_job (id jobA) world_processing).1 = Some (dequeued jobA))
    by (vm_compute; reflexivity).
  assert (Hlt : attempts (dequeued jobA) < 3) by (vm_compute; reflexivity).
  assert (Hge : 1 ≤ attempts (dequeued jobA)) by (vm_compute; discriminate).
  pose proof (proj1 (failJob_retry_or_fail world_processing (id jobA)
                       "Suno API request failed: 500 " None (dequeued jobA) Hg) Hlt)
    as (_ & _ & _ & _ & Hp).
  pose proof (proj2 (failJob_retry_or_fail world_processing (id jobA)
                       "Suno API request failed: 500 " (Some 1) (dequeued jobA) Hg) Hge)
    as (Hr & _).
  exact (conj Hg (conj Hlt (conj Hp Hr))).
Defined.

(** The record of [A] has expired when its handler reports back. *)
Lemma missing_job_is_noop_witness :
  (kv_get_job (id jobA) world_expired).1 = None
  ∧ kv (completeJob (id jobA) (JObj []) world_expired).2 = kv world_expired
  ∧ kv (failJob (id jobA) "Suno API request failed: 500 " None world_expired).2
    = kv world_expired.
Proof.
  assert (Hg : (kv_get_job (id jobA) world_expired).1 = None) by (vm_compute; reflexivity).
  pose proof (missing_job_is_noop world_expired (id jobA) Hg (JObj [])
                "Suno API request failed: 500 " None) as [Hc Hf].
  split; [exact Hg|]. split; [exact (f_equal (λ r, kv r.2) Hc) | exact (f_equal (λ r, kv r.2) Hf)].
Defined.

(** A failure reported for [A] after it completed: the completed job is
    stored as pending and pushed on the list again. *)
Lemma transitions_ignore_status_witness :
  let done :=
    mkJob "job:1000:aaaaaaaaa" (JStr "anonymous") "music" (JObj []) completed 1000 1 None in
  (kv_get_job (id jobA) world_done).1 = Some done
  ∧ ∃ stored,
      (kv_get_job (id jobA) (failJob (id jobA) "late failure" None world_done).2).1
      = Some stored
      ∧ status stored = pending
      ∧ error stored = Some "late failure"
      ∧ live_pending (clock world_done)
          (kv (failJob (id jobA) "late failure" None world_done).2)
        = [stored].
Proof.
  intros done.
  assert (Hg : (kv_get_job (id jobA) world_done).1 = Some done) by (vm_compute; reflexivity).
  assert (Hlt : attempts done < default 3 None) by (vm_compute; reflexivity).
  split; [exact Hg|].
  destruct (proj2 (transitions_ignore_status world_done (id jobA) done Hg)
              "late failure" None Hlt) as (stored & Hr & Hs & He & _ & Hl).
  exact (ex_intro _ stored (conj Hr (conj Hs (conj He Hl)))).
Defined.

(** The entry of [A] outlives its record: [processNextJob] hands [A] out and
    writes the record anew. *)
Lemma processNextJob_reads_no_record_witness :
  (kv_get_job (id jobA) world_expired).1 = None
  ∧ (processNextJob world_expired).1 = Some (dequeued jobA)
  ∧ (kv_get_job (id jobA) (processNextJob world_expired).2).1 = Some (dequeued jobA).
Proof.
  assert (Hs : success (limit "suno-api" (clock world_expired) (rl world_expired)).1 = true)
    by (vm_compute; reflexivity).
  assert (He : live_pending (clock world_expired) (kv world_expired) = [] ++ [jobA])
    by (vm_compute; reflexivity).
  pose proof (proj1 (processNextJob_reads_no_record world_expired [] jobA Hs He)
                (jobs (kv world_expired))) as (Ho & _ & Hg).
  split; [vm_compute; reflexivity | exact (conj Ho Hg)].
Defined.

Section Runs.

#[local] Existing Instance default_env.
#[local] Existing Instance strict_runtime.

(** C5 as stated fails: with [RATE_LIMIT_MAX_REQUESTS=1] and one job whose
    handler throws, the worker calls [processNextJob] twice, once for the job
    and once more to be refused by the limiter, and reports no job as
    processed. *)
Lemma worker_calls_processNextJob_twice :
  @maxRequests one_request_env = 1
  ∧ (@cronGET limiter1 throwing_handlers one_request_env 5 (Some "Bearer s3cret")
       world_throwing).1
    = Some (Ok (mkSummary 0 0),
            [Threw (dequeued jobA) "Suno API request failed: 500 "; Stopped])
  ∧ ¬ (Z.of_nat (length [Threw (dequeued jobA) "Suno API request failed: 500 "; Stopped])
       ≤ @maxRequests one_request_env).
Proof.
  split; [reflexivity|]. split; [vm_compute; reflexivity|]. vm_compute. by intros Hle.
Qed.

(** The same run, through the theorem. *)
Lemma worker_run_witness :
  (drain_fuel world_throwing ≤ 5)%nat
  ∧ ∃ reply turns w',
      @cronGET limiter1 throwing_handlers one_request_env 5 (Some "Bearer s3cret")
        world_throwing = (Some (reply, turns), w')
      ∧ reply = Ok (mkSummary (count_turns is_completed turns) (clock w' - clock world_throwing))
      ∧ stopped_only_last turns = true.
Proof.
  assert (Hf : (drain_fuel world_throwing ≤ 5)%nat) by (vm_compute; lia).
  split; [exact Hf|].
  destruct (@worker_run limiter1 throwing_handlers one_request_env world_throwing
              (Some "Bearer s3cret") 5 Hf) as (reply & turns & w' & Hrun & Hrest).
  change (bool_decide (Some "Bearer s3cret"
                       = Some ("Bearer " +:+ default "undefined" (@CRON_SECRET one_request_env))))
    with true in Hrest.
  destruct Hrest as (Hreply & Hso & _).
  exact (ex_intro _ reply (ex_intro _ turns (ex_intro _ w' (conj Hrun (conj Hreply Hso))))).
Defined.

(** C6 as stated fails: a job that waits for its retry is pending and has a
    queue position, and the response carries no estimate. *)
Lemma retry_has_no_estimate :
  (jobGET (id jobA) world_retry).1
  = Ok (mkView (id jobA) pending "music" 1000 1 3 None None (Some 1) None
               (Some "Retrying... (attempt 2/3)")).
Proof. vm_compute. reflexivity. Qed.

(** [A] at position 2 of 20 requests per run: one interval. *)
Lemma pending_estimate_witness :
  (getJobStatus (id jobA) world_AB).1 = Some (jobA, Some 2)
  ∧ ∃ view, (jobGET (id jobA) world_AB).1 = Ok view
            ∧ v_queuePosition view = Some 2
            ∧ v_estimatedWaitSeconds view = Some (Finite 60)
            ∧ v_message view
              = Some "Your music is in the queue at position 2. Estimated wait: 60s".
Proof.
  assert (Hid : id jobA ≠ "") by discriminate.
  assert (Hst : (getJobStatus (id jobA) world_AB).1 = Some (jobA, Some 2))
    by (vm_compute; reflexivity).
  split; [exact Hst|].
  destruct (pending_estimate world_AB (id jobA) jobA 2 Hid Hst)
    as (view & Hv & _ & Hq & Hest & Hmsg & _).
  exact (ex_intro _ view (conj Hv (conj Hq (conj Hest Hmsg)))).
Defined.

(** C7 as stated fails: a submission that names a type the queue does not
    know is not rejected; the lyrics route ignores the field and enqueues a
    job of type [lyrics]. *)
Lemma unknown_type_is_not_rejected :
  let body := JObj [("story", JStr "A day at the sea"); ("type", JStr "video")] in
  let out := lyricsPOST "rrrrrrrrr" body world0 in
  prop "type" body = Some (JStr "video")
  ∧ out.1 = Ok (mkEnqueued "job:1000:rrrrrrrrr"
                  "Lyrics generation job enqueued. Check status with /api/job/{jobId}")
  ∧ type <$> live_pending (clock out.2) (kv out.2) = ["lyrics"].
Proof. vm_compute. repeat split. Qed.

(** A submission without story and one without request body are rejected;
    a story is accepted as a lyrics job, and the answer is the same when the
    body names a type of its own. *)
Lemma enqueue_routes_fix_the_type_witness :
  let story := JObj [("story", JStr "A day at the sea"); ("moods", JArr [JStr "happy"])] in
  let video := JObj [("story", JStr "A day at the sea"); ("moods", JArr [JStr "happy"]);
                     ("type", JStr "video")] in
  lyricsPOST "rrrrrrrrr" (JObj [("userId", JStr "u1")]) world0
  = (Failure 400 "Story is required", world0)
  ∧ musicPOST "rrrrrrrrr" (JObj [("endpoint", JStr "https://api.example/generate")]) world0
    = (Failure 400 "Request body is required", world0)
  ∧ (∃ e, (lyricsPOST "rrrrrrrrr" story world0).1 = Ok e
          ∧ accepted "lyrics"
              (JObj [("story", JStr "A day at the sea"); ("moods", JArr [JStr "happy"])])
              e world0 (lyricsPOST "rrrrrrrrr" story world0).2)
  ∧ lyricsPOST "rrrrrrrrr" video world0 = lyricsPOST "rrrrrrrrr" story world0.
Proof.
  intros story video.
  pose proof (enqueue_routes_fix_the_type "rrrrrrrrr" (JObj [("userId", JStr "u1")]) world0)
    as (_ & _ & Hl & _).
  pose proof (enqueue_routes_fix_the_type "rrrrrrrrr"
                (JObj [("endpoint", JStr "https://api.example/generate")]) world0)
    as (_ & _ & _ & _ & Hm & _).
  pose proof (enqueue_routes_fix_the_type "rrrrrrrrr" story world0)
    as (_ & _ & _ & _ & _ & Hok & _ & Hsame & _).
  split; [apply Hl; [discriminate | reflexivity]|].
  split; [exact (Hm "https://api.example/generate" eq_refl eq_refl eq_refl)|].
  split; [exact (Hok "A day at the sea" eq_refl eq_refl)|].
  apply Hsame; [discriminate | discriminate | reflexivity..].
Defined.

End Runs.

(** * Further runs on the sample worlds *)

Section MoreRuns.

#[local] Existing Instance default_env.
#[local] Existing Instance strict_runtime.
#[local] Existing Instance http1.

(** The result stored for [A] reads back. *)
Lemma result_after_complete_witness :
  (kv_get_job (id jobA) world_processing).1 = Some (dequeued jobA)
  ∧ (getJobStatus (id jobA)
       (completeJob (id jobA) (JObj [("taskId", JStr "t1")]) world_processing).2).1
    = Some (with_status completed (dequeued jobA), None)
  ∧ (getJobResult (id jobA)
       (completeJob (id jobA) (JObj [("taskId", JStr "t1")]) world_processing).2).1
    = inl (JObj [("taskId", JStr "t1")]).
Proof.
  assert (Hg : (kv_get_job (id jobA) world_processing).1 = Some (dequeued jobA))
    by (vm_compute; reflexivity).
  pose proof (result_after_complete world_processing (id jobA) (dequeued jobA)
                (JObj [("taskId", JStr "t1")]) Hg) as (Hs & _ & Hr).
  exact (conj Hg (conj Hs (Hr eq_refl))).
Defined.

(** [A] fails on its first attempt and goes behind [B]. *)
Lemma failed_attempt_witness :
  success (limit "suno-api" (clock world_AB) (rl world_AB)).1 = true
  ∧ live_pending (clock world_AB) (kv world_AB) = [jobB] ++ [jobA]
  ∧ live_pending (clock world_AB)
      (kv (failJob (id jobA) "boom" None (processNextJob world_AB).2).2)
    = [retried "boom" (dequeued jobA); jobB].
Proof.
  assert (Hs : success (limit "suno-api" (clock world_AB) (rl world_AB)).1 = true)
    by (vm_compute; reflexivity).
  assert (He : live_pending (clock world_AB) (kv world_AB) = [jobB] ++ [jobA])
    by (vm_compute; reflexivity).
  pose proof (proj1 (failed_attempt world_AB [jobB] jobA "boom" Hs He)) as Hf.
  cbv zeta in Hf. destruct (Hf ltac:(vm_compute; reflexivity)) as [Hl _].
  exact (conj Hs (conj He Hl)).
Defined.

(** An hour and a second after [A] was enqueued. *)
Lemma record_outlived_by_entry_witness :
  settled world0
  ∧ (jobGET (id jobA)
       (advance 3601000 (enqueueJob "aaaaaaaaa" (JStr "anonymous") "music" (JObj []) world0).2).2).1
    = Failure 404 "Job not found".
Proof.
  assert (Hw : settled world0) by (by left).
  pose proof (record_outlived_by_entry world0 "aaaaaaaaa" (JStr "anonymous") "music" (JObj [])
                3601000 Hw) as (_ & _ & Hgone).
  cbv zeta in Hgone. destruct (Hgone ltac:(vm_compute; discriminate)) as [_ Hv].
  exact (conj Hw Hv).
Defined.

(** The list of [A] and [B]. *)
Lemma pending_entries_stay_pending_witness :
  pending_entries_ok world_AB ∧ pending_entries_ok (processNextJob world_AB).2.
Proof.
  assert (Hw : pending_entries_ok world_AB).
  { unfold pending_entries_ok.
    change (live_pending (clock world_AB) (kv world_AB)) with [jobB; jobA].
    repeat constructor; vm_compute; reflexivity. }
  exact (conj Hw (proj1 (proj2 (pending_entries_stay_pending world_AB Hw)))).
Defined.

(** The status of [A] while it waits behind [B]. *)
Lemma status_view_fields_witness :
  ∃ view, (jobGET (id jobA) world_AB).1 = Ok view
          ∧ ∃ job, (kv_get_job (id jobA) world_AB).1 = Some job
                   ∧ v_status view = status job
                   ∧ (is_Some (v_message view) ↔ status job ≠ completed).
Proof.
  assert (Hv : (jobGET (id jobA) world_AB).1
               = Ok (mkView (id jobA) pending "music" 1000 0 3 None None (Some 2)
                       (Some (Finite 60))
                       (Some "Your music is in the queue at position 2. Estimated wait: 60s")))
    by (vm_compute; reflexivity).
  destruct (status_view_fields world_AB (id jobA) _ Hv)
    as (job & Hg & _ & Hs & _ & _ & _ & _ & _ & _ & _ & Hm & _).
  exact (ex_intro _ _ (conj Hv (ex_intro _ job (conj Hg (conj Hs Hm))))).
Defined.

(** Positions 7 and 45 with twenty requests per run. *)
Lemma estimate_by_position_witness :
  (pending_fields jobA (Some 7)).1.2 = Some (Finite 60)
  ∧ ∃ n', (pending_fields jobA (Some 45)).1.2 = Some (Finite (n' * 60)) ∧ 1 ≤ n'.
Proof.
  destruct (estimate_by_position (E:=default_env) jobA 7 45 eq_refl ltac:(vm_compute; discriminate)
              ltac:(vm_compute; reflexivity) ltac:(lia)) as (n & n' & Hn & Hn' & Hle & Hone).
  rewrite (Hone ltac:(vm_compute; discriminate)) in Hn, Hle.
  split; [exact Hn|]. exists n'. split; [exact Hn' | lia].
Defined.

(** A story is submitted to the empty store. *)
Lemma submission_is_visible_witness :
  ∃ view, (jobGET "job:1000:rrrrrrrrr"
             (lyricsPOST "rrrrrrrrr" (JObj [("story", JStr "A day at the sea")]) world0).2).1
          = Ok view
          ∧ v_status view = pending ∧ v_type view = "lyrics"
          ∧ v_queuePosition view = Some 1.
Proof.
  assert (Hp : lyricsPOST "rrrrrrrrr" (JObj [("story", JStr "A day at the sea")]) world0
               = (Ok (mkEnqueued "job:1000:rrrrrrrrr"
                        "Lyrics generation job enqueued. Check status with /api/job/{jobId}"),
                  (lyricsPOST "rrrrrrrrr" (JObj [("story", JStr "A day at the sea")]) world0).2)).
  { apply injective_projections; [vm_compute; reflexivity | reflexivity]. }
  destruct (submission_is_visible (E:=default_env) "rrrrrrrrr" _ world0 _ _ "lyrics"
              (or_introl (conj Hp eq_refl)) ltac:(vm_compute; reflexivity))
    as (view & Hv & _ & Hs & Hty & _ & Hq & _).
  exact (ex_intro _ view (conj Hv (conj Hs (conj Hty Hq)))).
Defined.

(** A story of a space, a tab and a line feed. *)
Lemma blank_story_is_rejected_witness :
  lyricsPOST "rrrrrrrrr" (JObj [("story", JStr " 	
")]) world0 = (Failure 400 "Story is required", world0).
Proof.
  refine (proj1 (blank_story_is_rejected "rrrrrrrrr" (JObj [("story", JStr " 	
")]) world0 " 	
" _ eq_refl) _); [discriminate|].
  repeat constructor.
Defined.

(** Three jobs and room for two: the worker completes the lyrics of the sea
    and the song, in this order, stores their results and leaves the third
    job. *)
Lemma worker_drains_oldest_first_witness :
  ∃ w', @cronGET open_limiter checking_handlers two_request_env 4 (Some "Bearer s3cret")
          world_open_three
        = (Some (Ok (mkSummary 2 (clock w' - clock world_open_three)),
                 [Completed (dequeued jobSea); Completed (dequeued jobSong)]), w')
        ∧ queue_pending (kv w') = [jobHills]
        ∧ reads_completed w' jobSea ∧ reads_completed w' jobSong.
Proof.
  assert (Ha : @always_admits open_limiter) by (intros key now st; reflexivity).
  assert (Hr : Forall (@returns_in_time open_limiter checking_handlers)
                 (queue_pending (kv world_open_three))).
  { change (queue_pending (kv world_open_three)) with [jobHills; jobSong; jobSea].
    assert (Hjob : ∀ j, j ∈ [jobHills; jobSong; jobSea] →
                        @returns_in_time open_limiter checking_handlers j).
    { intros j Hj job' w Hty Hpl. unfold runHandler. rewrite Hty, Hpl.
      repeat (apply elem_of_cons in Hj as [->|Hj]); [..|by apply elem_of_nil in Hj];
        (split; [eexists; reflexivity | reflexivity]). }
    apply Forall_forall. exact Hjob. }
  assert (Hn : NoDup (id <$> queue_pending (kv world_open_three))).
  { apply (bool_decide_unpack _). vm_compute. reflexivity. }
  destruct (@worker_drains_oldest_first open_limiter checking_handlers two_request_env
              world_open_three 4 (Some "Bearer s3cret") Ha eq_refl eq_refl Hr Hn
              ltac:(vm_compute; lia)) as (w' & Hrun & Hq & _ & _ & Hlive).
  assert (Hw' : (@cronGET open_limiter checking_handlers two_request_env 4
                   (Some "Bearer s3cret") world_open_three).2 = w') by (by rewrite Hrun).
  assert (Hshort : clock w' - clock world_open_three < 3600 * 1000).
  { rewrite <- Hw'. vm_compute. reflexivity. }
  pose proof (proj1 (Forall_forall _ _) (Hlive Hshort)) as Hall.
  refine (ex_intro _ w' (conj Hrun (conj Hq (conj (Hall jobSea _) (Hall jobSong _))))).
  - vm_compute. constructor.
  - vm_compute. do 2 constructor.
Defined.

(** The limiter has admitted its one request of the window: the next run is
    over after one call. *)
Lemma worker_without_admission_witness :
  ∃ w', @cronGET limiter1 throwing_handlers one_request_env 1 (Some "Bearer s3cret")
          world_limited
        = (Some (Ok (mkSummary 0 0), [Stopped]), w')
        ∧ kv w' = kv world_limited.
Proof.
  destruct (proj2 (@worker_without_admission limiter1 throwing_handlers one_request_env
                     world_limited 0 (Some "Bearer s3cret") eq_refl)
              ltac:(vm_compute; reflexivity) ltac:(vm_compute; reflexivity))
    as (w' & Hrun & Hkv & _).
  exact (ex_intro _ w' (conj Hrun Hkv)).
Defined.

(** [A] with handlers that throw and a limiter without limit. *)
Lemma throwing_job_is_used_up_in_one_run_witness :
  ∃ w' job',
    @cronGET open_limiter throwing_handlers default_env 4 (Some "Bearer s3cret")
      world_open_throwing
    = (Some (Ok (mkSummary 0 0),
             throw_turns 2 "Suno API request failed: 500 " jobA ++ [Stopped]), w')
    ∧ (kv_get_job (id jobA) w').1 = Some job'
    ∧ status job' = failed ∧ attempts job' = 3.
Proof.
  assert (Ha : @always_admits open_limiter) by (intros key now st; reflexivity).
  assert (Ht : @always_throws open_limiter throwing_handlers jobA "Suno API request failed: 500 ").
  { intros job' w Hty Hpl. unfold runHandler. rewrite Hty. by split. }
  destruct (@throwing_job_is_used_up_in_one_run open_limiter throwing_handlers default_env
              world_open_throwing jobA "Suno API request failed: 500 " 4
              (Some "Bearer s3cret") Ha Ht eq_refl eq_refl eq_refl eq_refl
              ltac:(vm_compute; reflexivity) ltac:(lia))
    as (w' & job' & Hrun & _ & Hg & Hs & Hat & _).
  exact (ex_intro _ w' (ex_intro _ job' (conj Hrun (conj Hg (conj Hs Hat))))).
Defined.

(** The client polls for [A] while the worker completes it in the
    meantime: the second answer is the result of the handler. *)
Lemma pollJobWithProgress_ends_witness :
  (pollJobWithProgress worker_meanwhile (id jobA) None None (enqueue_seq [subA] world0).2).1.1
  = Returned (Some (JObj [("taskId", JStr "t1"); ("message", JStr "Music generation started")]))
  ∧ s_status <$> (pollJobWithProgress worker_meanwhile (id jobA) None None
                    (enqueue_seq [subA] world0).2).1.2
    = [pending; completed]
  ∧ poll_end refusal "Job timeout" 60
      (pollJobWithProgress worker_meanwhile (id jobA) None None (enqueue_seq [subA] world0).2).1.1
      (pollJobWithProgress worker_meanwhile (id jobA) None None (enqueue_seq [subA] world0).2).1.2.
Proof.
  split; [vm_compute; reflexivity|]. split; [vm_compute; reflexivity|].
  exact (proj1 (pollJobWithProgress_ends worker_meanwhile (enqueue_seq [subA] world0).2
                  (id jobA) None None)).
Defined.

(** A poller started after [A] was completed. *)
Lemma poll_returns_completed_result_witness :
  (pollJobUntilComplete worker_meanwhile (id jobA) None None
     (completeJob (id jobA) (JObj [("taskId", JStr "t1")]) world_processing).2).1.1
  = Returned (Some (JObj [("taskId", JStr "t1")])).
Proof.
  destruct (poll_returns_completed_result worker_meanwhile world_processing (id jobA)
              (dequeued jobA) (JObj [("taskId", JStr "t1")]) None None
              ltac:(discriminate) ltac:(vm_compute; reflexivity) eq_refl
              ltac:(discriminate) ltac:(vm_compute; reflexivity))
    as (data & _ & _ & _ & Hu & _).
  exact Hu.
Defined.

(** A poller asked about a job that was never enqueued. *)
Lemma poll_throws_for_failed_or_unknown_job_witness :
  pollJobWithProgress worker_meanwhile "job:1:nothere" None None world_AB
  = ((Thrown "Job not found", []), world_AB).
Proof.
  exact (proj2 (poll_throws_for_failed_or_unknown_job worker_meanwhile world_AB
                  "job:1:nothere" None None ltac:(discriminate)
                  ltac:(vm_compute; reflexivity))
           ltac:(vm_compute; reflexivity)).
Defined.

End MoreRuns.

(** * Runs of the fallback filter and of the diacritics route *)

Section FilterRuns.

#[local] Existing Instance already_lower.

Lemma word_on_its_own_is_caught_witness : containsProfanityFallback "o pula mare" = true.
Proof.
  apply (word_on_its_own_is_caught "o pula mare" "o " "pula" " mare").
  - discriminate.
  - reflexivity.
  - apply list_elem_of_In. simpl. tauto.
  - reflexivity.
  - reflexivity.
Defined.

(** The accented word on its own passes the filter. *)
Lemma accented_entries_are_dead_witness :
  breve_then_word "o pulă mare" = false
  ∧ containsProfanityFallback "o pulă mare" = false.
Proof.
  split; [reflexivity|].
  rewrite (accented_entries_are_dead "o pulă mare"); reflexivity.
Defined.

Lemma no_match_inside_a_longer_word_witness : containsProfanityFallback "futbolist" = false.
Proof.
  apply (no_match_inside_a_longer_word "futbolist"); [reflexivity | simpl; lia].
Defined.

Lemma other_language_is_left_alone_witness :
  diacriticsPOST None (λ _, Fails)
    (JObj [("lyrics", JStr " la la "); ("language", JStr "en")])
  = Lyrics " la la ".
Proof.
  apply other_language_is_left_alone.
  - discriminate.
  - reflexivity.
  - reflexivity.
  - reflexivity.
Defined.

End FilterRuns.
